(** * crdt: a reflective merge/join engine for join-semilattice values

    A shallow embedding of [crdt.go].  The Go code walks values through the
    [reflect] package; here a [reflect.Value] is a [type] together with a
    [data] tree, and Go maps, which are references to mutable objects, live
    in an explicit heap that every operation threads through. *)

From Stdlib Require Import ZArith Floats.SpecFloat.
From stdpp Require Import base option list gmap strings.

Set Warnings "-register-all".


(** ** Data model *)

Module reflect.
(** The kinds of [reflect.Kind], in the order the package declares them. *)
Inductive Kind :=
| Invalid | Bool | Int | Int8 | Int16 | Int32 | Int64
| Uint | Uint8 | Uint16 | Uint32 | Uint64 | Uintptr
| Float32 | Float64 | Complex64 | Complex128
| Array | Chan | Func | Interface | Map | Ptr | Slice | String | Struct
| UnsafePointer.
End reflect.

#[global] Instance Kind_eq_dec : EqDecision reflect.Kind.
Proof. solve_decision. Defined.

(** The predeclared Go types [bool], [int], ..., [string]. *)
Inductive basic :=
| Tbool | Tint | Tint8 | Tint16 | Tint32 | Tint64
| Tuint | Tuint8 | Tuint16 | Tuint32 | Tuint64 | Tuintptr
| Tfloat32 | Tfloat64 | Tcomplex64 | Tcomplex128 | Tstring.

#[global] Instance basic_eq_dec : EqDecision basic.
Proof. solve_decision. Defined.

(** Go types.  A struct field is [(Name, PkgPath, Type)]; [PkgPath] is empty
    exactly for exported fields.  [Named n u] is a defined type [type n u];
    slices stand for the kinds the engine has no strategy for.  Types are
    finite trees: recursive type declarations are outside the model. *)
Inductive type :=
| Basic (b : basic)
| StructOf (fields : list (string * string * type))
| MapOf (key elem : type)
| PtrTo (elem : type)
| SliceOf (elem : type)
| Named (name : string) (underlying : type).

Abbreviation field := (string * string * type)%type.

Definition field_Name (f : field) : string := f.1.1.
Definition field_PkgPath (f : field) : string := f.1.2.
Definition field_Type (f : field) : type := f.2.

(** Map keys: booleans, integers and strings. *)
Inductive key := KBool (b : bool) | KInt (z : Z) | KString (s : string).

#[global] Instance key_eq_dec : EqDecision key.
Proof. solve_decision. Defined.

#[global] Instance key_countable : Countable key.
Proof.
  refine (inj_countable'
    (λ k, match k with
          | KBool b => inl (inl b) | KInt z => inl (inr z) | KString s => inr s
          end)
    (λ s, match s with
          | inl (inl b) => KBool b | inl (inr z) => KInt z | inr s => KString s
          end) _).
  by intros [].
Defined.

(** A location names a map object of the heap. *)
Abbreviation loc := nat (only parsing).

(** Values.  Integers of every width are a [Z] (the typing judgement below
    bounds them), floats are IEEE 754 values, a map is [nil] or a reference
    to a map object, a pointer carries the current contents of the variable
    it points to. *)
Inductive data :=
| VBool (b : bool)
| VInt (z : Z)
| VFloat (f : spec_float)
| VComplex (re im : spec_float)
| VString (s : string)
| VStruct (fields : list data)
| VMap (r : option loc)
| VPtr (target : option data)
| VSlice (elems : list data).

Abbreviation mapobj := (gmap key data) (only parsing).
Abbreviation heap := (list (gmap key data)) (only parsing).

(** An [interface{}] argument: [None] is the nil interface, otherwise the
    dynamic type and the value. *)
Abbreviation iface := (option (type * data)) (only parsing).

(** ** Panics *)

Inductive result (A : Type) :=
| Ok (x : A)
| Panic (msg : string).
Arguments Ok {A} x.
Arguments Panic {A} msg.

#[global] Instance result_ret : MRet result := λ A x, Ok x.
#[global] Instance result_bind : MBind result := λ A B f r,
  match r with Ok x => f x | Panic msg => Panic msg end.

(** A custom [Merge(other interface{}) bool] method: from the receiver's
    value, the argument and the heap to the changed flag, the receiver's new
    value and the new heap. *)
Abbreviation merger :=
  (data → type * data → list (gmap key data) → result (bool * data * list (gmap key data)))
  (only parsing).

(** ** Types: kind, identity, zero value *)

Definition basic_Kind (b : basic) : reflect.Kind :=
  match b with
  | Tbool => reflect.Bool
  | Tint => reflect.Int | Tint8 => reflect.Int8 | Tint16 => reflect.Int16
  | Tint32 => reflect.Int32 | Tint64 => reflect.Int64
  | Tuint => reflect.Uint | Tuint8 => reflect.Uint8 | Tuint16 => reflect.Uint16
  | Tuint32 => reflect.Uint32 | Tuint64 => reflect.Uint64
  | Tuintptr => reflect.Uintptr
  | Tfloat32 => reflect.Float32 | Tfloat64 => reflect.Float64
  | Tcomplex64 => reflect.Complex64 | Tcomplex128 => reflect.Complex128
  | Tstring => reflect.String
  end.

(** [Value.Kind()]: a defined type has the kind of its underlying type. *)
Fixpoint Kind (t : type) : reflect.Kind :=
  match t with
  | Basic b => basic_Kind b
  | StructOf _ => reflect.Struct
  | MapOf _ _ => reflect.Map
  | PtrTo _ => reflect.Ptr
  | SliceOf _ => reflect.Slice
  | Named _ u => Kind u
  end.

(** [Type.Elem()] of a pointer type. *)
Fixpoint Elem (t : type) : option type :=
  match t with
  | PtrTo e => Some e
  | Named _ u => Elem u
  | _ => None
  end.

Definition basic_String (b : basic) : string :=
  match b with
  | Tbool => "bool"
  | Tint => "int" | Tint8 => "int8" | Tint16 => "int16"
  | Tint32 => "int32" | Tint64 => "int64"
  | Tuint => "uint" | Tuint8 => "uint8" | Tuint16 => "uint16"
  | Tuint32 => "uint32" | Tuint64 => "uint64"
  | Tuintptr => "uintptr"
  | Tfloat32 => "float32" | Tfloat64 => "float64"
  | Tcomplex64 => "complex64" | Tcomplex128 => "complex128"
  | Tstring => "string"
  end.

(** [Type.String()], for the panic messages. *)
Fixpoint type_String (t : type) : string :=
  match t with
  | Basic b => basic_String b
  | StructOf fs =>
      ("struct {"
       ++ (fix fields_String (fs : list field) : string :=
             match fs with
             | [] => " }"
             | (n, _, ft) :: fs' =>
                 (" " ++ n ++ " " ++ type_String ft ++ ";" ++ fields_String fs')%string
             end) fs)%string
  | MapOf kt et => ("map[" ++ type_String kt ++ "]" ++ type_String et)%string
  | PtrTo et => ("*" ++ type_String et)%string
  | SliceOf et => ("[]" ++ type_String et)%string
  | Named n _ => n
  end.

(** Type identity, the [!=] of [Merge] and [Join] on [reflect.Type]. *)
Fixpoint type_eqb (t u : type) {struct t} : bool :=
  match t, u with
  | Basic a, Basic b => bool_decide (a = b)
  | StructOf fs, StructOf gs =>
      (fix fields_eqb (fs gs : list field) {struct fs} : bool :=
         match fs, gs with
         | [], [] => true
         | (n, p, t) :: fs', (m, q, u) :: gs' =>
             bool_decide (n = m) && bool_decide (p = q) && type_eqb t u
             && fields_eqb fs' gs'
         | _, _ => false
         end) fs gs
  | MapOf k e, MapOf k' e' => type_eqb k k' && type_eqb e e'
  | PtrTo e, PtrTo e' => type_eqb e e'
  | SliceOf e, SliceOf e' => type_eqb e e'
  | Named n t', Named m u' => bool_decide (n = m) && type_eqb t' u'
  | _, _ => false
  end.

(** [reflect.New(t).Elem()]: the zero value of a type. *)
Fixpoint zero (t : type) : data :=
  match t with
  | Basic Tbool => VBool false
  | Basic (Tfloat32 | Tfloat64) => VFloat (S754_zero false)
  | Basic (Tcomplex64 | Tcomplex128) => VComplex (S754_zero false) (S754_zero false)
  | Basic Tstring => VString ""
  | Basic _ => VInt 0
  | StructOf fs => VStruct (map (λ f : field, zero f.2) fs)
  | MapOf _ _ => VMap None
  | PtrTo _ => VPtr None
  | SliceOf _ => VSlice []
  | Named _ u => zero u
  end.

(** ** The heap of map objects *)

(** [reflect.MakeMap]: a new, empty map object at the next free location. *)
Definition MakeMap (h : heap) : loc * heap := (length h, h ++ [∅]).

(** [SetMapIndex] on the map object at [l]. *)
Definition SetMapIndex (l : loc) (k : key) (v : data) (h : heap) : heap :=
  match h !! l with
  | Some m => <[l := <[k := v]> m]> h
  | None => h
  end.

(** ** isOrdered and greater *)

(** isOrdered returns true if the given kind of value has a total ordering. *)
Definition isOrdered (kind : reflect.Kind) : bool :=
  match kind with
  | reflect.Bool => true
  | reflect.Int | reflect.Int8 | reflect.Int16 | reflect.Int32 | reflect.Int64 => true
  | reflect.Uint | reflect.Uint8 | reflect.Uint16 | reflect.Uint32 | reflect.Uint64 => true
  | reflect.Float32 | reflect.Float64 => true
  | reflect.String => true
  | _ => false
  end.

(** The [>] of Go on floats and on strings. *)
Definition SFgtb (x y : spec_float) : bool :=
  match SFcompare x y with Some Gt => true | _ => false end.

Definition string_gtb (x y : string) : bool :=
  match String.compare x y with Gt => true | _ => false end.

(** The type assertions [a.(T)] of [greater], once the type switch has chosen
    [T]: the other argument must have the same dynamic type, and the value
    must be one of that type. *)
Definition assert_bool (v : type * data) : result bool :=
  match v with
  | (Basic Tbool, VBool x) => Ok x
  | _ => Panic "interface conversion: not a bool"
  end.

Definition assert_int (T : basic) (v : type * data) : result Z :=
  match v with
  | (Basic T', VInt x) =>
      if bool_decide (T = T') then Ok x
      else Panic "interface conversion: not the same integer type"
  | _ => Panic "interface conversion: not an integer"
  end.

Definition assert_float (T : basic) (v : type * data) : result spec_float :=
  match v with
  | (Basic T', VFloat x) =>
      if bool_decide (T = T') then Ok x
      else Panic "interface conversion: not the same float type"
  | _ => Panic "interface conversion: not a float"
  end.

Definition assert_string (v : type * data) : result string :=
  match v with
  | (Basic Tstring, VString x) => Ok x
  | _ => Panic "interface conversion: not a string"
  end.

Definition int_gt (T : basic) (a b : type * data) : result bool :=
  x ← assert_int T a; y ← assert_int T b; Ok (x >? y)%Z.

Definition float_gt (T : basic) (a b : type * data) : result bool :=
  x ← assert_float T a; y ← assert_float T b; Ok (SFgtb x y).

(** greater returns true if a > b.  The type switch is on the dynamic type of
    [a]: only the predeclared types have a case, a defined type falls to the
    default even when its underlying type is one of them. *)
Definition greater (a b : type * data) : result bool :=
  match a.1 with
  | Basic Tbool => x ← assert_bool a; y ← assert_bool b; Ok (x && negb y)
  | Basic Tint => int_gt Tint a b
  | Basic Tint8 => int_gt Tint8 a b
  | Basic Tint16 => int_gt Tint16 a b
  | Basic Tint32 => int_gt Tint32 a b
  | Basic Tint64 => int_gt Tint64 a b
  | Basic Tuint => int_gt Tuint a b
  | Basic Tuint8 => int_gt Tuint8 a b
  | Basic Tuint16 => int_gt Tuint16 a b
  | Basic Tuint32 => int_gt Tuint32 a b
  | Basic Tuint64 => int_gt Tuint64 a b
  | Basic Tfloat32 => float_gt Tfloat32 a b
  | Basic Tfloat64 => float_gt Tfloat64 a b
  | Basic Tstring => x ← assert_string a; y ← assert_string b; Ok (string_gtb x y)
  | t => Panic ("don't know how to handle type: " ++ type_String t)
  end.

(** ** The engine *)

(** What the engine takes from the program around it: the [Merge] methods
    the program declares, by the name of the defined type whose pointer type
    carries the method, and [Value.MapKeys()], the keys of a map object in
    an order the language leaves unspecified. *)
Class program := {
  methods : string → option merger;
  MapKeys : mapobj → list key;
}.

Section engine.
Context {P : program}.

(** The type assertion [a.Addr().Interface().(Merger)]. *)
Definition as_Merger (t : type) : option merger :=
  match t with
  | Named n _ => methods n
  | _ => None
  end.

Section strategies.
(** The recursive call, on a field or on a map element. *)
Variable merge : type → data → data → heap → result (bool * data * heap).

(** The loop of the struct strategy over the fields [i = 0 .. NumField-1];
    the flag is set as soon as one field reports a change, and every field
    is merged. *)
Fixpoint merge_fields (fs : list field) (a b : list data) (h : heap)
  : result (bool * list data * heap) :=
  match fs, a, b with
  | [], [], [] => Ok (false, [], h)
  | f :: fs', x :: a', y :: b' =>
      if negb (String.eqb (field_PkgPath f) "")
      then Panic ("field " ++ field_Name f ++ " (" ++ field_PkgPath f ++ ") is unexported")
      else
        '(c, x', h) ← merge (field_Type f) x y h;
        '(changed, a'', h) ← merge_fields fs' a' b' h;
        Ok (c || changed, x' :: a'', h)
  | _, _, _ => Panic "reflect: Field index out of range"
  end.

(** The loop of the map strategy over [b.MapKeys()]; [a] and [b] are the
    map objects of the target and of the source, [et] the element type.
    Both objects are read in the current heap at every step.  Nothing
    removes a key, so [b.MapIndex(key)] is valid for the keys of
    [b.MapKeys()]. *)
Fixpoint merge_keys (et : type) (a b : loc) (keys : list key)
    (changed : bool) (h : heap) : result (bool * heap) :=
  match keys with
  | [] => Ok (changed, h)
  | key :: keys' =>
      match h !! a, h !! b with
      | Some ma, Some mb =>
          match mb !! key with
          | Some bValue =>
              match ma !! key with
              | Some aValue =>
                  let newValue := zero et in
                  '(_, newValue, h) ← merge et newValue aValue h;
                  '(c, newValue, h) ← merge et newValue bValue h;
                  if c : bool
                  then merge_keys et a b keys' true (SetMapIndex a key newValue h)
                  else merge_keys et a b keys' changed h
              | None =>
                  merge_keys et a b keys' true (SetMapIndex a key bValue h)
              end
          | None => Panic "reflect: call of reflect.Value.Type on zero Value"
          end
      | _, _ => Panic "invalid map reference"
      end
  end.

(** The map strategy. *)
Definition merge_map (et : type) (a b : option loc) (h : heap)
  : result (bool * data * heap) :=
  let '(a, h) :=
    match a, b with
    | None, Some _ => let '(l, h) := MakeMap h in (Some l, h)
    | _, _ => (a, h)
    end in
  match b with
  | None => Ok (false, VMap a, h)
  | Some lb =>
      match a, h !! lb with
      | Some la, Some mb =>
          '(changed, h) ← merge_keys et la lb (MapKeys mb) false h;
          Ok (changed, VMap (Some la), h)
      | None, _ => Panic "assignment to entry in nil map"
      | _, None => Panic "invalid map reference"
      end
  end.
End strategies.

(** The Merger check that opens [merge], in front of the dispatch [rec] on
    the kind. *)
Definition with_Merger
    (rec : type → type → data → data → heap → result (bool * data * heap))
    (t : type) (a b : data) (h : heap) : result (bool * data * heap) :=
  match as_Merger t with
  | Some m => m a (t, b) h
  | None => rec t t a b h
  end.

(** The branches of [merge] after the Merger check, by [a.Kind()].  [T] is
    [a.Type()], [t] what is left of it once the names are looked through. *)
Fixpoint dispatch (T t : type) (a b : data) (h : heap) {struct t}
  : result (bool * data * heap) :=
  match t with
  | Named _ u => dispatch T u a b h
  | StructOf fs =>
      match a, b with
      | VStruct xs, VStruct ys =>
          '(changed, xs, h) ← merge_fields (with_Merger dispatch) fs xs ys h;
          Ok (changed, VStruct xs, h)
      | _, _ => Panic "reflect: call of NumField on a value that is no struct"
      end
  | MapOf _ et =>
      match a, b with
      | VMap ra, VMap rb => merge_map (with_Merger dispatch) et ra rb h
      | _, _ => Panic "reflect: call of MapKeys on a value that is no map"
      end
  | Basic bt =>
      if isOrdered (basic_Kind bt) then
        g ← greater (T, b) (T, a);
        if g : bool then Ok (true, b, h) else Ok (false, a, h)
      else Panic ("don't know how to merge type " ++ type_String T)
  | PtrTo _ | SliceOf _ => Panic ("don't know how to merge type " ++ type_String T)
  end.

(** merge sets the value of a to the least upper bound of (a, b).
    It returns true if the value of a was modified. *)
Definition merge : type → data → data → heap → result (bool * data * heap) :=
  with_Merger dispatch.

(** Merge sets the value of a to the least upper bound of (a, b).  The
    result carries the new contents of the variable [a] points to. *)
Definition Merge (a b : iface) (h : heap) : result (bool * data * heap) :=
  match a with
  | Some (A, aVal) =>
      if negb (bool_decide (Kind A = reflect.Ptr)) then Panic "a must be a pointer"
      else
        match Elem A, aVal, b with
        | Some T, VPtr (Some aElem), Some (B, bVal) =>
            if negb (type_eqb T B) then Panic "a and &b must be the same type"
            else merge T aElem bVal h
        | _, _, _ => Panic "reflect: call of reflect.Value.Type on zero Value"
        end
  | None => Panic "a must be a pointer"
  end.

Definition join (t : type) (a b : data) (h : heap) : result (data * heap) :=
  let value := zero t in
  '(_, value, h) ← merge t value a h;
  '(_, value, h) ← merge t value b h;
  Ok (value, h).

(** Join returns the least upper bound of (a, b). *)
Definition Join (a b : iface) (h : heap) : result (data * heap) :=
  match a, b with
  | Some (A, aVal), Some (B, bVal) =>
      if negb (type_eqb A B) then Panic "a and b must be the same type"
      else join A aVal bVal h
  | _, _ => Panic "reflect: call of reflect.Value.Type on zero Value"
  end.
End engine.

(** ** Well-formed inputs *)

(** The range of each integer type ([int] and [uint] are 64 bits wide). *)
Definition int_bounds (T : basic) : option (Z * Z) :=
  match T with
  | Tint8 => Some (-2^7, 2^7)%Z
  | Tint16 => Some (-2^15, 2^15)%Z
  | Tint32 => Some (-2^31, 2^31)%Z
  | Tint | Tint64 => Some (-2^63, 2^63)%Z
  | Tuint8 => Some (0, 2^8)%Z
  | Tuint16 => Some (0, 2^16)%Z
  | Tuint32 => Some (0, 2^32)%Z
  | Tuint | Tuint64 | Tuintptr => Some (0, 2^64)%Z
  | _ => None
  end.

(** A value of a predeclared type. *)
Definition basic_typed (T : basic) (d : data) : Prop :=
  match T, d with
  | Tbool, VBool _ => True
  | (Tfloat32 | Tfloat64), VFloat _ => True
  | (Tcomplex64 | Tcomplex128), VComplex _ _ => True
  | Tstring, VString _ => True
  | _, VInt z =>
      match int_bounds T with
      | Some (lo, hi) => (lo ≤ z < hi)%Z
      | None => False
      end
  | _, _ => False
  end.

Section fields.
Context {A : Type} (P : type → A → Prop).

(** [P] on every field of a struct, each at its own type. *)
Fixpoint fields_all (fs : list field) (ds : list A) : Prop :=
  match fs, ds with
  | [], [] => True
  | f :: fs', d :: ds' => P (field_Type f) d ∧ fields_all fs' ds'
  | _, _ => False
  end.
End fields.

(** [has_type Σ t d]: [d] is a value of type [t], where [Σ] gives, for every
    map object of the heap, the type of its elements. *)
Fixpoint has_type (Σ : list type) (t : type) (d : data) : Prop :=
  match t with
  | Basic T => basic_typed T d
  | StructOf fs =>
      match d with
      | VStruct ds => fields_all (has_type Σ) fs ds
      | _ => False
      end
  | MapOf _ et =>
      match d with
      | VMap None => True
      | VMap (Some l) => Σ !! l = Some et
      | _ => False
      end
  | PtrTo _ => match d with VPtr None => True | _ => False end
  | SliceOf _ => match d with VSlice [] => True | _ => False end
  | Named _ u => has_type Σ u d
  end.

(** Every element of every map object has the type [Σ] promises. *)
Definition heap_ok (Σ : list type) (h : heap) : Prop :=
  length Σ = length h ∧
  ∀ l et m k v, Σ !! l = Some et → h !! l = Some m → m !! k = Some v →
    has_type Σ et v.

(** Map objects only gain keys: what [h] holds under a key, [h'] holds
    something under that key too. *)
Definition heap_grows (h h' : heap) : Prop :=
  ∀ l m k, h !! l = Some m → is_Some (m !! k) →
    ∃ m', h' !! l = Some m' ∧ is_Some (m' !! k).

(** [h'] is [h] with new objects after it and with writes to the objects
    at the locations [W] only. *)
Definition writes_within (h : heap) (W : list loc) (h' : heap) : Prop :=
  length h ≤ length h' ∧ ∀ l, l < length h → l ∉ W → h' !! l = h !! l.

(** The map references a value holds directly, that is in its struct fields
    at any depth but not inside the map objects. *)
Fixpoint refs (d : data) : list loc :=
  match d with
  | VMap (Some l) => [l]
  | VStruct ds => flat_map refs ds
  | _ => []
  end.

Section mergeable.
Context {P : program}.

Definition no_Merger (t : type) : bool :=
  match as_Merger t with None => true | Some _ => false end.

(** The types [dispatch] has a strategy for all the way down: ordered
    predeclared scalars, structs with exported fields only, maps; no type
    in them declares a Merge method.  [named] tells that a type name was
    looked through to reach [t]. *)
Fixpoint strategy (named : bool) (t : type) : bool :=
  match t with
  | Basic T => negb named && isOrdered (basic_Kind T)
  | StructOf fs =>
      forallb (λ f : field,
        String.eqb (field_PkgPath f) "" && no_Merger (field_Type f)
        && strategy false (field_Type f)) fs
  | MapOf _ et => no_Merger et && strategy false et
  | Named _ u => strategy true u
  | PtrTo _ | SliceOf _ => false
  end.

Definition mergeable (t : type) : bool := no_Merger t && strategy false t.
End mergeable.

(** [MapKeys] returns the keys of the map, each once. *)
Definition MapKeys_spec (P : program) : Prop :=
  ∀ m, NoDup (MapKeys m) ∧ ∀ k, k ∈ MapKeys m ↔ is_Some (m !! k).

(** The program of the examples: no type declares a Merge method, and the
    keys of a map come in the order of its representation. *)
Definition sorted_keys (m : mapobj) : list key := (map_to_list m).*1.
Definition plain_program : program :=
  {| methods := λ _, None; MapKeys := sorted_keys |}.

(** [underlying t] is [t] with the type names in front of it removed. *)
Fixpoint underlying (t : type) : type :=
  match t with
  | Named _ u => underlying u
  | _ => t
  end.

(** The natural strict order of each ordered type: [false < true], the
    numeric order of the integers, the IEEE 754 order of the floats (in
    which a NaN is below and above nothing), the bytewise lexicographic
    order of the strings. *)
Definition natural_lt (T : basic) (a b : data) : Prop :=
  match T, a, b with
  | Tbool, VBool x, VBool y => x = false ∧ y = true
  | (Tfloat32 | Tfloat64), VFloat x, VFloat y => SFcompare x y = Some Lt
  | Tstring, VString x, VString y => String.compare x y = Lt
  | (Tint | Tint8 | Tint16 | Tint32 | Tint64
     | Tuint | Tuint8 | Tuint16 | Tuint32 | Tuint64), VInt x, VInt y => (x < y)%Z
  | _, _, _ => False
  end.

(** ** Equality of values

    [deep_rel strict h1 h2 t d1 d2] compares the value [d1], read in the heap
    [h1], with [d2], read in [h2], the way [reflect.DeepEqual] does: structs
    field by field, maps by their keys and, key by key, their elements.
    Scalars are compared as data, so that a NaN is the value it is and the
    two zeros of the floats are two values.  With [strict] a nil map equals
    only a nil map; without it a nil map is an empty map. *)

Definition map_object (h : heap) (r : option loc) : option mapobj :=
  match r with
  | None => Some ∅
  | Some l => h !! l
  end.

Definition entry_rel (P : data → data → Prop) (o1 o2 : option data) : Prop :=
  match o1, o2 with
  | Some v1, Some v2 => P v1 v2
  | None, None => True
  | _, _ => False
  end.

Section fields2.
Variable P : type → data → data → Prop.

Fixpoint fields_all2 (fs : list field) (xs ys : list data) : Prop :=
  match fs, xs, ys with
  | [], [], [] => True
  | f :: fs', x :: xs', y :: ys' => P (field_Type f) x y ∧ fields_all2 fs' xs' ys'
  | _, _, _ => False
  end.
End fields2.

Fixpoint deep_rel (strict : bool) (h1 h2 : heap) (t : type) (d1 d2 : data) : Prop :=
  match t with
  | StructOf fs =>
      match d1, d2 with
      | VStruct xs, VStruct ys => fields_all2 (deep_rel strict h1 h2) fs xs ys
      | _, _ => False
      end
  | MapOf _ et =>
      match d1, d2 with
      | VMap r1, VMap r2 =>
          (strict = true → (r1 = None ↔ r2 = None)) ∧
          ∃ m1 m2, map_object h1 r1 = Some m1 ∧ map_object h2 r2 = Some m2 ∧
            ∀ k, entry_rel (deep_rel strict h1 h2 et) (m1 !! k) (m2 !! k)
      | _, _ => False
      end
  | Named _ u => deep_rel strict h1 h2 u d1 d2
  | Basic _ | PtrTo _ | SliceOf _ => d1 = d2
  end.

(** [reflect.DeepEqual] of two values of type [t] in one heap. *)
Definition DeepEqual (h : heap) (t : type) (a b : data) : Prop :=
  deep_rel true h h t a b.

(** The value [a] had in [h] is the value [a'] has in [h'], a nil map and an
    empty map counting as the same value. *)
Definition same_value (h h' : heap) (t : type) (a a' : data) : Prop :=
  deep_rel false h h' t a a'.

(** [zero_image h t n w]: [n] is what merging a value equal to [w] into the
    zero value of [t] leaves: on a scalar the greater of [w] and zero, on a
    struct this field by field, on a map a map equal to [w]. *)
Fixpoint zero_image (h : heap) (t : type) (n w : data) : Prop :=
  match t with
  | Basic T =>
      ∃ g, greater (Basic T, w) (Basic T, zero (Basic T)) = Ok g
           ∧ n = if g : bool then w else zero (Basic T)
  | StructOf fs =>
      match n, w with
      | VStruct ns, VStruct ws => fields_all2 (zero_image h) fs ns ws
      | _, _ => False
      end
  | MapOf kt et => deep_rel true h h (MapOf kt et) n w
  | Named _ u => zero_image h u n w
  | PtrTo _ | SliceOf _ => False
  end.

(** [l] is referred to from inside a map object of the heap. *)
Definition inner (h : heap) (l : loc) : Prop :=
  ∃ l0 m k v, h !! l0 = Some m ∧ m !! k = Some v ∧ l ∈ refs v.

(** The map objects the target [a] holds directly are its own: it holds
    each of them once, and no map of the heap has one of them as an
    element. *)
Definition unshared (h : heap) (a : data) : Prop :=
  NoDup (refs a) ∧ ∀ l, l ∈ refs a → ¬ inner h l.

(** [at_least_zero t d]: no scalar in the struct fields of [d] is below the
    zero value, that is, each is above it or is it. *)
Fixpoint at_least_zero (t : type) (d : data) : Prop :=
  match t with
  | Basic T =>
      ∃ g, greater (Basic T, d) (Basic T, zero (Basic T)) = Ok g
           ∧ (g = true ∨ d = zero (Basic T))
  | StructOf fs =>
      match d with
      | VStruct ds => fields_all at_least_zero fs ds
      | _ => False
      end
  | MapOf _ _ => True
  | Named _ u => at_least_zero u d
  | PtrTo _ | SliceOf _ => False
  end.

(** ** The types of the package's tests *)

Definition decreasingInt : type := Named "decreasingInt" (Basic Tint).

(** [func (i *decreasingInt) Merge(other interface{}) bool] *)
Definition decreasingInt_Merge : merger := λ i other h,
  if negb (type_eqb other.1 decreasingInt)
  then Panic "interface conversion: interface {} is not crdt.decreasingInt"
  else
    match other.2, i with
    | VInt otherInt, VInt i' =>
        if (otherInt <? i')%Z then Ok (true, VInt otherInt, h) else Ok (false, i, h)
    | _, _ => Panic "malformed value"
    end.

Definition test_program : program :=
  {| methods := λ n,
       if String.eqb n "decreasingInt" then Some decreasingInt_Merge else None;
     MapKeys := sorted_keys |}.

(** [type A struct { I int; J string }] *)
Definition A_struct : type :=
  Named "A" (StructOf [("I", "", Basic Tint); ("J", "", Basic Tstring)]).

(** [type A map[int]int] *)
Definition A_map : type := Named "A" (MapOf (Basic Tint) (Basic Tint)).

(** [map[int]int], and a heap with the maps [{1: -5}] and [{1: -3}]. *)
Definition int_map : type := MapOf (Basic Tint) (Basic Tint).
Definition neg_heap : heap :=
  [ {[ KInt 1%Z := VInt (-5) ]}; {[ KInt 1%Z := VInt (-3) ]} ].

(** [&x] for a variable [x] of type [t] that holds [d]. *)
Definition addr (t : type) (d : data) : iface := Some (PtrTo t, VPtr (Some d)).

(** A heap with the maps [{1: 2}] and [{2: 3}]. *)
Definition count_heap : heap :=
  [ {[ KInt 1%Z := VInt 2 ]}; {[ KInt 2%Z := VInt 3 ]} ].

(** A heap with the maps [{1: 5}] and [{1: 3}]. *)
Definition low_heap : heap :=
  [ {[ KInt 1%Z := VInt 5 ]}; {[ KInt 1%Z := VInt 3 ]} ].

(** ** Basic facts *)

Lemma type_ind' (P : type → Prop) :
  (∀ T, P (Basic T)) →
  (∀ fs, Forall (λ f : field, P (field_Type f)) fs → P (StructOf fs)) →
  (∀ kt et, P kt → P et → P (MapOf kt et)) →
  (∀ et, P et → P (PtrTo et)) →
  (∀ et, P et → P (SliceOf et)) →
  (∀ n u, P u → P (Named n u)) →
  ∀ t, P t.
Proof.
  intros HB HS HM HP HL HN. fix IH 1. intros [T|fs|kt et|et|et|n u].
  - apply HB.
  - apply HS. induction fs as [|[[n p] t] fs IHfs]; constructor.
    + apply IH.
    + apply IHfs.
  - apply HM; apply IH.
  - apply HP, IH.
  - apply HL, IH.
  - apply HN, IH.
Qed.

Lemma type_eqb_eq t u : type_eqb t u = true ↔ t = u.
Proof.
  revert u. induction t as [T|fs IH|kt et IHk IHe|et IH|et IH|n t IH] using type_ind';
    intros [T'|gs|kt' et'|et'|et'|m u]; simpl; try (split; [done|congruence]).
  - rewrite bool_decide_eq_true. split; congruence.
  - revert gs. induction IH as [|[[n p] t] fs Ht _ IHfs]; intros [|[[m q] u] gs];
      try (split; [done|congruence]).
    rewrite !andb_true_iff, !bool_decide_eq_true.
    simpl in Ht. rewrite Ht. specialize (IHfs gs).
    split.
    + intros [[[-> ->] ->] Hfs]. apply IHfs in Hfs. congruence.
    + intros [= -> -> -> ->]. repeat split. apply IHfs. done.
  - rewrite andb_true_iff, IHk, IHe. split; [intros [-> ->]|intros [= -> ->]]; done.
  - rewrite IH. split; congruence.
  - rewrite IH. split; congruence.
  - rewrite andb_true_iff, bool_decide_eq_true, IH.
    split; [intros [-> ->]|intros [= -> ->]]; done.
Qed.

Lemma type_eqb_refl t : type_eqb t t = true.
Proof. by apply type_eqb_eq. Qed.

Lemma type_eqb_neq t u : t ≠ u → type_eqb t u = false.
Proof.
  intros Hne. destruct (type_eqb t u) eqn:E; [|done].
  by apply type_eqb_eq in E.
Qed.

Lemma dispatch_underlying `{P : program} T t a b h :
  dispatch T t a b h
  = dispatch T (underlying t) a b h.
Proof. induction t; simpl; auto. Qed.

Lemma Kind_underlying t : Kind (underlying t) = Kind t.
Proof. induction t; simpl; auto. Qed.

Lemma sorted_keys_spec (P : program) : @MapKeys P = sorted_keys → MapKeys_spec P.
Proof.
  intros HP m. rewrite HP. split.
  - apply NoDup_fst_map_to_list.
  - intros k. unfold sorted_keys. rewrite list_elem_of_fmap. split.
    + intros [[k' v] [-> Hkv]]. apply elem_of_map_to_list in Hkv. eauto.
    + intros [v Hv]. exists (k, v). split; [done|]. by apply elem_of_map_to_list.
Qed.

(** ** The orderings of the scalar types *)

Lemma compare_cont_swap m m' :
  PosDef.Pos.compare_cont Eq m' m = CompOpp (PosDef.Pos.compare_cont Eq m m').
Proof. symmetry. apply (Pos.compare_cont_antisym m m' Eq). Qed.

Lemma compare_cont_same m : PosDef.Pos.compare_cont Eq m m = Eq.
Proof. apply Pos.compare_cont_refl. Qed.

Lemma SFcompare_Gt_Lt x y : SFcompare x y = Some Gt ↔ SFcompare y x = Some Lt.
Proof.
  destruct x as [[]|[]| |[] m e], y as [[]|[]| |[] m' e']; simpl;
    try (split; congruence).
  - rewrite (Z.compare_antisym e e'). destruct (e ?= e')%Z; simpl;
      try (split; congruence).
    rewrite (compare_cont_swap m m').
    destruct (PosDef.Pos.compare_cont Eq m m'); simpl; split; congruence.
  - rewrite (Z.compare_antisym e e'). destruct (e ?= e')%Z; simpl;
      try (split; congruence).
    rewrite (compare_cont_swap m m').
    destruct (PosDef.Pos.compare_cont Eq m m'); simpl; split; congruence.
Qed.

Lemma SFgtb_true x y : SFgtb x y = true ↔ SFcompare y x = Some Lt.
Proof.
  rewrite <- SFcompare_Gt_Lt. unfold SFgtb.
  destruct (SFcompare x y) as [[]|]; split; congruence.
Qed.

Lemma SFcompare_irrefl x : SFcompare x x ≠ Some Lt.
Proof.
  destruct x as [[]|[]| |[] m e]; simpl; try congruence.
  - rewrite Z.compare_refl, compare_cont_same. simpl. congruence.
  - rewrite Z.compare_refl, compare_cont_same. congruence.
Qed.

Lemma string_gtb_true x y : string_gtb x y = true ↔ String.compare y x = Lt.
Proof.
  unfold string_gtb. rewrite (String.compare_antisym y x).
  destruct (String.compare x y); simpl; split; congruence.
Qed.

Lemma string_compare_irrefl x : String.compare x x ≠ Lt.
Proof.
  intros H. pose proof (String.compare_antisym x x) as Ha.
  rewrite H in Ha. discriminate.
Qed.

Lemma natural_lt_irrefl T a : ¬ natural_lt T a a.
Proof.
  destruct T, a; simpl; try tauto; try lia; try apply SFcompare_irrefl;
    try apply string_compare_irrefl.
  intros [-> ?]. done.
Qed.

(** On values of an ordered predeclared type [greater] is the natural
    order, read from right to left. *)
Lemma greater_natural T a b :
  isOrdered (basic_Kind T) = true → basic_typed T a → basic_typed T b →
  ∃ g, greater (Basic T, b) (Basic T, a) = Ok g ∧ (g = true ↔ natural_lt T a b).
Proof.
  intros Ho Ha Hb.
  destruct T; try discriminate Ho; destruct a; try done; destruct b; try done;
    simpl; eexists; (split; [reflexivity|]);
    rewrite ?Z.gtb_lt, ?SFgtb_true, ?string_gtb_true; try done.
  destruct b, b0; simpl; intuition congruence.
Qed.

(** ** The package's tests *)

Section tests.
Local Open Scope Z_scope.

Example TestMergeMerger h :
let Merge := @Merge test_program in
let v x := Some (decreasingInt, VInt x) in
Merge (addr decreasingInt (VInt 0)) (v 0) h = Ok (false, VInt 0, h)
∧ Merge (addr decreasingInt (VInt 0)) (v 1) h = Ok (false, VInt 0, h)
∧ Merge (addr decreasingInt (VInt 0)) (v (-1)) h = Ok (true, VInt (-1), h)
∧ Merge (addr decreasingInt (VInt (-1))) (v 2) h = Ok (false, VInt (-1), h)
∧ Merge (addr decreasingInt (VInt (-1))) (v (-2)) h = Ok (true, VInt (-2), h).
Proof. repeat split. Qed.

Example TestMergeStruct h :
let Merge := @Merge test_program in
let A i j := VStruct [VInt i; VString j] in
let v i j := Some (A_struct, A i j) in
Merge (addr A_struct (zero A_struct)) (v 0 "") h = Ok (false, A 0 "", h)
∧ Merge (addr A_struct (A 0 "")) (v 1 "") h = Ok (true, A 1 "", h)
∧ Merge (addr A_struct (A 1 "")) (v 0 "a") h = Ok (true, A 1 "a", h)
∧ Merge (addr A_struct (A 1 "a")) (v 1 "a") h = Ok (false, A 1 "a", h)
∧ Merge (addr A_struct (A 1 "a")) (v (-1) "b") h = Ok (true, A 1 "b", h)
∧ Merge (addr A_struct (A 1 "b")) (v 2 "aa") h = Ok (true, A 2 "b", h).
Proof. repeat split. Qed.

(** The map literals of [TestMergeMap] are the objects 0 to 3 of the heap;
  the variable [value] starts nil and gets the object 4. *)
Example TestMergeMap :
let Merge := @Merge test_program in
let i (k v : Z) := (KInt k, VInt v) in
let lit0 : mapobj := ∅ in
let lit1 : mapobj := list_to_map [i 1 0] in
let lit2 : mapobj := list_to_map [i 2 0] in
let lit3 : mapobj := list_to_map [i 1 0; i 2 1] in
let lit4 : mapobj := list_to_map [i 1 1; i 2 0] in
let lits := [lit0; lit1; lit2; lit3; lit4] in
let other (l : nat) := Some (A_map, VMap (Some l)) in
let value := VMap (Some 5%nat) in
Merge (addr A_map (VMap None)) (other 0%nat) lits = Ok (false, value, lits ++ [∅])
∧ Merge (addr A_map value) (other 1%nat) (lits ++ [∅]) = Ok (true, value, lits ++ [lit1])
∧ Merge (addr A_map value) (other 1%nat) (lits ++ [lit1]) = Ok (false, value, lits ++ [lit1])
∧ Merge (addr A_map value) (other 2%nat) (lits ++ [lit1])
  = Ok (true, value, lits ++ [list_to_map [i 1 0; i 2 0]])
∧ Merge (addr A_map value) (other 3%nat) (lits ++ [list_to_map [i 1 0; i 2 0]])
  = Ok (true, value, lits ++ [lit3])
∧ Merge (addr A_map value) (other 3%nat) (lits ++ [lit3]) = Ok (false, value, lits ++ [lit3])
∧ Merge (addr A_map value) (other 4%nat) (lits ++ [lit3])
  = Ok (true, value, lits ++ [list_to_map [i 1 1; i 2 1]])
∧ Merge (addr A_map value) (other 4%nat) (lits ++ [list_to_map [i 1 1; i 2 1]])
  = Ok (false, value, lits ++ [list_to_map [i 1 1; i 2 1]]).
Proof. repeat split; vm_compute; reflexivity. Qed.

Example TestJoin h :
let Join T a b := @Join test_program (Some (Basic T, a)) (Some (Basic T, b)) h in
Join Tbool (VBool false) (VBool false) = Ok (VBool false, h)
∧ Join Tbool (VBool false) (VBool true) = Ok (VBool true, h)
∧ Join Tbool (VBool true) (VBool false) = Ok (VBool true, h)
∧ Join Tbool (VBool true) (VBool true) = Ok (VBool true, h)
∧ (∀ T, T ∈ [Tint; Tint8; Tint16; Tint32; Tint64; Tuint; Tuint8; Tuint16; Tuint32; Tuint64] →
     Join T (VInt 0) (VInt 1) = Ok (VInt 1, h) ∧ Join T (VInt 1) (VInt 0) = Ok (VInt 1, h))
∧ (∀ T, T ∈ [Tfloat32; Tfloat64] →
     let f0 := VFloat (S754_zero false) in
     let f1 := VFloat (S754_finite false 1 0) in
     Join T f0 f1 = Ok (f1, h) ∧ Join T f1 f0 = Ok (f1, h))
∧ Join Tstring (VString "foo") (VString "bar") = Ok (VString "foo", h)
∧ Join Tstring (VString "bar") (VString "foo") = Ok (VString "foo", h).
Proof.
repeat split; try reflexivity;
  repeat match goal with
  | H : _ ∈ _ :: _ |- _ => apply elem_of_cons in H as [->|H]
  | H : _ ∈ [] |- _ => by apply elem_of_nil in H
  end; reflexivity.
Qed.
End tests.

(** ** The entry points and the scalar strategy *)

Section entry_points.
Context {P : program}.

Lemma Merge_addr t a b h :
  Merge (addr t a) (Some (t, b)) h = merge t a b h.
Proof. unfold Merge, addr. simpl. by rewrite type_eqb_refl. Qed.

Lemma Join_same t a b h :
  Join (Some (t, a)) (Some (t, b)) h = join t a b h.
Proof. unfold Join. by rewrite type_eqb_refl. Qed.

Lemma merge_Basic T a b h :
  merge (Basic T) a b h
  = if isOrdered (basic_Kind T)
    then g ← greater (Basic T, b) (Basic T, a);
         if g : bool then Ok (true, b, h) else Ok (false, a, h)
    else Panic ("don't know how to merge type " ++ type_String (Basic T)).
Proof. reflexivity. Qed.


(** C6.  When the pointer type of a defined type has a Merge method, both
    [merge] and [Merge] are that method applied to the target and to the
    source under its dynamic type, whatever the underlying type is:
    struct, map or scalar. *)
Theorem custom_Merge_is_exclusive n u m a b h :
  methods n = Some m →
  merge (Named n u) a b h = m a (Named n u, b) h
  ∧ Merge (addr (Named n u) a) (Some (Named n u, b)) h
    = m a (Named n u, b) h.
Proof.
  intros Hm. rewrite Merge_addr. unfold merge, with_Merger. simpl.
  by rewrite Hm.
Qed.

(** C8.  [Merge] panics when its first argument is no pointer, [Merge] and
    [Join] panic when the two types differ; a panic returns no value and
    no heap. *)
Theorem precondition_violations_panic (A B : type) (aVal bVal : data) b h :
  (Kind A ≠ reflect.Ptr →
     Merge (Some (A, aVal)) b h = Panic "a must be a pointer")
  ∧ Merge None b h = Panic "a must be a pointer"
  ∧ (A ≠ B →
     Merge (addr A aVal) (Some (B, bVal)) h
     = Panic "a and &b must be the same type")
  ∧ (A ≠ B →
     Join (Some (A, aVal)) (Some (B, bVal)) h
     = Panic "a and b must be the same type").
Proof.
  repeat split.
  - intros Hk. unfold Merge. by rewrite bool_decide_eq_false_2.
  - intros Hne. unfold Merge, addr. simpl. by rewrite type_eqb_neq.
  - intros Hne. unfold Join. by rewrite type_eqb_neq.
Qed.
End entry_points.

(** [decreasingInt] is an [int] underneath, but its Merge method decides:
    [Merge(&3, 5)] leaves 3 and [Merge(&3, 1)] sets 1. *)
Example decreasingInt_keeps_the_minimum h :
  @Merge test_program (addr decreasingInt (VInt 3)) (Some (decreasingInt, VInt 5)) h
  = Ok (false, VInt 3, h)
  ∧ @Merge test_program (addr decreasingInt (VInt 3)) (Some (decreasingInt, VInt 1)) h
    = Ok (true, VInt 1, h).
Proof. split; reflexivity. Qed.

(** A defined type over an ordered scalar, such as [type MyInt int], passes
    [isOrdered] but has no case in the type switch of [greater]: without a
    Merge method of its own it cannot be merged. *)
Example defined_scalar_panics h :
  @Merge plain_program (addr (Named "MyInt" (Basic Tint)) (VInt 0))
    (Some (Named "MyInt" (Basic Tint), VInt 1)) h
  = Panic "don't know how to handle type: MyInt".
Proof. reflexivity. Qed.

(** The two zeros of the floats are equal for [>]: neither replaces the
    other. *)
Example signed_zeros_do_not_replace_each_other h :
  let pos := VFloat (S754_zero false) in
  let neg := VFloat (S754_zero true) in
  @Merge plain_program (addr (Basic Tfloat64) pos) (Some (Basic Tfloat64, neg)) h
  = Ok (false, pos, h)
  ∧ @Merge plain_program (addr (Basic Tfloat64) neg) (Some (Basic Tfloat64, pos)) h
    = Ok (false, neg, h).
Proof. split; reflexivity. Qed.

(** A NaN is never greater and nothing is greater than it: it neither
    replaces a value nor is replaced. *)
Example NaN_is_inert h :
  let one := VFloat (S754_finite false 1 0) in
  @Merge plain_program (addr (Basic Tfloat64) one) (Some (Basic Tfloat64, VFloat S754_nan)) h
  = Ok (false, one, h)
  ∧ @Merge plain_program (addr (Basic Tfloat64) (VFloat S754_nan)) (Some (Basic Tfloat64, one)) h
    = Ok (false, VFloat S754_nan, h).
Proof. split; reflexivity. Qed.


(** The Merge method of [decreasingInt] at [Merge(&3, 1)]. *)
Lemma custom_Merge_is_exclusive_witness :
  @merge test_program decreasingInt (VInt 3) (VInt 1) []
  = decreasingInt_Merge (VInt 3) (decreasingInt, VInt 1) []
  ∧ @Merge test_program (addr decreasingInt (VInt 3))
      (Some (decreasingInt, VInt 1)) []
    = decreasingInt_Merge (VInt 3) (decreasingInt, VInt 1) [].
Proof.
  apply (custom_Merge_is_exclusive (P := test_program) "decreasingInt").
  reflexivity.
Defined.

(** [Merge(3, 5)], [Merge(&x, "s")] and [Join(3, "s")]. *)
Lemma precondition_violations_panic_witness :
  @Merge plain_program (Some (Basic Tint, VInt 3)) (Some (Basic Tint, VInt 5)) []
  = Panic "a must be a pointer"
  ∧ @Merge plain_program (addr (Basic Tint) (VInt 3)) (Some (Basic Tstring, VString "s")) []
    = Panic "a and &b must be the same type"
  ∧ @Join plain_program (Some (Basic Tint, VInt 3)) (Some (Basic Tstring, VString "s")) []
    = Panic "a and b must be the same type".
Proof.
  destruct (precondition_violations_panic (P := plain_program)
    (Basic Tint) (Basic Tstring) (VInt 3) (VString "s")
    (Some (Basic Tint, VInt 5)) []) as (H1 & _ & H2 & H3).
  split; [apply H1; simpl; congruence|].
  split; [apply H2; congruence|apply H3; congruence].
Defined.

(** ** The zero value is not below the negative numbers *)

Section below_zero.
Local Open Scope Z_scope.

(** C1.  [Join(int(-1), int(0))] and [Join(int(0), int(-1))] are [0], not
    [-1]: merging [-1] into the zero value changes nothing, because
    [greater] compares the integers numerically. *)
Theorem Join_with_zero_loses_negative `{P : program} h :
  Join (Some (Basic Tint, VInt (-1))) (Some (Basic Tint, zero (Basic Tint))) h
  = Ok (VInt 0, h)
  ∧ Join (Some (Basic Tint, zero (Basic Tint))) (Some (Basic Tint, VInt (-1))) h
    = Ok (VInt 0, h).
Proof. split; reflexivity. Qed.

(** C3.  [Join({1: -5}, {1: -3})] is a new map [{1: -5}] and
    [Join({1: -3}, {1: -5})] a new map [{1: -3}]: on the shared key the
    scratch value stays at zero, no change is seen and the entry copied
    from the first argument is kept. *)
Theorem Join_of_negative_entries_is_not_commutative :
  let a := Some (int_map, VMap (Some 0%nat)) in
  let b := Some (int_map, VMap (Some 1%nat)) in
  @Join plain_program a b neg_heap
  = Ok (VMap (Some 2%nat), neg_heap ++ [ {[ KInt 1 := VInt (-5) ]} ])
  ∧ @Join plain_program b a neg_heap
    = Ok (VMap (Some 2%nat), neg_heap ++ [ {[ KInt 1 := VInt (-3) ]} ])
  ∧ ¬ deep_rel true
        (neg_heap ++ [ {[ KInt 1 := VInt (-5) ]} ])
        (neg_heap ++ [ {[ KInt 1 := VInt (-3) ]} ])
        int_map (VMap (Some 2%nat)) (VMap (Some 2%nat)).
Proof.
  repeat split; try (vm_compute; reflexivity).
  intros (_ & m1 & m2 & H1 & H2 & H). simpl in H1, H2.
  injection H1 as <-. injection H2 as <-.
  specialize (H (KInt 1)). rewrite !lookup_singleton_eq in H.
  simpl in H. discriminate.
Qed.

(** C5.  [Merge(&{1: -5}, {1: -3})] reports no change and leaves the entry
    at [-5], although [Join(-5, -3)] is [0] and [Merge(&-5, -3)], the same
    merge outside a map, sets the target to [-3]. *)
Theorem map_Merge_keeps_entry_below_the_join :
  @Merge plain_program (addr int_map (VMap (Some 0%nat)))
    (Some (int_map, VMap (Some 1%nat))) neg_heap
  = Ok (false, VMap (Some 0%nat), neg_heap)
  ∧ @Join plain_program (Some (Basic Tint, VInt (-5))) (Some (Basic Tint, VInt (-3))) neg_heap
    = Ok (VInt 0, neg_heap)
  ∧ @Merge plain_program (addr (Basic Tint) (VInt (-5)))
      (Some (Basic Tint, VInt (-3))) neg_heap
    = Ok (true, VInt (-3), neg_heap).
Proof. repeat split; vm_compute; reflexivity. Qed.

(** The second half of C5: merging [{1: 1}] into [{1: 0}] gives [{1: 1}]
    and reports a change, merging it again reports none. *)
Example map_Merge_update_in_place :
  let h : heap := [ {[ KInt 1 := VInt 0 ]}; {[ KInt 1 := VInt 1 ]} ] in
  let h' : heap := [ {[ KInt 1 := VInt 1 ]}; {[ KInt 1 := VInt 1 ]} ] in
  @Merge plain_program (addr int_map (VMap (Some 0%nat)))
    (Some (int_map, VMap (Some 1%nat))) h = Ok (true, VMap (Some 0%nat), h')
  ∧ @Merge plain_program (addr int_map (VMap (Some 0%nat)))
      (Some (int_map, VMap (Some 1%nat))) h' = Ok (false, VMap (Some 0%nat), h').
Proof. split; vm_compute; reflexivity. Qed.
End below_zero.

(** ** The nil map *)


Section nil_map.
Context {P : program} (MapKeys_ok : MapKeys_spec P).

Lemma MapKeys_empty : MapKeys ∅ = [].
Proof.
  destruct (MapKeys ∅) as [|k ks] eqn:E; [done|].
  destruct (MapKeys_ok ∅) as [_ H]. specialize (H k).
  rewrite E, lookup_empty in H. destruct H as [H _].
  destruct H as [? ?]; [left|done].
Qed.

(** C10.  For a map type without a Merge method, merging a non-nil empty
    map into a nil target allocates a new map object, empty, makes the
    target refer to it, and returns false. *)
Theorem nil_target_is_instantiated_unreported t kt et lb h :
  as_Merger t = None → underlying t = MapOf kt et →
  h !! lb = Some ∅ →
  Merge (addr t (VMap None)) (Some (t, VMap (Some lb))) h
  = Ok (false, VMap (Some (length h)), h ++ [∅])
  ∧ h !! length h = None
  ∧ (h ++ [∅]) !! length h = Some ∅.
Proof.
  intros Hm Hu Hlb. split; [|split].
  - rewrite Merge_addr. unfold merge, with_Merger. rewrite Hm.
    rewrite dispatch_underlying, Hu. simpl. unfold merge_map. simpl.
    rewrite (lookup_app_l_Some _ _ _ _ Hlb), MapKeys_empty. reflexivity.
  - by apply lookup_ge_None_2.
  - rewrite lookup_app_r by done. by rewrite Nat.sub_diag.
Qed.
End nil_map.

(** C10 on the first call of [TestMergeMap]. *)
Lemma nil_target_is_instantiated_unreported_witness :
  @Merge plain_program (addr A_map (VMap None)) (Some (A_map, VMap (Some 0))) [∅]
  = Ok (false, VMap (Some 1), [∅; ∅])
  ∧ ([∅] : heap) !! 1 = None
  ∧ ([∅; ∅] : heap) !! 1 = Some ∅.
Proof.
  apply (nil_target_is_instantiated_unreported (P := plain_program)
           (sorted_keys_spec plain_program eq_refl)
           A_map (Basic Tint) (Basic Tint) 0 [∅]); reflexivity.
Defined.

(** ** Mergeable types *)

Section mergeable_types.
Context {P : program}.

(** The struct and the map of the tests are mergeable; [decreasingInt],
    which has a Merge method, and a defined scalar type are not. *)
Example mergeable_test_types :
  @mergeable test_program A_struct = true
  ∧ @mergeable test_program A_map = true
  ∧ @mergeable test_program decreasingInt = false
  ∧ @mergeable plain_program (Named "MyInt" (Basic Tint)) = false.
Proof. repeat split. Qed.

Lemma merge_StructOf fs xs ys h :
  merge (StructOf fs) (VStruct xs) (VStruct ys) h
  = '(changed, xs', h') ← merge_fields merge fs xs ys h; Ok (changed, VStruct xs', h').
Proof. reflexivity. Qed.

Lemma merge_MapOf kt et ra rb h :
  merge (MapOf kt et) (VMap ra) (VMap rb) h = merge_map merge et ra rb h.
Proof. reflexivity. Qed.

(** Only the scalar strategy looks at the type itself. *)
Lemma dispatch_through_name T T' u a b h :
  strategy true u = true → dispatch T u a b h = dispatch T' u a b h.
Proof. induction u using type_ind'; simpl; done. Qed.

Lemma underlying_not_Named t n u : underlying t ≠ Named n u.
Proof. induction t; simpl; congruence. Qed.

Lemma as_Merger_underlying t : as_Merger (underlying t) = None.
Proof.
  destruct (underlying t) eqn:E; try done. by apply underlying_not_Named in E.
Qed.

Lemma strategy_underlying named t :
  strategy named t = true → strategy false (underlying t) = true.
Proof.
  revert named. induction t using type_ind'; intros named Hs; simpl in *;
    try done.
  - by apply andb_true_iff in Hs as [_ Hs].
  - eauto.
Qed.

Lemma mergeable_underlying t : mergeable t = true → mergeable (underlying t) = true.
Proof.
  unfold mergeable, no_Merger. rewrite as_Merger_underlying. simpl.
  destruct (as_Merger t); [done|]. simpl. apply strategy_underlying.
Qed.

Lemma merge_underlying t a b h :
  mergeable t = true → merge t a b h = merge (underlying t) a b h.
Proof.
  unfold mergeable, no_Merger, merge, with_Merger.
  rewrite as_Merger_underlying.
  destruct (as_Merger t) eqn:Hm; [done|]. simpl. intros Hs.
  destruct t; try done. simpl in *.
  rewrite dispatch_underlying.
  apply dispatch_through_name.
  clear -Hs. induction t using type_ind'; simpl in *; try done. auto.
Qed.

Lemma zero_underlying t : zero t = zero (underlying t).
Proof. induction t; simpl; auto. Qed.

Lemma has_type_underlying Σ t d : has_type Σ t d = has_type Σ (underlying t) d.
Proof. induction t; simpl; auto. Qed.

Lemma deep_rel_underlying s h1 h2 t d1 d2 :
  deep_rel s h1 h2 t d1 d2 = deep_rel s h1 h2 (underlying t) d1 d2.
Proof. induction t; simpl; auto. Qed.

(** Induction over the mergeable types; a property that only looks at a
    type through [merge], [zero], [has_type] and [deep_rel] passes from the
    underlying type to the defined one. *)
Lemma mergeable_ind (Q : type → Prop) :
  (∀ T, isOrdered (basic_Kind T) = true → Q (Basic T)) →
  (∀ fs,
     Forall (λ f : field, field_PkgPath f = "" ∧ mergeable (field_Type f) = true
                          ∧ Q (field_Type f)) fs →
     Q (StructOf fs)) →
  (∀ kt et, mergeable et = true → Q et → Q (MapOf kt et)) →
  (∀ t, mergeable t = true → Q (underlying t) → Q t) →
  ∀ t, mergeable t = true → Q t.
Proof.
  intros HB HS HM HN.
  assert (Hu : ∀ t named, strategy named t = true → Q (underlying t)).
  { induction t as [T|fs IH|kt et _ IHe|et _|et _|n u IH] using type_ind';
      intros named Hs; simpl in *; try discriminate.
    - apply andb_true_iff in Hs as [_ Hs]. by apply HB.
    - apply HS. rewrite forallb_forall in Hs.
      rewrite Forall_forall in IH. apply Forall_forall. intros f Hf.
      specialize (Hs f (proj1 (list_elem_of_In _ _) Hf)).
      apply andb_true_iff in Hs as [Hs Hst].
      apply andb_true_iff in Hs as [Hpkg Hnm].
      apply String.eqb_eq in Hpkg.
      assert (Hmf : mergeable (field_Type f) = true).
      { unfold mergeable. by rewrite Hnm, Hst. }
      split; [done|]. split; [done|].
      apply HN; [done|]. by apply (IH f Hf false).
    - apply andb_true_iff in Hs as [Hnm Hst].
      assert (Hme : mergeable et = true).
      { unfold mergeable. by rewrite Hnm, Hst. }
      apply HM; [done|]. apply HN; [done|]. by apply (IHe false).
    - eauto. }
  intros t Ht. apply HN; [done|].
  unfold mergeable in Ht. apply andb_true_iff in Ht as [_ Hs]. eauto.
Qed.
End mergeable_types.

(** ** Merging into a nil map copies the source *)

Section copy.
Context {P : program} (MapKeys_ok : MapKeys_spec P).

Lemma SetMapIndex_last h0 m k v :
  SetMapIndex (length h0) k v (h0 ++ [m]) = h0 ++ [<[k := v]> m].
Proof.
  unfold SetMapIndex. rewrite lookup_app_r, Nat.sub_diag by done. simpl.
  rewrite insert_app_r_alt, Nat.sub_diag by done. done.
Qed.

(** The loop of the map strategy when the target is the object just made:
    every key is new to it, so every element of the source is stored as it
    is and [merge] is never called. *)
Lemma merge_keys_copy rec et la ma h0 keys : ∀ m changed,
  h0 !! la = Some ma → NoDup keys →
  (∀ k, k ∈ keys → m !! k = None ∧ is_Some (ma !! k)) →
  ∃ m', merge_keys rec et (length h0) la keys changed (h0 ++ [m])
        = Ok (changed || negb (bool_decide (keys = [])), h0 ++ [m'])
    ∧ ∀ k, m' !! k = if decide (k ∈ keys) then ma !! k else m !! k.
Proof.
  induction keys as [|key keys IH]; intros m changed Hla Hnd Hkeys.
  - exists m. split; [simpl; by rewrite orb_false_r|].
    intros k. rewrite decide_False; [done|]. apply not_elem_of_nil.
  - apply NoDup_cons in Hnd as [Hnotin Hnd].
    destruct (Hkeys key) as [Hnone [v Hv]]; [apply list_elem_of_here|].
    simpl. rewrite lookup_app_r, Nat.sub_diag by done. simpl.
    rewrite (lookup_app_l_Some _ _ _ _ Hla), Hv, Hnone.
    rewrite SetMapIndex_last.
    destruct (IH (<[key := v]> m) true Hla Hnd) as (m' & Hm' & Hlook).
    { intros k Hk. split.
      - rewrite lookup_insert_ne by (intros ->; done).
        apply Hkeys. by apply list_elem_of_further.
      - apply Hkeys. by apply list_elem_of_further. }
    exists m'. rewrite Hm'. split.
    { rewrite orb_true_r. done. }
    intros k. rewrite Hlook.
    destruct (decide (k = key)) as [->|Hne].
    + rewrite decide_False by done. rewrite decide_True by apply list_elem_of_here.
      by rewrite lookup_insert_eq.
    + rewrite lookup_insert_ne by done.
      destruct (decide (k ∈ keys)) as [Hin|Hnin].
      * rewrite decide_True by (by apply list_elem_of_further). done.
      * rewrite decide_False; [done|].
        intros Hin. apply elem_of_cons in Hin as [?|?]; done.
Qed.

Lemma MapKeys_nil (m : mapobj) : MapKeys m = [] ↔ m = ∅.
Proof.
  destruct (MapKeys_ok m) as [_ Hk]. split.
  - intros Hnil. apply map_eq. intros k. rewrite lookup_empty.
    destruct (m !! k) eqn:E; [|done].
    assert (k ∈ MapKeys m) as Hin by (apply Hk; eauto).
    rewrite Hnil in Hin. by apply elem_of_nil in Hin.
  - intros ->. by apply MapKeys_empty.
Qed.

(** [Merge(&m, b)] on a nil [m] and a map [b]: [m] becomes a new object
    with the elements of [b]; a change is reported unless [b] is empty. *)
Lemma merge_map_copy rec et la ma h :
  h !! la = Some ma →
  merge_map rec et None (Some la) h
  = Ok (negb (bool_decide (ma = ∅)), VMap (Some (length h)), h ++ [ma]).
Proof.
  intros Hla. unfold merge_map. simpl.
  rewrite (lookup_app_l_Some _ _ _ _ Hla).
  destruct (MapKeys_ok ma) as [Hnd Hk].
  destruct (merge_keys_copy rec et la ma h (MapKeys ma) ∅ false Hla Hnd)
    as (m' & -> & Hm').
  { intros k Hin. split; [apply lookup_empty|]. by apply Hk. }
  simpl. repeat f_equal.
  - apply bool_decide_ext. apply MapKeys_nil.
  - apply map_eq. intros k. rewrite Hm'. case_decide as Hin; [done|].
    rewrite lookup_empty. destruct (ma !! k) eqn:E; [|done].
    destruct Hin. apply Hk. eauto.
Qed.
End copy.

(** ** Well-typed merges return *)

Lemma fields_all_impl {A} (P Q : type → A → Prop) fs ds :
  Forall (λ f : field, ∀ d, P (field_Type f) d → Q (field_Type f) d) fs →
  fields_all P fs ds → fields_all Q fs ds.
Proof.
  intros HF. revert ds. induction HF as [|f fs Hf _ IH]; intros [|d ds]; simpl; try done.
  intros [? ?]. split; auto.
Qed.

Lemma has_type_weaken Σ Σ' t d :
  Σ `prefix_of` Σ' → has_type Σ t d → has_type Σ' t d.
Proof.
  intros Hpre. revert d.
  induction t as [T|fs IH|kt et _ _|et _|et _|n u IH] using type_ind';
    intros d; simpl; try done.
  - destruct d; try done. by apply fields_all_impl.
  - destruct d as [| | | | | |[l|]| |]; try done.
    intros Hl. by eapply prefix_lookup_Some.
  - auto.
Qed.

Lemma zero_typed Σ t : has_type Σ t (zero t).
Proof.
  induction t as [T|fs IH|kt et _ _|et _|et _|n u IH] using type_ind'; simpl; try done.
  - destruct T; simpl; try done; lia.
  - induction IH as [|f fs Hf _ IHfs]; simpl; [done|]. by split.
Qed.

Lemma heap_ok_lookup Σ h l et :
  heap_ok Σ h → Σ !! l = Some et → ∃ m, h !! l = Some m.
Proof.
  intros [Hlen _] Hl. apply lookup_lt_is_Some. rewrite <- Hlen.
  by eapply lookup_lt_Some.
Qed.

Lemma heap_ok_alloc Σ h et : heap_ok Σ h → heap_ok (Σ ++ [et]) (h ++ [∅]).
Proof.
  intros [Hlen Hok]. split; [by rewrite !length_app, Hlen|].
  intros l et' m k v HΣ Hh Hm.
  destruct (decide (l < length h)) as [Hlt|Hge].
  - rewrite lookup_app_l in HΣ by lia. rewrite lookup_app_l in Hh by lia.
    eapply has_type_weaken; [by apply prefix_app_r|]. eauto.
  - rewrite lookup_app_r in Hh by lia.
    destruct (l - length h) as [|i]; simpl in Hh; [|by destruct i].
    injection Hh as <-. by rewrite lookup_empty in Hm.
Qed.

Lemma heap_ok_SetMapIndex Σ h l et k v :
  heap_ok Σ h → Σ !! l = Some et → has_type Σ et v →
  heap_ok Σ (SetMapIndex l k v h).
Proof.
  intros [Hlen Hok] HΣ Hv. unfold SetMapIndex.
  destruct (h !! l) as [m|] eqn:Hl; [|done].
  split; [by rewrite length_insert|].
  intros l' et' m' k' v' HΣ' Hh Hm.
  destruct (decide (l' = l)) as [->|Hne].
  - rewrite list_lookup_insert_eq in Hh by (by eapply lookup_lt_Some).
    injection Hh as <-. rewrite HΣ in HΣ'. injection HΣ' as <-.
    destruct (decide (k' = k)) as [->|Hk].
    + rewrite lookup_insert_eq in Hm. by injection Hm as <-.
    + rewrite lookup_insert_ne in Hm by done. eauto.
  - rewrite list_lookup_insert_ne in Hh by done. eauto.
Qed.

Lemma heap_grows_refl h : heap_grows h h.
Proof. intros l m k Hl Hk. eauto. Qed.

Lemma heap_grows_trans h1 h2 h3 :
  heap_grows h1 h2 → heap_grows h2 h3 → heap_grows h1 h3.
Proof.
  intros H12 H23 l m k Hl Hk.
  destruct (H12 l m k Hl Hk) as (m' & Hl' & Hk'). eauto.
Qed.

Lemma heap_grows_alloc h m : heap_grows h (h ++ [m]).
Proof.
  intros l m' k Hl Hk. exists m'. split; [|done]. by apply lookup_app_l_Some.
Qed.

Lemma heap_grows_SetMapIndex h l k v : heap_grows h (SetMapIndex l k v h).
Proof.
  intros l' m k' Hl Hk. unfold SetMapIndex.
  destruct (h !! l) as [ml|] eqn:El; [|eauto].
  destruct (decide (l' = l)) as [->|Hne].
  - rewrite list_lookup_insert_eq by (by eapply lookup_lt_Some).
    eexists. split; [done|]. rewrite El in Hl. injection Hl as ->.
    destruct (decide (k' = k)) as [->|Hne].
    + rewrite lookup_insert_eq. eauto.
    + by rewrite lookup_insert_ne.
  - rewrite list_lookup_insert_ne by done. eauto.
Qed.

Section totality.
Context {P : program} (MapKeys_ok : MapKeys_spec P).

Lemma merge_fields_total fs :
  Forall (λ f : field, field_PkgPath f = "" ∧ mergeable (field_Type f) = true ∧
    ∀ Σ h a b, heap_ok Σ h → has_type Σ (field_Type f) a → has_type Σ (field_Type f) b →
      ∃ c a' h' Σ', merge (field_Type f) a b h = Ok (c, a', h') ∧ Σ `prefix_of` Σ'
        ∧ heap_ok Σ' h' ∧ has_type Σ' (field_Type f) a' ∧ heap_grows h h') fs →
  ∀ Σ h xs ys, heap_ok Σ h →
    fields_all (has_type Σ) fs xs → fields_all (has_type Σ) fs ys →
    ∃ c xs' h' Σ', merge_fields merge fs xs ys h = Ok (c, xs', h') ∧ Σ `prefix_of` Σ'
      ∧ heap_ok Σ' h' ∧ fields_all (has_type Σ') fs xs' ∧ heap_grows h h'.
Proof.
  induction 1 as [|f fs (Hpkg & _ & Hf) _ IH]; intros Σ h xs ys Hok Hxs Hys.
  - destruct xs, ys; try done. simpl. exists false, [], h, Σ.
    split_and!; try done. apply heap_grows_refl.
  - destruct xs as [|x xs], ys as [|y ys]; try done. simpl in *.
    destruct Hxs as [Hx Hxs], Hys as [Hy Hys].
    rewrite Hpkg. simpl.
    destruct (Hf Σ h x y Hok Hx Hy) as (c & x' & h1 & Σ1 & -> & Hpre1 & Hok1 & Hx' & Hg1).
    simpl.
    destruct (IH Σ1 h1 xs ys Hok1) as (cs & xs' & h2 & Σ2 & -> & Hpre2 & Hok2 & Hxs' & Hg2).
    { eapply fields_all_impl; [|exact Hxs]. apply Forall_forall.
      intros ????. by eapply has_type_weaken. }
    { eapply fields_all_impl; [|exact Hys]. apply Forall_forall.
      intros ????. by eapply has_type_weaken. }
    simpl. exists (c || cs), (x' :: xs'), h2, Σ2. split_and!; try done.
    + by etrans.
    + by eapply has_type_weaken.
    + by eapply heap_grows_trans.
Qed.

Lemma merge_keys_total et la lb :
  (∀ Σ h a b, heap_ok Σ h → has_type Σ et a → has_type Σ et b →
     ∃ c a' h' Σ', merge et a b h = Ok (c, a', h') ∧ Σ `prefix_of` Σ'
       ∧ heap_ok Σ' h' ∧ has_type Σ' et a' ∧ heap_grows h h') →
  ∀ keys changed Σ h, heap_ok Σ h → Σ !! la = Some et → Σ !! lb = Some et →
    (∀ k, k ∈ keys → ∃ mb, h !! lb = Some mb ∧ is_Some (mb !! k)) →
    ∃ c h' Σ', merge_keys merge et la lb keys changed h = Ok (c, h') ∧ Σ `prefix_of` Σ'
      ∧ heap_ok Σ' h' ∧ heap_grows h h'.
Proof.
  intros Het. induction keys as [|key keys IH]; intros changed Σ h Hok Hla Hlb Hkeys.
  - exists changed, h, Σ. split_and!; try done. apply heap_grows_refl.
  - simpl.
    destruct (heap_ok_lookup _ _ _ _ Hok Hla) as [ma Hma].
    destruct (Hkeys key) as (mb & Hmb & bValue & HbValue); [apply list_elem_of_here|].
    rewrite Hma, Hmb, HbValue.
    assert (Hb : has_type Σ et bValue) by (destruct Hok as [_ Hok]; eauto).
    assert (Hrest : ∀ h' , heap_grows h h' →
      ∀ k, k ∈ keys → ∃ mb, h' !! lb = Some mb ∧ is_Some (mb !! k)).
    { intros h' Hg k Hk.
      destruct (Hkeys k) as (mb' & Hmb' & Hk'); [by apply list_elem_of_further|].
      rewrite Hmb in Hmb'. injection Hmb' as <-. eauto. }
    destruct (ma !! key) as [aValue|] eqn:HaValue.
    + assert (Ha : has_type Σ et aValue) by (destruct Hok as [_ Hok]; eauto).
      destruct (Het Σ h (zero et) aValue Hok (zero_typed _ _) Ha)
        as (c1 & n1 & h1 & Σ1 & -> & Hpre1 & Hok1 & Hn1 & Hg1).
      simpl.
      destruct (Het Σ1 h1 n1 bValue Hok1 Hn1)
        as (c2 & n2 & h2 & Σ2 & -> & Hpre2 & Hok2 & Hn2 & Hg2).
      { by eapply has_type_weaken. }
      simpl.
      assert (HΣ2 : ∀ l, Σ !! l = Some et → Σ2 !! l = Some et).
      { intros l Hl. eapply prefix_lookup_Some; [|done].
        by eapply prefix_lookup_Some. }
      destruct c2.
      * destruct (IH true Σ2 (SetMapIndex la key n2 h2)) as (c & h' & Σ' & -> & ? & ? & ?);
          auto.
        { eapply heap_ok_SetMapIndex; eauto. }
        { apply Hrest. eapply heap_grows_trans; [done|].
          eapply heap_grows_trans; [done|]. apply heap_grows_SetMapIndex. }
        exists c, h', Σ'. split_and!; try done.
        -- etrans; [done|]. by etrans.
        -- eapply heap_grows_trans; [done|]. eapply heap_grows_trans; [done|].
           eapply heap_grows_trans; [|done]. apply heap_grows_SetMapIndex.
      * destruct (IH changed Σ2 h2) as (c & h' & Σ' & -> & ? & ? & ?); auto.
        { apply Hrest. by eapply heap_grows_trans. }
        exists c, h', Σ'. split_and!; try done.
        -- etrans; [done|]. by etrans.
        -- eapply heap_grows_trans; [done|]. by eapply heap_grows_trans.
    + destruct (IH true Σ (SetMapIndex la key bValue h)) as (c & h' & Σ' & -> & ? & ? & ?);
        auto.
      { eapply heap_ok_SetMapIndex; eauto. }
      { apply Hrest. apply heap_grows_SetMapIndex. }
      exists c, h', Σ'. split_and!; try done.
      eapply heap_grows_trans; [|done]. apply heap_grows_SetMapIndex.
Qed.

(** On a mergeable type, well-typed arguments and a well-typed heap, [merge]
    returns; the target and the heap stay well-typed, under a heap typing
    that extends the old one. *)
Lemma merge_total t :
  mergeable t = true →
  ∀ Σ h a b, heap_ok Σ h → has_type Σ t a → has_type Σ t b →
    ∃ c a' h' Σ', merge t a b h = Ok (c, a', h') ∧ Σ `prefix_of` Σ'
      ∧ heap_ok Σ' h' ∧ has_type Σ' t a' ∧ heap_grows h h'.
Proof.
  revert t. apply (mergeable_ind (λ t, ∀ Σ h a b, heap_ok Σ h →
    has_type Σ t a → has_type Σ t b →
    ∃ c a' h' Σ', merge t a b h = Ok (c, a', h') ∧ Σ `prefix_of` Σ'
      ∧ heap_ok Σ' h' ∧ has_type Σ' t a' ∧ heap_grows h h')).
  - intros T Ho Σ h a b Hok Ha Hb. rewrite merge_Basic, Ho.
    destruct (greater_natural T a b Ho Ha Hb) as (g & -> & _). simpl.
    destruct g; eexists _, _, h, Σ; split_and!; try done; apply heap_grows_refl.
  - intros fs Hfs Σ h a b Hok Ha Hb.
    destruct a as [| | | | |xs| | |]; try done. destruct b as [| | | | |ys| | |]; try done.
    rewrite merge_StructOf.
    destruct (merge_fields_total fs Hfs Σ h xs ys Hok Ha Hb)
      as (c & xs' & h' & Σ' & -> & ? & ? & ? & ?).
    simpl. by exists c, (VStruct xs'), h', Σ'.
  - intros kt et Hme Het Σ h a b Hok Ha Hb.
    destruct a as [| | | | | |ra| |]; try done. destruct b as [| | | | | |rb| |]; try done.
    rewrite merge_MapOf.
    destruct rb as [lb|]; cycle 1.
    { unfold merge_map. destruct ra; simpl; eexists false, _, h, Σ;
        split_and!; try done; apply heap_grows_refl. }
    simpl in Hb. destruct (heap_ok_lookup _ _ _ _ Hok Hb) as [mb Hmb].
    destruct ra as [la|].
    + simpl in Ha. unfold merge_map. rewrite Hmb.
      destruct (merge_keys_total et la lb Het (MapKeys mb) false Σ h Hok Ha Hb)
        as (c & h' & Σ' & -> & Hpre & Hok' & Hg).
      { intros k Hk. exists mb. split; [done|]. by apply MapKeys_ok. }
      simpl. exists c, (VMap (Some la)), h', Σ'. split_and!; try done.
      simpl. by eapply prefix_lookup_Some.
    + rewrite (merge_map_copy MapKeys_ok _ _ _ _ _ Hmb).
      destruct Hok as [Hlen Hok].
      eexists _, _, _, (Σ ++ [et]). split; [done|].
      split; [by apply prefix_app_r|]. split; [|split].
      * split; [by rewrite !length_app, Hlen|].
        intros l et' m k v HΣ Hh Hm.
        eapply has_type_weaken; [by apply prefix_app_r|].
        destruct (decide (l < length h)) as [Hlt|Hge].
        -- rewrite lookup_app_l in HΣ by lia. rewrite lookup_app_l in Hh by lia. eauto.
        -- rewrite lookup_app_r in Hh by lia. rewrite lookup_app_r in HΣ by lia.
           rewrite Hlen in HΣ.
           destruct (l - length h) as [|i]; simpl in Hh, HΣ; [|by destruct i].
           injection Hh as <-. injection HΣ as <-. eauto.
      * simpl. rewrite lookup_app_r by lia. by rewrite Hlen, Nat.sub_diag.
      * apply heap_grows_alloc.
  - intros t Ht IH Σ h a b Hok Ha Hb.
    rewrite merge_underlying by done.
    rewrite has_type_underlying in Ha, Hb.
    destruct (IH Σ h a b Hok Ha Hb) as (c & a' & h' & Σ' & -> & ? & ? & ? & ?).
    exists c, a', h', Σ'. split_and!; try done. by rewrite has_type_underlying.
Qed.
End totality.

(** ** Which map objects a merge writes to *)

Lemma writes_within_refl h W : writes_within h W h.
Proof. split; auto. Qed.

Lemma writes_within_trans h W h1 W1 h2 :
  writes_within h W h1 → writes_within h1 W1 h2 →
  (∀ l, l ∈ W1 → l ∈ W ∨ length h ≤ l) →
  writes_within h W h2.
Proof.
  intros [Hlen1 H1] [Hlen2 H2] HW. split; [lia|].
  intros l Hl HnW. rewrite H2, H1; try done; try lia.
  intros HW1. destruct (HW l HW1); [done|lia].
Qed.

Lemma writes_within_weaken h W W' h' :
  writes_within h W h' → (∀ l, l ∈ W → l ∈ W') → writes_within h W' h'.
Proof. intros [Hlen H] HW. split; [done|]. intros l Hl HnW. apply H; auto. Qed.

Lemma writes_within_alloc h m W : writes_within h W (h ++ [m]).
Proof.
  split; [rewrite length_app; lia|]. intros l Hl _. by rewrite lookup_app_l.
Qed.

Lemma writes_within_SetMapIndex h l k v : writes_within h [l] (SetMapIndex l k v h).
Proof.
  unfold SetMapIndex. destruct (h !! l); [|apply writes_within_refl].
  split; [by rewrite length_insert|].
  intros l' _ Hne. rewrite list_lookup_insert_ne; [done|].
  intros ->. apply Hne, list_elem_of_here.
Qed.

Lemma writes_within_prefix h h' : writes_within h [] h' → h `prefix_of` h'.
Proof.
  intros [Hlen H]. exists (drop (length h) h').
  rewrite <- (take_drop (length h) h') at 1. f_equal.
  apply list_eq. intros l. destruct (decide (l < length h)) as [Hlt|Hge].
  - rewrite lookup_take_lt by done. apply H; [done|]. apply not_elem_of_nil.
  - rewrite lookup_take_ge by lia. symmetry. apply lookup_ge_None. lia.
Qed.

Lemma refs_zero t : refs (zero t) = [].
Proof.
  induction t as [T|fs IH|kt et _ _|et _|et _|n u IH] using type_ind'; simpl; try done.
  - by destruct T.
  - induction IH as [|f fs Hf _ IHfs]; simpl; [done|].
    unfold field_Type in Hf. by rewrite Hf, IHfs.
Qed.

Lemma greater_Ok_refs T a b g :
  greater (T, b) (T, a) = Ok g → refs a = [] ∧ refs b = [].
Proof.
  destruct T as [T| | | | |]; try done.
  destruct T; try done; destruct a; try done; destruct b; done.
Qed.

Section frame.
Context {P : program}.

Lemma merge_fields_frame fs :
  Forall (λ f : field, ∀ h a b c a' h',
    merge (field_Type f) a b h = Ok (c, a', h') →
    writes_within h (refs a) h' ∧ ∀ l, l ∈ refs a' → l ∈ refs a ∨ length h ≤ l) fs →
  ∀ h xs ys c xs' h',
    merge_fields merge fs xs ys h = Ok (c, xs', h') →
    writes_within h (flat_map refs xs) h'
    ∧ ∀ l, l ∈ flat_map refs xs' → l ∈ flat_map refs xs ∨ length h ≤ l.
Proof.
  induction 1 as [|f fs Hf _ IH]; intros h xs ys c xs' h' Hm.
  - destruct xs, ys; try done. injection Hm as <- <- <-.
    split; [apply writes_within_refl|]. auto.
  - destruct xs as [|x xs], ys as [|y ys]; try done. simpl in Hm.
    destruct (negb _); [done|].
    destruct (merge (field_Type f) x y h) as [[[c1 x'] h1]|] eqn:E1; [|done].
    simpl in Hm.
    destruct (merge_fields merge fs xs ys h1) as [[[cs xs''] h2]|] eqn:E2; [|done].
    simpl in Hm. injection Hm as <- <- <-.
    destruct (Hf _ _ _ _ _ _ E1) as [Hw1 Hr1].
    destruct (IH _ _ _ _ _ _ E2) as [Hw2 Hr2].
    simpl. split.
    + eapply writes_within_trans.
      * eapply writes_within_weaken; [exact Hw1|]. intros l Hl.
        apply elem_of_app. by left.
      * exact Hw2.
      * intros l Hl. left. apply elem_of_app. by right.
    + intros l Hl. apply elem_of_app in Hl as [Hl|Hl].
      * destruct (Hr1 l Hl); [left; apply elem_of_app; by left|by right].
      * destruct (Hr2 l Hl) as [?|?]; [left; apply elem_of_app; by right|].
        right. destruct Hw1. lia.
Qed.

Lemma merge_keys_frame et la lb :
  (∀ h a b c a' h', merge et a b h = Ok (c, a', h') →
     writes_within h (refs a) h' ∧ ∀ l, l ∈ refs a' → l ∈ refs a ∨ length h ≤ l) →
  ∀ keys changed h c h',
    merge_keys merge et la lb keys changed h = Ok (c, h') →
    writes_within h [la] h'.
Proof.
  intros Het. induction keys as [|key keys IH]; intros changed h c h' Hm.
  - injection Hm as <- <-. apply writes_within_refl.
  - simpl in Hm.
    destruct (h !! la) as [ma|]; [|done]. destruct (h !! lb) as [mb|]; [|done].
    destruct (mb !! key) as [bValue|]; [|done].
    destruct (ma !! key) as [aValue|].
    + destruct (merge et (zero et) aValue h) as [[[c1 n1] h1]|] eqn:E1; [|done].
      simpl in Hm.
      destruct (merge et n1 bValue h1) as [[[c2 n2] h2]|] eqn:E2; [|done].
      simpl in Hm.
      destruct (Het _ _ _ _ _ _ E1) as [Hw1 Hr1]. rewrite refs_zero in Hw1, Hr1.
      destruct (Het _ _ _ _ _ _ E2) as [Hw2 _].
      assert (Hw : writes_within h [] h2).
      { eapply writes_within_trans; [exact Hw1|exact Hw2|].
        intros l Hl. destruct (Hr1 l Hl) as [Hnil|?]; [|by right].
        by apply elem_of_nil in Hnil. }
      destruct c2.
      * apply IH in Hm.
        eapply writes_within_trans; [|exact Hm|by left].
        eapply writes_within_trans; [|apply writes_within_SetMapIndex|by left].
        eapply writes_within_weaken; [exact Hw|]. intros l Hl.
        by apply elem_of_nil in Hl.
      * apply IH in Hm.
        eapply writes_within_trans; [|exact Hm|by left].
        eapply writes_within_weaken; [exact Hw|]. intros l Hl.
        by apply elem_of_nil in Hl.
    + apply IH in Hm.
      eapply writes_within_trans; [|exact Hm|by left].
      apply writes_within_SetMapIndex.
Qed.

(** A merge on a mergeable type writes only to the map objects the target
    holds directly and to objects it makes itself; the target afterwards
    holds the references it held and references to new objects. *)
Lemma merge_frame t :
  mergeable t = true →
  ∀ h a b c a' h', merge t a b h = Ok (c, a', h') →
    writes_within h (refs a) h' ∧ ∀ l, l ∈ refs a' → l ∈ refs a ∨ length h ≤ l.
Proof.
  revert t. apply (mergeable_ind (λ t, ∀ h a b c a' h',
    merge t a b h = Ok (c, a', h') →
    writes_within h (refs a) h' ∧ ∀ l, l ∈ refs a' → l ∈ refs a ∨ length h ≤ l)).
  - intros T Ho h a b c a' h'. rewrite merge_Basic, Ho.
    destruct (greater _ _) as [g|] eqn:Eg; [|done]. simpl.
    apply greater_Ok_refs in Eg as [Ha Hb].
    destruct g; intros [= <- <- <-]; (split; [apply writes_within_refl|]);
      rewrite ?Ha, ?Hb; auto.
  - intros fs Hfs h a b c a' h' Hm.
    destruct a as [| | | | |xs| | |]; try done. destruct b as [| | | | |ys| | |]; try done.
    rewrite merge_StructOf in Hm.
    destruct (merge_fields merge fs xs ys h) as [[[c1 xs'] h1]|] eqn:E; [|done].
    simpl in Hm. injection Hm as <- <- <-. simpl.
    eapply merge_fields_frame; [|exact E].
    eapply Forall_impl; [exact Hfs|]. simpl. intros f (_ & _ & Hf). exact Hf.
  - intros kt et _ Het h a b c a' h' Hm.
    destruct a as [| | | | | |ra| |]; try done. destruct b as [| | | | | |rb| |]; try done.
    rewrite merge_MapOf in Hm. unfold merge_map in Hm.
    destruct rb as [lb|]; cycle 1.
    { destruct ra; injection Hm as <- <- <-; (split; [apply writes_within_refl|]); auto. }
    destruct ra as [la|]; simpl in Hm.
    + destruct (h !! lb) as [mb|]; [|done].
      destruct (merge_keys merge et la lb (MapKeys mb) false h) as [[c1 h1]|] eqn:E; [|done].
      simpl in Hm. injection Hm as <- <- <-.
      split; [|auto]. by eapply merge_keys_frame.
    + destruct ((h ++ [∅]) !! lb) as [mb|]; [|done].
      destruct (merge_keys merge et (length h) lb (MapKeys mb) false (h ++ [∅]))
        as [[c1 h1]|] eqn:E; [|done].
      simpl in Hm. injection Hm as <- <- <-.
      apply merge_keys_frame in E; [|done]. split.
      * eapply writes_within_trans; [apply writes_within_alloc|exact E|].
        intros l Hl. apply list_elem_of_singleton in Hl as ->. right. lia.
      * simpl. intros l Hl. apply list_elem_of_singleton in Hl as ->. right. lia.
  - intros t Ht IH h a b c a' h'. rewrite merge_underlying by done. apply IH.
Qed.
End frame.

(** ** Join *)

Section Join_pure.
Context {P : program} (MapKeys_ok : MapKeys_spec P).

(** C9.  On a mergeable type and well-typed arguments [Join(a, b)] returns
    the value that results from merging [a] and then [b] into a zero value
    of the type, and every map object that existed before the call is what
    it was, so that [a] and [b] read as before. *)
Theorem Join_merges_into_zero_and_keeps_inputs t Σ h a b :
  mergeable t = true → heap_ok Σ h → has_type Σ t a → has_type Σ t b →
  ∃ value h' c1 v1 h1 c2,
    Join (Some (t, a)) (Some (t, b)) h = Ok (value, h')
    ∧ merge t (zero t) a h = Ok (c1, v1, h1)
    ∧ merge t v1 b h1 = Ok (c2, value, h')
    ∧ h `prefix_of` h'
    ∧ ∀ l m, h !! l = Some m → h' !! l = Some m.
Proof.
  intros Ht Hok Ha Hb.
  destruct (merge_total MapKeys_ok t Ht Σ h (zero t) a Hok (zero_typed _ _) Ha)
    as (c1 & v1 & h1 & Σ1 & E1 & Hpre1 & Hok1 & Hv1 & _).
  destruct (merge_total MapKeys_ok t Ht Σ1 h1 v1 b Hok1 Hv1)
    as (c2 & v2 & h2 & Σ2 & E2 & _).
  { by eapply has_type_weaken. }
  destruct (merge_frame t Ht _ _ _ _ _ _ E1) as [Hw1 Hr1].
  destruct (merge_frame t Ht _ _ _ _ _ _ E2) as [Hw2 _].
  rewrite refs_zero in Hw1, Hr1.
  assert (Hpre : h `prefix_of` h2).
  { apply writes_within_prefix.
    eapply writes_within_trans; [exact Hw1|exact Hw2|].
    intros l Hl. destruct (Hr1 l Hl) as [Hnil|?]; [|by right].
    by apply elem_of_nil in Hnil. }
  exists v2, h2, c1, v1, h1, c2. split_and!; try done.
  - rewrite Join_same. unfold join. rewrite E1. simpl. by rewrite E2.
  - intros l m Hl. by eapply prefix_lookup_Some.
Qed.
End Join_pure.

(** C9 on [Join({1: -5}, {1: -3})]. *)
Lemma Join_merges_into_zero_and_keeps_inputs_witness :
  ∃ value h' c1 v1 h1 c2,
    @Join plain_program (Some (int_map, VMap (Some 0))) (Some (int_map, VMap (Some 1)))
      neg_heap = Ok (value, h')
    ∧ @merge plain_program int_map (zero int_map) (VMap (Some 0)) neg_heap = Ok (c1, v1, h1)
    ∧ @merge plain_program int_map v1 (VMap (Some 1)) h1 = Ok (c2, value, h')
    ∧ neg_heap `prefix_of` h'
    ∧ ∀ l m, neg_heap !! l = Some m → h' !! l = Some m.
Proof.
  apply (Join_merges_into_zero_and_keeps_inputs (P := plain_program)
           (sorted_keys_spec plain_program eq_refl) int_map [Basic Tint; Basic Tint]).
  - reflexivity.
  - split; [reflexivity|].
    intros [|[|l]] et m k v HΣ Hh Hm; try done;
      injection HΣ as <-; injection Hh as <-;
      apply lookup_singleton_Some in Hm as [_ <-]; simpl; lia.
  - reflexivity.
  - reflexivity.
Defined.

(** ** Idempotence *)

Lemma fields_all2_impl (R Q : type → data → data → Prop) fs xs ys :
  Forall (λ f : field, ∀ x y, R (field_Type f) x y → Q (field_Type f) x y) fs →
  fields_all2 R fs xs ys → fields_all2 Q fs xs ys.
Proof.
  intros HF. revert xs ys.
  induction HF as [|f fs Hf _ IH]; intros [|x xs] [|y ys]; simpl; try done.
  intros [? ?]. split; auto.
Qed.

Lemma map_object_prefix h h' r m :
  h `prefix_of` h' → map_object h r = Some m → map_object h' r = Some m.
Proof. destruct r; simpl; [|done]. intros ??. by eapply prefix_lookup_Some. Qed.

Lemma entry_rel_impl (R Q : data → data → Prop) o1 o2 :
  (∀ x y, R x y → Q x y) → entry_rel R o1 o2 → entry_rel Q o1 o2.
Proof. destruct o1, o2; simpl; auto. Qed.

Lemma deep_rel_prefix s h1 h2 h1' h2' t a b :
  h1 `prefix_of` h1' → h2 `prefix_of` h2' →
  deep_rel s h1 h2 t a b → deep_rel s h1' h2' t a b.
Proof.
  intros Hp1 Hp2. revert a b.
  induction t as [T|fs IH|kt et _ IHe|et _|et _|n u IH] using type_ind';
    intros a b; simpl; try done.
  - destruct a, b; try done. by apply fields_all2_impl.
  - destruct a, b; try done. intros (Hs & m1 & m2 & Hm1 & Hm2 & Hk).
    split; [done|]. exists m1, m2. split_and!; try by eapply map_object_prefix.
    intros k. eapply entry_rel_impl; [|apply Hk]. apply IHe.
  - auto.
Qed.

Lemma zero_image_prefix h h' t n w :
  h `prefix_of` h' → zero_image h t n w → zero_image h' t n w.
Proof.
  intros Hp. revert n w.
  induction t as [T|fs IH|kt et _ IHe|et _|et _|n' u IH] using type_ind';
    intros n w; try done.
  - simpl. destruct n, w; try done. by apply fields_all2_impl.
  - by apply deep_rel_prefix.
  - simpl. auto.
Qed.

Lemma zero_image_underlying h t n w :
  zero_image h t n w = zero_image h (underlying t) n w.
Proof. induction t; simpl; auto. Qed.

Lemma greater_irrefl T a g : greater (Basic T, a) (Basic T, a) = Ok g → g = false.
Proof.
  destruct T; try done; destruct a; try done; simpl; intros [= <-];
    rewrite ?Z.gtb_ltb, ?Z.ltb_irrefl; try done.
  - by destruct b.
  - apply not_true_is_false. rewrite SFgtb_true. apply SFcompare_irrefl.
  - apply not_true_is_false. rewrite SFgtb_true. apply SFcompare_irrefl.
  - apply not_true_is_false. rewrite string_gtb_true. apply string_compare_irrefl.
Qed.

Section idempotence.
Context {P : program} (MapKeys_ok : MapKeys_spec P).

(** What the induction carries for a type: merging an equal value changes
    nothing, merging into zero gives a zero image, and merging [w] into a
    zero image of [w] changes nothing. *)
Local Abbreviation equal_absorbed t :=
  (∀ h a b c a' h', DeepEqual h t a b → merge t a b h = Ok (c, a', h') →
     c = false ∧ a' = a ∧ h `prefix_of` h').
Local Abbreviation zero_merged t :=
  (∀ h wa wb c n h1, DeepEqual h t wa wb → merge t (zero t) wa h = Ok (c, n, h1) →
     h `prefix_of` h1 ∧ zero_image h1 t n wb).
Local Abbreviation image_absorbed t :=
  (∀ h n w c n' h', zero_image h t n w → merge t n w h = Ok (c, n', h') →
     c = false ∧ n' = n ∧ h `prefix_of` h').

Lemma merge_fields_equal fs :
  Forall (λ f : field, equal_absorbed (field_Type f)) fs →
  ∀ h xs ys c xs' h',
    fields_all2 (deep_rel true h h) fs xs ys →
    merge_fields merge fs xs ys h = Ok (c, xs', h') →
    c = false ∧ xs' = xs ∧ h `prefix_of` h'.
Proof.
  induction 1 as [|f fs Hf _ IH]; intros h xs ys c xs' h' Heq Hm.
  - destruct xs, ys; try done. by injection Hm as <- <- <-.
  - destruct xs as [|x xs], ys as [|y ys]; try done. simpl in Hm, Heq.
    destruct Heq as [Hxy Heq]. destruct (negb _); [done|].
    destruct (merge (field_Type f) x y h) as [[[c1 x'] h1]|] eqn:E1; [|done].
    simpl in Hm.
    destruct (merge_fields merge fs xs ys h1) as [[[cs xs''] h2]|] eqn:E2; [|done].
    simpl in Hm. injection Hm as <- <- <-.
    destruct (Hf _ _ _ _ _ _ Hxy E1) as (-> & -> & Hp1).
    destruct (IH h1 xs ys cs xs'' h2) as (-> & -> & Hp2); [|done|].
    { eapply fields_all2_impl; [|exact Heq]. apply Forall_forall.
      intros ????. by apply (deep_rel_prefix _ h h). }
    split_and!; try done. by etrans.
Qed.

Lemma merge_fields_zero fs :
  Forall (λ f : field, zero_merged (field_Type f)) fs →
  ∀ h was wbs c ns h1,
    fields_all2 (deep_rel true h h) fs was wbs →
    merge_fields merge fs (map (λ f : field, zero f.2) fs) was h = Ok (c, ns, h1) →
    h `prefix_of` h1 ∧ fields_all2 (zero_image h1) fs ns wbs.
Proof.
  induction 1 as [|f fs Hf _ IH]; intros h was wbs c ns h1 Heq Hm.
  - destruct was, wbs; try done. by injection Hm as <- <- <-.
  - destruct was as [|wa was], wbs as [|wb wbs]; try done. simpl in Hm, Heq.
    destruct Heq as [Hab Heq]. destruct (negb _); [done|].
    destruct (merge (field_Type f) (zero f.2) wa h) as [[[c1 n1] h']|] eqn:E1; [|done].
    simpl in Hm.
    destruct (merge_fields merge fs _ was h') as [[[cs ns'] h2]|] eqn:E2; [|done].
    simpl in Hm. injection Hm as <- <- <-.
    destruct (Hf _ _ _ _ _ _ Hab E1) as (Hp1 & Hn1).
    destruct (IH h' was wbs cs ns' h2) as (Hp2 & Hns); [|done|].
    { eapply fields_all2_impl; [|exact Heq]. apply Forall_forall.
      intros ????. by apply (deep_rel_prefix _ h h). }
    split; [by etrans|]. simpl. split; [|done].
    by eapply zero_image_prefix.
Qed.

Lemma merge_fields_image fs :
  Forall (λ f : field, image_absorbed (field_Type f)) fs →
  ∀ h ns ws c ns' h',
    fields_all2 (zero_image h) fs ns ws →
    merge_fields merge fs ns ws h = Ok (c, ns', h') →
    c = false ∧ ns' = ns ∧ h `prefix_of` h'.
Proof.
  induction 1 as [|f fs Hf _ IH]; intros h ns ws c ns' h' Himg Hm.
  - destruct ns, ws; try done. by injection Hm as <- <- <-.
  - destruct ns as [|n ns], ws as [|w ws]; try done. simpl in Hm, Himg.
    destruct Himg as [Hnw Himg]. destruct (negb _); [done|].
    destruct (merge (field_Type f) n w h) as [[[c1 n1] h1]|] eqn:E1; [|done].
    simpl in Hm.
    destruct (merge_fields merge fs ns ws h1) as [[[cs ns''] h2]|] eqn:E2; [|done].
    simpl in Hm. injection Hm as <- <- <-.
    destruct (Hf _ _ _ _ _ _ Hnw E1) as (-> & -> & Hp1).
    destruct (IH h1 ns ws cs ns'' h2) as (-> & -> & Hp2); [|done|].
    { eapply fields_all2_impl; [|exact Himg]. apply Forall_forall.
      intros ????. by eapply zero_image_prefix. }
    split_and!; try done. by etrans.
Qed.

(** The map loop when every key of the source is in the target with an
    equal element: each scratch value comes out unchanged by the second
    merge, and nothing is stored. *)
Lemma merge_keys_equal et la lb ma mb :
  zero_merged et → image_absorbed et →
  ∀ keys changed h c h',
    h !! la = Some ma → h !! lb = Some mb →
    (∀ k, entry_rel (deep_rel true h h et) (ma !! k) (mb !! k)) →
    merge_keys merge et la lb keys changed h = Ok (c, h') →
    c = changed ∧ h `prefix_of` h'.
Proof.
  intros HJ HK. induction keys as [|key keys IH]; intros changed h c h' Hla Hlb Hent Hm.
  - by injection Hm as <- <-.
  - simpl in Hm. rewrite Hla, Hlb in Hm.
    destruct (mb !! key) as [bValue|] eqn:Hb; [|done].
    pose proof (Hent key) as Hk. rewrite Hb in Hk.
    destruct (ma !! key) as [aValue|] eqn:Ha; [|done]. simpl in Hk.
    destruct (merge et (zero et) aValue h) as [[[c1 n1] h1]|] eqn:E1; [|done].
    simpl in Hm.
    destruct (merge et n1 bValue h1) as [[[c2 n2] h2]|] eqn:E2; [|done].
    simpl in Hm.
    destruct (HJ _ _ _ _ _ _ Hk E1) as (Hp1 & Hn1).
    destruct (HK _ _ _ _ _ _ Hn1 E2) as (-> & -> & Hp2).
    assert (Hp : h `prefix_of` h2) by by etrans.
    apply IH in Hm as (-> & Hp3).
    + split; [done|]. by etrans.
    + by eapply prefix_lookup_Some.
    + by eapply prefix_lookup_Some.
    + intros k. eapply entry_rel_impl; [|apply Hent].
      intros ??. by apply deep_rel_prefix.
Qed.

Lemma merge_map_equal kt et :
  zero_merged et → image_absorbed et → equal_absorbed (MapOf kt et).
Proof.
  intros HJ HK h a b c a' h' Heq Hm.
  destruct a as [| | | | | |ra| |]; try done. destruct b as [| | | | | |rb| |]; try done.
  destruct Heq as (Hnil & ma & mb & Hma & Hmb & Hent).
  rewrite merge_MapOf in Hm. unfold merge_map in Hm.
  destruct rb as [lb|].
  - destruct ra as [la|]; [|discriminate (proj1 (Hnil eq_refl) eq_refl)].
    simpl in Hma, Hmb, Hm. rewrite Hmb in Hm.
    destruct (merge_keys merge et la lb (MapKeys mb) false h) as [[c1 h1]|] eqn:E; [|done].
    simpl in Hm. injection Hm as <- <- <-.
    by destruct (merge_keys_equal et la lb ma mb HJ HK _ _ _ _ _ Hma Hmb Hent E) as [-> ?].
  - destruct ra as [la|]; [discriminate (proj2 (Hnil eq_refl) eq_refl)|].
    by injection Hm as <- <- <-.
Qed.

Lemma idempotence_by_type t :
  mergeable t = true → equal_absorbed t ∧ zero_merged t ∧ image_absorbed t.
Proof.
  revert t. apply (mergeable_ind (λ t, equal_absorbed t ∧ zero_merged t ∧ image_absorbed t)).
  - intros T Ho. split_and!.
    + intros h a b c a' h' Heq. unfold DeepEqual in Heq. simpl in Heq. subst b.
      rewrite merge_Basic, Ho.
      destruct (greater _ _) as [g|] eqn:Eg; [|done]. simpl.
      apply greater_irrefl in Eg as ->. by intros [= <- <- <-].
    + intros h wa wb c n h1 Heq. unfold DeepEqual in Heq. simpl in Heq. subst wb.
      rewrite merge_Basic, Ho.
      destruct (greater _ _) as [g|] eqn:Eg; [|done]. simpl.
      intros Hm. split; [by destruct g; injection Hm as <- <- <-|].
      exists g. split; [done|]. by destruct g; injection Hm as <- <- <-.
    + intros h n w c n' h' (g0 & Hg0 & ->).
      rewrite merge_Basic, Ho.
      destruct g0.
      * destruct (greater (Basic T, w) (Basic T, w)) as [g|] eqn:Eg; [|done]. simpl.
        apply greater_irrefl in Eg as ->. by intros [= <- <- <-].
      * rewrite Hg0. simpl. by intros [= <- <- <-].
  - intros fs Hfs. split_and!.
    + intros h a b c a' h' Heq Hm.
      destruct a as [| | | | |xs| | |]; try done. destruct b as [| | | | |ys| | |]; try done.
      rewrite merge_StructOf in Hm.
      destruct (merge_fields merge fs xs ys h) as [[[c1 xs'] h1]|] eqn:E; [|done].
      simpl in Hm. injection Hm as <- <- <-.
      destruct (merge_fields_equal fs) with (1 := ltac:(eapply Forall_impl; [exact Hfs|];
        simpl; intros f (_ & _ & Hf & _); exact Hf)) (2 := Heq) (3 := E) as (-> & -> & ?).
      done.
    + intros h wa wb c n h1 Heq Hm.
      destruct wa as [| | | | |was| | |]; try done.
      destruct wb as [| | | | |wbs| | |]; try done.
      simpl zero in Hm. rewrite merge_StructOf in Hm.
      destruct (merge_fields merge fs _ was h) as [[[c1 ns] h2]|] eqn:E; [|done].
      simpl in Hm. injection Hm as <- <- <-.
      destruct (merge_fields_zero fs) with (1 := ltac:(eapply Forall_impl; [exact Hfs|];
        simpl; intros f (_ & _ & _ & Hf & _); exact Hf)) (2 := Heq) (3 := E) as (? & ?).
      done.
    + intros h n w c n' h' Himg Hm.
      destruct n as [| | | | |ns| | |]; try done. destruct w as [| | | | |ws| | |]; try done.
      rewrite merge_StructOf in Hm.
      destruct (merge_fields merge fs ns ws h) as [[[c1 ns'] h1]|] eqn:E; [|done].
      simpl in Hm. injection Hm as <- <- <-.
      destruct (merge_fields_image fs) with (1 := ltac:(eapply Forall_impl; [exact Hfs|];
        simpl; intros f (_ & _ & _ & _ & Hf); exact Hf)) (2 := Himg) (3 := E) as (-> & -> & ?).
      done.
  - intros kt et _ (_ & HJ & HK).
    pose proof (merge_map_equal kt et HJ HK) as HI. split_and!; [done| |done].
    intros h wa wb c n h1 Heq Hm.
    destruct wa as [| | | | | |ra| |]; try done. destruct wb as [| | | | | |rb| |]; try done.
    simpl zero in Hm. rewrite merge_MapOf in Hm.
    destruct ra as [la|].
    + destruct Heq as (Hnil & ma & mb & Hma & Hmb & Hent). simpl in Hma.
      rewrite (merge_map_copy MapKeys_ok _ _ _ _ _ Hma) in Hm.
      injection Hm as <- <- <-.
      split; [by apply prefix_app_r|].
      split; [intros _; split; [done|]; intros ->; discriminate (proj2 (Hnil eq_refl) eq_refl)|].
      exists ma, mb. split_and!.
      * simpl. rewrite lookup_app_r by done. by rewrite Nat.sub_diag.
      * eapply map_object_prefix; [|done]. by apply prefix_app_r.
      * intros k. eapply entry_rel_impl; [|apply Hent].
        intros ??. apply deep_rel_prefix; by apply prefix_app_r.
    + unfold merge_map in Hm. destruct rb as [lb|].
      { destruct Heq as (Hnil & _). discriminate (proj1 (Hnil eq_refl) eq_refl). }
      by injection Hm as <- <- <-.
  - intros t Ht (HI & HJ & HK). split_and!.
    + intros h a b c a' h'. rewrite merge_underlying by done.
      unfold DeepEqual. rewrite deep_rel_underlying. apply HI.
    + intros h wa wb c n h1. rewrite merge_underlying by done.
      unfold DeepEqual. rewrite deep_rel_underlying, zero_underlying, zero_image_underlying.
      apply HJ.
    + intros h n w c n' h'. rewrite merge_underlying by done.
      rewrite zero_image_underlying. apply HK.
Qed.

End idempotence.

(** The heap [neg_heap] holds two maps of integers. *)
Lemma neg_heap_ok : heap_ok [Basic Tint; Basic Tint] neg_heap.
Proof.
  split; [reflexivity|].
  intros [|[|l]] et m k v HΣ Hh Hm; try done;
    injection HΣ as <-; injection Hh as <-;
    apply lookup_singleton_Some in Hm as [_ <-]; simpl; lia.
Qed.


(** ** Equality of values across heaps *)

Lemma fields_all2_typed_impl (R Q : type → data → data → Prop) Σ fs xs ys :
  Forall (λ f : field, ∀ x y, has_type Σ (field_Type f) x →
            R (field_Type f) x y → Q (field_Type f) x y) fs →
  fields_all (has_type Σ) fs xs →
  fields_all2 R fs xs ys → fields_all2 Q fs xs ys.
Proof.
  intros HF. revert xs ys.
  induction HF as [|f fs Hf _ IH]; intros [|x xs] [|y ys]; simpl; try done.
  intros [? ?] [? ?]. split; auto.
Qed.

Lemma fields_all2_refl (R : type → data → data → Prop) Σ fs xs :
  Forall (λ f : field, ∀ x, has_type Σ (field_Type f) x → R (field_Type f) x x) fs →
  fields_all (has_type Σ) fs xs → fields_all2 R fs xs xs.
Proof.
  intros HF. revert xs.
  induction HF as [|f fs Hf _ IH]; intros [|x xs]; simpl; try done.
  intros [? ?]. split; auto.
Qed.

(** A well-typed value equals itself, read in any two heaps that extend the
    one it is typed in. *)
Lemma deep_rel_refl s Σ h h1 h2 t d :
  heap_ok Σ h → h `prefix_of` h1 → h `prefix_of` h2 →
  has_type Σ t d → deep_rel s h1 h2 t d d.
Proof.
  intros Hok Hp1 Hp2. revert d.
  induction t as [T|fs IH|kt et _ IHe|et _|et _|n u IH] using type_ind';
    intros d Hd; simpl in *; try done.
  - destruct d; try done. by eapply fields_all2_refl.
  - destruct d as [| | | | | |[l|]| |]; try done.
    + destruct (heap_ok_lookup _ _ _ _ Hok Hd) as [m Hm].
      split; [done|]. exists m, m. split_and!.
      * simpl. by eapply prefix_lookup_Some.
      * simpl. by eapply prefix_lookup_Some.
      * intros k. destruct (m !! k) as [v|] eqn:Hv; simpl; [|done].
        apply IHe. destruct Hok as [_ Hok]. eauto.
    + split; [done|]. exists ∅, ∅. split_and!; done.
  - auto.
Qed.

Lemma entry_rel_sym (R Q : data → data → Prop) o1 o2 :
  (∀ x y, R x y → Q y x) → entry_rel R o1 o2 → entry_rel Q o2 o1.
Proof. destruct o1, o2; simpl; auto. Qed.

Lemma fields_all2_sym (R Q : type → data → data → Prop) fs xs ys :
  Forall (λ f : field, ∀ x y, R (field_Type f) x y → Q (field_Type f) y x) fs →
  fields_all2 R fs xs ys → fields_all2 Q fs ys xs.
Proof.
  intros HF. revert xs ys.
  induction HF as [|f fs Hf _ IH]; intros [|x xs] [|y ys]; simpl; try done.
  intros [? ?]. split; auto.
Qed.

Lemma deep_rel_sym s h1 h2 t a b :
  deep_rel s h1 h2 t a b → deep_rel s h2 h1 t b a.
Proof.
  revert a b.
  induction t as [T|fs IH|kt et _ IHe|et _|et _|n u IH] using type_ind';
    intros a b; simpl; try done.
  - destruct a, b; try done. by apply fields_all2_sym.
  - destruct a, b; try done. intros (Hs & m1 & m2 & Hm1 & Hm2 & Hk).
    split; [intros Hst; by rewrite (Hs Hst)|].
    exists m2, m1. split_and!; try done.
    intros k. eapply entry_rel_sym; [|apply Hk]. apply IHe.
  - auto.
Qed.

Lemma fields_all2_trans (R1 R2 R3 : type → data → data → Prop) fs xs ys zs :
  Forall (λ f : field, ∀ x y z,
    R1 (field_Type f) x y → R2 (field_Type f) y z → R3 (field_Type f) x z) fs →
  fields_all2 R1 fs xs ys → fields_all2 R2 fs ys zs → fields_all2 R3 fs xs zs.
Proof.
  intros HF. revert xs ys zs.
  induction HF as [|f fs Hf _ IH]; intros [|x xs] [|y ys] [|z zs]; simpl; try done.
  intros [? ?] [? ?]. split; eauto.
Qed.

Lemma deep_rel_trans s h1 h2 h3 t a b c :
  deep_rel s h1 h2 t a b → deep_rel s h2 h3 t b c → deep_rel s h1 h3 t a c.
Proof.
  revert a b c.
  induction t as [T|fs IH|kt et _ IHe|et _|et _|n u IH] using type_ind';
    intros a b c; simpl; try congruence.
  - destruct a, b, c; try done. by apply fields_all2_trans.
  - destruct a, b, c; try done.
    intros (Hs1 & m1 & m2 & Hm1 & Hm2 & Hk1) (Hs2 & m2' & m3 & Hm2' & Hm3 & Hk2).
    rewrite Hm2 in Hm2'. injection Hm2' as <-.
    split; [intros Hst; by rewrite (Hs1 Hst), (Hs2 Hst)|].
    exists m1, m3. split_and!; try done.
    intros k. specialize (Hk1 k). specialize (Hk2 k).
    destruct (m1 !! k), (m2 !! k), (m3 !! k); simpl in *; try done. eauto.
  - eauto.
Qed.

(** ** Values that a write cannot reach *)

Lemma refs_typed Σ t d l : has_type Σ t d → l ∈ refs d → l < length Σ.
Proof.
  revert d.
  induction t as [T|fs IH|kt et _ _|et _|et _|n u IH] using type_ind';
    intros d Hd Hl; simpl in *.
  - destruct T, d; simpl in *; try done; by apply elem_of_nil in Hl.
  - destruct d as [| | | | |ds| | |]; try done. simpl in Hl.
    revert ds Hd Hl. induction IH as [|f fs Hf _ IHfs]; intros [|d ds] Hd Hl; try done.
    + by apply elem_of_nil in Hl.
    + simpl in Hd, Hl. destruct Hd as [Hd Hds].
      apply elem_of_app in Hl as [Hl|Hl]; eauto.
  - destruct d as [| | | | | |[l'|]| |]; try done; simpl in Hl.
    + apply list_elem_of_singleton in Hl as ->. by eapply lookup_lt_Some.
    + by apply elem_of_nil in Hl.
  - destruct d as [| | | | | | |[]|]; try done. by apply elem_of_nil in Hl.
  - destruct d as [| | | | | | | |[]]; try done. by apply elem_of_nil in Hl.
  - eauto.
Qed.

Lemma inner_valid Σ h l : heap_ok Σ h → inner h l → l < length h.
Proof.
  intros [Hlen Hok] (l0 & m & k & v & Hl0 & Hk & Hl).
  assert (is_Some (Σ !! l0)) as [et Het].
  { apply lookup_lt_is_Some. rewrite Hlen. by eapply lookup_lt_Some. }
  rewrite <- Hlen. eapply refs_typed; [|done]. eauto.
Qed.

Lemma writes_within_lookup h W h' l m :
  writes_within h W h' → h !! l = Some m → l ∉ W → h' !! l = Some m.
Proof.
  intros [_ H] Hl HW. rewrite H; [done| |done]. by eapply lookup_lt_Some.
Qed.

(** Reading the left value in a later heap, when the writes in between were
    to objects that the value neither holds nor reaches. *)
Lemma deep_rel_later_l s h1 W h1' h2 t a b :
  writes_within h1 W h1' → (∀ l, l ∈ W → ¬ inner h1 l) →
  (∀ l, l ∈ W → l ∉ refs a) →
  deep_rel s h1 h2 t a b → deep_rel s h1' h2 t a b.
Proof.
  intros Hw Hin. revert a b.
  induction t as [T|fs IH|kt et _ IHe|et _|et _|n u IH] using type_ind';
    intros a b Ha; simpl; try done.
  - destruct a as [| | | | |xs| | |], b as [| | | | |ys| | |]; try done.
    simpl in Ha. revert xs ys Ha.
    induction IH as [|f fs Hf _ IHfs]; intros [|x xs] [|y ys] Ha; simpl; try done.
    intros [Hxy Hrest]. split.
    + apply Hf; [|done]. intros l Hl Hx. apply (Ha l Hl), elem_of_app. by left.
    + apply IHfs; [|done]. intros l Hl Hx. apply (Ha l Hl), elem_of_app. by right.
  - destruct a as [| | | | | |ra| |], b as [| | | | | |rb| |]; try done.
    intros (Hs & m1 & m2 & Hm1 & Hm2 & Hk). split; [done|].
    exists m1, m2. split_and!; try done.
    + destruct ra as [la|]; [|done]. simpl in *.
      eapply writes_within_lookup; [done..|]. intros Hla. apply (Ha la Hla), list_elem_of_here.
    + intros k. specialize (Hk k).
      destruct (m1 !! k) as [v1|] eqn:Hv1, (m2 !! k) as [v2|]; simpl in *; try done.
      apply IHe; [|done]. intros l Hl Hv. apply (Hin l Hl).
      destruct ra as [la|]; simpl in Hm1.
      * by exists la, m1, k, v1.
      * injection Hm1 as <-. by rewrite lookup_empty in Hv1.
  - auto.
Qed.

(** Reading the right value in an earlier heap, when the writes since were
    to objects that the value neither holds nor reaches. *)
Lemma deep_rel_earlier_r s Σ h2 W h2' h1 t a b :
  heap_ok Σ h2 → writes_within h2 W h2' → (∀ l, l ∈ W → ¬ inner h2 l) →
  has_type Σ t b → (∀ l, l ∈ W → l ∉ refs b) →
  deep_rel s h1 h2' t a b → deep_rel s h1 h2 t a b.
Proof.
  intros Hok Hw Hin. revert a b.
  induction t as [T|fs IH|kt et _ IHe|et _|et _|n u IH] using type_ind';
    intros a b Hty Hb; simpl; try done.
  - destruct a as [| | | | |xs| | |], b as [| | | | |ys| | |]; try done.
    simpl in Hb, Hty. revert xs ys Hty Hb.
    induction IH as [|f fs Hf _ IHfs]; intros [|x xs] [|y ys] Hty Hb; simpl; try done.
    destruct Hty as [Hy Hys]. intros [Hxy Hrest]. split.
    + apply Hf; [done| |done]. intros l Hl Hx. apply (Hb l Hl), elem_of_app. by left.
    + apply IHfs; [done| |done]. intros l Hl Hx. apply (Hb l Hl), elem_of_app. by right.
  - destruct a as [| | | | | |ra| |], b as [| | | | | |rb| |]; try done.
    intros (Hs & m1 & m2 & Hm1 & Hm2 & Hk). split; [done|].
    destruct rb as [lb|]; simpl in *.
    + destruct (heap_ok_lookup _ _ _ _ Hok Hty) as [m Hm].
      assert (h2' !! lb = Some m) as Hm'.
      { eapply writes_within_lookup; [done..|]. intros Hlb.
        apply (Hb lb Hlb), list_elem_of_here. }
      rewrite Hm' in Hm2. injection Hm2 as <-.
      exists m1, m. split_and!; try done.
      intros k. specialize (Hk k).
      destruct (m1 !! k) as [v1|], (m !! k) as [v2|] eqn:Hv2; simpl in *; try done.
      apply IHe; [|  |done].
      * destruct Hok as [_ Hok]. eauto.
      * intros l Hl Hv. apply (Hin l Hl). by exists lb, m, k, v2.
    + exists m1, m2. split_and!; try done.
      intros k. specialize (Hk k). injection Hm2 as <-.
      rewrite lookup_empty in *. by destruct (m1 !! k).
  - simpl in Hty. auto.
Qed.

(** ** Values at least zero *)

Lemma SFgtb_above_zero b n :
  SFgtb b n = true → SFgtb n (S754_zero false) = true ∨ n = S754_zero false →
  SFgtb b (S754_zero false) = true.
Proof.
  intros Hbn [Hn| ->]; [|done].
  destruct b as [[]|[]| |[] mb eb], n as [[]|[]| |[] mn en]; done.
Qed.

Lemma string_gtb_above_zero b n : string_gtb b n = true → string_gtb b "" = true.
Proof. destruct b; [by destruct n|done]. Qed.

(** What is greater than a value at least zero is at least zero. *)
Lemma greater_above_zero T b n :
  greater (Basic T, b) (Basic T, n) = Ok true →
  at_least_zero (Basic T) n → at_least_zero (Basic T) b.
Proof.
  intros Hg (g & Hn & Hz).
  destruct T; try done; destruct b; try done; destruct n; try done;
    simpl in *; injection Hg as Hg; injection Hn as Hn; subst g;
    eexists; (split; [reflexivity|]); left.
  - apply andb_true_iff in Hg as [-> _]. done.
  - destruct Hz as [Hz|[= ->]]; lia.
  - destruct Hz as [Hz|[= ->]]; lia.
  - destruct Hz as [Hz|[= ->]]; lia.
  - destruct Hz as [Hz|[= ->]]; lia.
  - destruct Hz as [Hz|[= ->]]; lia.
  - destruct Hz as [Hz|[= ->]]; lia.
  - destruct Hz as [Hz|[= ->]]; lia.
  - destruct Hz as [Hz|[= ->]]; lia.
  - destruct Hz as [Hz|[= ->]]; lia.
  - destruct Hz as [Hz|[= ->]]; lia.
  - eapply SFgtb_above_zero; [done|]. destruct Hz as [?|[= ->]]; auto.
  - eapply SFgtb_above_zero; [done|]. destruct Hz as [?|[= ->]]; auto.
  - by eapply string_gtb_above_zero.
Qed.

Lemma zero_at_least_zero T :
  isOrdered (basic_Kind T) = true → at_least_zero (Basic T) (zero (Basic T)).
Proof. destruct T; try done; intros _; eexists; (split; [reflexivity|by right]). Qed.

Lemma fields_all_from_all2 (R : type → data → data → Prop) (Q : type → data → Prop) fs xs ys :
  Forall (λ f : field, ∀ x y, Q (field_Type f) y → R (field_Type f) x y →
            Q (field_Type f) x) fs →
  fields_all Q fs ys → fields_all2 R fs xs ys → fields_all Q fs xs.
Proof.
  intros HF. revert xs ys.
  induction HF as [|f fs Hf _ IH]; intros [|x xs] [|y ys]; simpl; try done.
  intros [? ?] [? ?]. split; eauto.
Qed.

(** A value equal to one at least zero is at least zero. *)
Lemma at_least_zero_deep_rel s h1 h2 t v n :
  at_least_zero t n → deep_rel s h1 h2 t v n → at_least_zero t v.
Proof.
  revert v n.
  induction t as [T|fs IH|kt et _ _|et _|et _|n' u IH] using type_ind';
    intros v n; simpl; try done.
  - by intros ? ->.
  - destruct v, n; try done. by apply fields_all_from_all2.
  - eauto.
Qed.

Section above_zero.
Context {P : program} (MapKeys_ok : MapKeys_spec P).

Lemma merge_typed t Σ h a b c a' h' :
  mergeable t = true → heap_ok Σ h → has_type Σ t a → has_type Σ t b →
  merge t a b h = Ok (c, a', h') →
  ∃ Σ', Σ `prefix_of` Σ' ∧ heap_ok Σ' h' ∧ has_type Σ' t a'.
Proof.
  intros Ht Hok Ha Hb Hm.
  destruct (merge_total MapKeys_ok t Ht Σ h a b Hok Ha Hb)
    as (c0 & a0 & h0 & Σ' & E & ? & ? & ? & _).
  rewrite Hm in E. injection E as <- <- <-. eauto.
Qed.

Lemma merge_fields_above fs :
  Forall (λ f : field, ∀ h n b c n' h',
    at_least_zero (field_Type f) n → merge (field_Type f) n b h = Ok (c, n', h') →
    at_least_zero (field_Type f) n') fs →
  ∀ h ns bs c ns' h',
    fields_all at_least_zero fs ns →
    merge_fields merge fs ns bs h = Ok (c, ns', h') →
    fields_all at_least_zero fs ns'.
Proof.
  induction 1 as [|f fs Hf _ IH]; intros h ns bs c ns' h' Hns Hm.
  - destruct ns, bs; try done. by injection Hm as <- <- <-.
  - destruct ns as [|n ns], bs as [|b bs]; try done. simpl in Hm, Hns.
    destruct Hns as [Hn Hns]. destruct (negb _); [done|].
    destruct (merge (field_Type f) n b h) as [[[c1 n1] h1]|] eqn:E1; [|done].
    simpl in Hm.
    destruct (merge_fields merge fs ns bs h1) as [[[cs ns''] h2]|] eqn:E2; [|done].
    simpl in Hm. injection Hm as <- <- <-. simpl. split; eauto.
Qed.

(** Merging into a value at least zero leaves a value at least zero. *)
Lemma merge_above t :
  mergeable t = true →
  ∀ h n b c n' h', at_least_zero t n → merge t n b h = Ok (c, n', h') →
    at_least_zero t n'.
Proof.
  revert t. apply (mergeable_ind (λ t, ∀ h n b c n' h',
    at_least_zero t n → merge t n b h = Ok (c, n', h') → at_least_zero t n')).
  - intros T Ho h n b c n' h' Hn. rewrite merge_Basic, Ho.
    destruct (greater _ _) as [[]|] eqn:Eg; [| |done]; simpl; intros [= <- <- <-]; [|done].
    by eapply greater_above_zero.
  - intros fs Hfs h n b c n' h' Hn Hm.
    destruct n as [| | | | |ns| | |]; try done. destruct b as [| | | | |bs| | |]; try done.
    rewrite merge_StructOf in Hm.
    destruct (merge_fields merge fs ns bs h) as [[[c1 ns'] h1]|] eqn:E; [|done].
    simpl in Hm. injection Hm as <- <- <-. simpl.
    eapply merge_fields_above; [|done..].
    eapply Forall_impl; [exact Hfs|]. simpl. by intros f (_ & _ & Hf).
  - done.
  - intros t Ht IH h n b c n' h'. rewrite merge_underlying by done.
    assert (Hu : ∀ d, at_least_zero t d = at_least_zero (underlying t) d).
    { clear. intros d. induction t; simpl; auto. }
    rewrite !Hu. apply IH.
Qed.

Lemma merge_fields_zero_above fs :
  Forall (λ f : field, ∀ Σ0 h0 h v c n h1,
    heap_ok Σ0 h0 → has_type Σ0 (field_Type f) v → h0 `prefix_of` h →
    merge (field_Type f) (zero (field_Type f)) v h = Ok (c, n, h1) →
    h `prefix_of` h1 ∧ at_least_zero (field_Type f) n
    ∧ (at_least_zero (field_Type f) v → deep_rel false h0 h1 (field_Type f) v n)) fs →
  ∀ Σ0 h0 h vs c ns h1,
    heap_ok Σ0 h0 → fields_all (has_type Σ0) fs vs → h0 `prefix_of` h →
    merge_fields merge fs (map (λ f : field, zero f.2) fs) vs h = Ok (c, ns, h1) →
    h `prefix_of` h1 ∧ fields_all at_least_zero fs ns
    ∧ (fields_all at_least_zero fs vs → fields_all2 (deep_rel false h0 h1) fs vs ns).
Proof.
  induction 1 as [|f fs Hf _ IH]; intros Σ0 h0 h vs c ns h1 Hok Hvs Hp Hm.
  - destruct vs; try done. by injection Hm as <- <- <-.
  - destruct vs as [|v vs]; try done. simpl in Hm, Hvs.
    destruct Hvs as [Hv Hvs]. destruct (negb _); [done|].
    destruct (merge (field_Type f) (zero f.2) v h) as [[[c1 n1] h']|] eqn:E1; [|done].
    simpl in Hm.
    destruct (merge_fields merge fs _ vs h') as [[[cs ns'] h2]|] eqn:E2; [|done].
    simpl in Hm. injection Hm as <- <- <-.
    destruct (Hf _ _ _ _ _ _ _ Hok Hv Hp E1) as (Hp1 & Hn1 & Hr1).
    destruct (IH Σ0 h0 h' vs cs ns' h2 Hok Hvs) as (Hp2 & Hns & Hrs); [by etrans|done|].
    split; [by etrans|]. split; [done|].
    simpl. intros [Hzv Hzvs]. split; [|auto].
    eapply deep_rel_prefix; [done|exact Hp2|]. auto.
Qed.

(** Merging a value into the zero value gives a value at least zero, which
    equals the merged value when that was at least zero; nothing is written
    to the objects there were. *)
Lemma merge_zero_above t :
  mergeable t = true →
  ∀ Σ0 h0 h v c n h1,
    heap_ok Σ0 h0 → has_type Σ0 t v → h0 `prefix_of` h →
    merge t (zero t) v h = Ok (c, n, h1) →
    h `prefix_of` h1 ∧ at_least_zero t n
    ∧ (at_least_zero t v → deep_rel false h0 h1 t v n).
Proof.
  revert t. apply (mergeable_ind (λ t, ∀ Σ0 h0 h v c n h1,
    heap_ok Σ0 h0 → has_type Σ0 t v → h0 `prefix_of` h →
    merge t (zero t) v h = Ok (c, n, h1) →
    h `prefix_of` h1 ∧ at_least_zero t n
    ∧ (at_least_zero t v → deep_rel false h0 h1 t v n))).
  - intros T Ho Σ0 h0 h v c n h1 _ _ _. rewrite merge_Basic, Ho.
    destruct (greater _ _) as [g|] eqn:Eg; [|done]. simpl.
    destruct g; intros [= <- <- <-]; (split; [done|]); split.
    + exists true. auto.
    + done.
    + by apply zero_at_least_zero.
    + intros (g & Hg & Hz). injection (eq_trans (eq_sym Hg) Eg) as ->.
      by destruct Hz as [?| ->].
  - intros fs Hfs Σ0 h0 h v c n h1 Hok Hv Hp Hm.
    destruct v as [| | | | |vs| | |]; try done.
    simpl zero in Hm. rewrite merge_StructOf in Hm.
    destruct (merge_fields merge fs _ vs h) as [[[c1 ns] h2]|] eqn:E; [|done].
    simpl in Hm. injection Hm as <- <- <-.
    eapply merge_fields_zero_above; [|done..].
    eapply Forall_impl; [exact Hfs|]. simpl. by intros f (_ & _ & Hf).
  - intros kt et _ _ Σ0 h0 h v c n h1 Hok Hv Hp Hm.
    destruct v as [| | | | | |ra| |]; try done.
    simpl zero in Hm. rewrite merge_MapOf in Hm.
    destruct ra as [la|].
    + simpl in Hv. destruct (heap_ok_lookup _ _ _ _ Hok Hv) as [ma Hma].
      assert (Hma' : h !! la = Some ma) by by eapply prefix_lookup_Some.
      rewrite (merge_map_copy MapKeys_ok _ _ _ _ _ Hma') in Hm.
      injection Hm as <- <- <-.
      assert (Hp' : h0 `prefix_of` h ++ [ma]).
      { etrans; [done|]. by apply prefix_app_r. }
      split; [by apply prefix_app_r|]. split; [done|]. intros _.
      split; [done|]. exists ma, ma. split_and!.
      * done.
      * simpl. rewrite lookup_app_r by done. by rewrite Nat.sub_diag.
      * intros k. destruct (ma !! k) as [v|] eqn:Hv'; simpl; [|done].
        eapply deep_rel_refl; [done|done|done|].
        destruct Hok as [_ Hok]. eauto.
    + injection Hm as <- <- <-. split; [done|]. split; [done|]. intros _.
      split; [done|]. by exists ∅, ∅.
  - intros t Ht IH Σ0 h0 h v c n h1. rewrite merge_underlying by done.
    assert (Hu : ∀ d, at_least_zero t d = at_least_zero (underlying t) d).
    { clear. intros d. induction t; simpl; auto. }
    rewrite !Hu, zero_underlying, has_type_underlying, deep_rel_underlying. apply IH.
Qed.
End above_zero.

(** ** A merge that reports no change *)

Section unchanged.
Context {P : program} (MapKeys_ok : MapKeys_spec P).

Lemma merge_keys_true rec et la lb keys h c h' :
  merge_keys rec et la lb keys true h = Ok (c, h') → c = true.
Proof.
  revert h. induction keys as [|key keys IH]; intros h Hm.
  - by injection Hm as <- <-.
  - simpl in Hm.
    destruct (h !! la) as [ma|]; [|done]. destruct (h !! lb) as [mb|]; [|done].
    destruct (mb !! key) as [bValue|]; [|done].
    destruct (ma !! key) as [aValue|]; [|eauto].
    destruct (rec et (zero et) aValue h) as [[[c1 n1] h1]|]; [|done]. simpl in Hm.
    destruct (rec et n1 bValue h1) as [[[c2 n2] h2]|]; [|done]. simpl in Hm.
    destruct c2; eauto.
Qed.

(** The scratch value of the map loop is built in new objects only. *)
Lemma scratch_frame et h aValue bValue c1 n1 h1 c2 n2 h2 :
  mergeable et = true →
  merge et (zero et) aValue h = Ok (c1, n1, h1) →
  merge et n1 bValue h1 = Ok (c2, n2, h2) →
  writes_within h [] h2 ∧ length h ≤ length h1
  ∧ (∀ l, l ∈ refs n1 → length h ≤ l) ∧ (∀ l, l ∈ refs n2 → length h ≤ l).
Proof.
  intros Hme E1 E2.
  destruct (merge_frame et Hme _ _ _ _ _ _ E1) as [Hw1 Hr1].
  destruct (merge_frame et Hme _ _ _ _ _ _ E2) as [Hw2 Hr2].
  rewrite refs_zero in Hw1, Hr1.
  assert (Hn1 : ∀ l, l ∈ refs n1 → length h ≤ l).
  { intros l Hl. destruct (Hr1 l Hl) as [Hnil|?]; [|done]. by apply elem_of_nil in Hnil. }
  split_and!; try done.
  - eapply writes_within_trans; [exact Hw1|exact Hw2|]. intros l Hl. right. auto.
  - by destruct Hw1.
  - intros l Hl. destruct (Hr2 l Hl) as [?|?]; [auto|]. destruct Hw1. lia.
Qed.

Lemma merge_keys_unchanged et la lb :
  mergeable et = true →
  ∀ keys changed h h',
    merge_keys merge et la lb keys changed h = Ok (false, h') →
    changed = false ∧ h `prefix_of` h'.
Proof.
  intros Hme. induction keys as [|key keys IH]; intros changed h h' Hm.
  - by injection Hm as <- <-.
  - simpl in Hm.
    destruct (h !! la) as [ma|]; [|done]. destruct (h !! lb) as [mb|]; [|done].
    destruct (mb !! key) as [bValue|]; [|done].
    destruct (ma !! key) as [aValue|]; [|by apply merge_keys_true in Hm].
    destruct (merge et (zero et) aValue h) as [[[c1 n1] h1]|] eqn:E1; [|done].
    simpl in Hm.
    destruct (merge et n1 bValue h1) as [[[c2 n2] h2]|] eqn:E2; [|done].
    simpl in Hm.
    destruct c2; [by apply merge_keys_true in Hm|].
    destruct (scratch_frame _ _ _ _ _ _ _ _ _ _ Hme E1 E2) as (Hw & _).
    apply IH in Hm as [-> Hp]. split; [done|].
    etrans; [|done]. by apply writes_within_prefix.
Qed.

Lemma merge_fields_unchanged fs :
  Forall (λ f : field, field_PkgPath f = "" ∧ mergeable (field_Type f) = true ∧
    ∀ Σ0 h0 Σ h a b a' h',
      heap_ok Σ0 h0 → has_type Σ0 (field_Type f) a → h0 `prefix_of` h →
      heap_ok Σ h → has_type Σ (field_Type f) a → has_type Σ (field_Type f) b →
      merge (field_Type f) a b h = Ok (false, a', h') →
      h `prefix_of` h' ∧ deep_rel false h0 h' (field_Type f) a a') fs →
  ∀ Σ0 h0 Σ h xs ys xs' h',
    heap_ok Σ0 h0 → fields_all (has_type Σ0) fs xs → h0 `prefix_of` h →
    heap_ok Σ h → fields_all (has_type Σ) fs xs → fields_all (has_type Σ) fs ys →
    merge_fields merge fs xs ys h = Ok (false, xs', h') →
    h `prefix_of` h' ∧ fields_all2 (deep_rel false h0 h') fs xs xs'.
Proof.
  induction 1 as [|f fs (_ & Hme & Hf) _ IH];
    intros Σ0 h0 Σ h xs ys xs' h' Hok0 Hxs0 Hp Hok Hxs Hys Hm.
  - destruct xs, ys; try done. by injection Hm as <- <-.
  - destruct xs as [|x xs], ys as [|y ys]; try done. simpl in *.
    destruct Hxs0 as [Hx0 Hxs0], Hxs as [Hx Hxs], Hys as [Hy Hys].
    destruct (negb _); [done|].
    destruct (merge (field_Type f) x y h) as [[[c1 x'] h1]|] eqn:E1; [|done].
    simpl in Hm.
    destruct (merge_fields merge fs xs ys h1) as [[[cs xs''] h2]|] eqn:E2; [|done].
    simpl in Hm. injection Hm as Hc <- <-.
    apply orb_false_iff in Hc as [-> ->].
    destruct (Hf _ _ _ _ _ _ _ _ Hok0 Hx0 Hp Hok Hx Hy E1) as (Hp1 & Hr1).
    destruct (merge_typed MapKeys_ok _ _ _ _ _ _ _ _ Hme Hok Hx Hy E1) as (Σ1 & HΣ1 & Hok1 & _).
    destruct (IH Σ0 h0 Σ1 h1 xs ys xs'' h2) as (Hp2 & Hrs); try done.
    { by etrans. }
    { eapply fields_all_impl; [|exact Hxs]. apply Forall_forall.
      intros ????. by eapply has_type_weaken. }
    { eapply fields_all_impl; [|exact Hys]. apply Forall_forall.
      intros ????. by eapply has_type_weaken. }
    split; [by etrans|]. split; [|done].
    by eapply deep_rel_prefix.
Qed.

(** When [merge] returns false it has written to no object there was, and
    the target has the value it had; at most nil maps in it have become
    new, empty maps. *)
Lemma merge_unchanged t :
  mergeable t = true →
  ∀ Σ0 h0 Σ h a b a' h',
    heap_ok Σ0 h0 → has_type Σ0 t a → h0 `prefix_of` h →
    heap_ok Σ h → has_type Σ t a → has_type Σ t b →
    merge t a b h = Ok (false, a', h') →
    h `prefix_of` h' ∧ deep_rel false h0 h' t a a'.
Proof.
  revert t. apply (mergeable_ind (λ t, ∀ Σ0 h0 Σ h a b a' h',
    heap_ok Σ0 h0 → has_type Σ0 t a → h0 `prefix_of` h →
    heap_ok Σ h → has_type Σ t a → has_type Σ t b →
    merge t a b h = Ok (false, a', h') →
    h `prefix_of` h' ∧ deep_rel false h0 h' t a a')).
  - intros T Ho Σ0 h0 Σ h a b a' h' _ _ _ _ _ _. rewrite merge_Basic, Ho.
    destruct (greater _ _) as [[]|]; try done. simpl. by intros [= <- <-].
  - intros fs Hfs Σ0 h0 Σ h a b a' h' Hok0 Ha0 Hp Hok Ha Hb Hm.
    destruct a as [| | | | |xs| | |]; try done. destruct b as [| | | | |ys| | |]; try done.
    rewrite merge_StructOf in Hm.
    destruct (merge_fields merge fs xs ys h) as [[[c1 xs'] h1]|] eqn:E; [|done].
    simpl in Hm. injection Hm as -> <- <-. simpl.
    by eapply merge_fields_unchanged.
  - intros kt et Hme _ Σ0 h0 Σ h a b a' h' Hok0 Ha0 Hp Hok Ha Hb Hm.
    destruct a as [| | | | | |ra| |]; try done. destruct b as [| | | | | |rb| |]; try done.
    rewrite merge_MapOf in Hm.
    destruct rb as [lb|]; cycle 1.
    { assert (a' = VMap ra ∧ h' = h) as [-> ->].
      { unfold merge_map in Hm. destruct ra; by injection Hm as <- <-. }
      split; [done|]. by eapply (deep_rel_refl _ Σ0 h0). }
    simpl in Hb. destruct (heap_ok_lookup _ _ _ _ Hok Hb) as [mb Hmb].
    destruct ra as [la|].
    + unfold merge_map in Hm. rewrite Hmb in Hm.
      destruct (merge_keys merge et la lb (MapKeys mb) false h) as [[c1 h1]|] eqn:E; [|done].
      simpl in Hm. injection Hm as -> <- <-.
      apply merge_keys_unchanged in E as [_ Hp']; [|done].
      split; [done|]. eapply (deep_rel_refl _ Σ0 h0); try done. by etrans.
    + rewrite (merge_map_copy MapKeys_ok _ _ _ _ _ Hmb) in Hm.
      injection Hm as Hc <- <-.
      apply negb_false_iff, bool_decide_eq_true in Hc as ->.
      split; [by apply prefix_app_r|]. split; [done|].
      exists ∅, ∅. split_and!; try done.
      simpl. rewrite lookup_app_r by done. by rewrite Nat.sub_diag.
  - intros t Ht IH Σ0 h0 Σ h a b a' h'. rewrite merge_underlying by done.
    rewrite !(has_type_underlying _ t), deep_rel_underlying. apply IH.
Qed.
End unchanged.

(** ** The references a merge creates *)

Lemma inner_SetMapIndex h la k v l :
  inner (SetMapIndex la k v h) l → inner h l ∨ l ∈ refs v.
Proof.
  unfold SetMapIndex. destruct (h !! la) as [ma|] eqn:Hla; [|auto].
  intros (l0 & m & k' & v' & Hl0 & Hk' & Hl).
  destruct (decide (l0 = la)) as [->|Hne].
  - rewrite list_lookup_insert_eq in Hl0 by (by eapply lookup_lt_Some).
    injection Hl0 as <-. destruct (decide (k' = k)) as [->|Hk].
    + rewrite lookup_insert_eq in Hk'. injection Hk' as <-. auto.
    + rewrite lookup_insert_ne in Hk' by done. left. by exists la, ma, k', v'.
  - rewrite list_lookup_insert_ne in Hl0 by done. left. by exists l0, m, k', v'.
Qed.

Lemma inner_alloc h lb mb l :
  h !! lb = Some mb → inner (h ++ [mb]) l → inner h l.
Proof.
  intros Hlb (l0 & m & k & v & Hl0 & Hk & Hl).
  destruct (decide (l0 < length h)) as [Hlt|Hge].
  - rewrite lookup_app_l in Hl0 by done. by exists l0, m, k, v.
  - rewrite lookup_app_r in Hl0 by lia.
    destruct (l0 - length h) as [|i]; simpl in Hl0; [|by destruct i].
    injection Hl0 as <-. by exists lb, mb, k, v.
Qed.

Section created.
Context {P : program} (MapKeys_ok : MapKeys_spec P).

Lemma merge_fields_created fs :
  Forall (λ f : field, field_PkgPath f = "" ∧ mergeable (field_Type f) = true ∧
    ∀ Σ h a b c a' h',
      heap_ok Σ h → has_type Σ (field_Type f) a → has_type Σ (field_Type f) b →
      merge (field_Type f) a b h = Ok (c, a', h') →
      (NoDup (refs a) → NoDup (refs a'))
      ∧ ∀ l, inner h' l → inner h l ∨ (length h ≤ l ∧ l ∉ refs a')) fs →
  ∀ Σ h xs ys c xs' h',
    heap_ok Σ h → fields_all (has_type Σ) fs xs → fields_all (has_type Σ) fs ys →
    merge_fields merge fs xs ys h = Ok (c, xs', h') →
    (NoDup (flat_map refs xs) → NoDup (flat_map refs xs'))
    ∧ ∀ l, inner h' l → inner h l ∨ (length h ≤ l ∧ l ∉ flat_map refs xs').
Proof.
  induction 1 as [|f fs (_ & Hme & Hf) Hfs IH]; intros Σ h xs ys c xs' h' Hok Hxs Hys Hm.
  - destruct xs, ys; try done. injection Hm as <- <- <-. auto.
  - destruct xs as [|x xs], ys as [|y ys]; try done. simpl in *.
    destruct Hxs as [Hx Hxs], Hys as [Hy Hys].
    destruct (negb _); [done|].
    destruct (merge (field_Type f) x y h) as [[[c1 x'] h1]|] eqn:E1; [|done].
    simpl in Hm.
    destruct (merge_fields merge fs xs ys h1) as [[[cs xs''] h2]|] eqn:E2; [|done].
    simpl in Hm. injection Hm as <- <- <-.
    destruct (Hf _ _ _ _ _ _ _ Hok Hx Hy E1) as (Hnd1 & Hin1).
    destruct (merge_typed MapKeys_ok _ _ _ _ _ _ _ _ Hme Hok Hx Hy E1)
      as (Σ1 & HΣ1 & Hok1 & Hx').
    assert (Hxs1 : fields_all (has_type Σ1) fs xs).
    { eapply fields_all_impl; [|exact Hxs]. apply Forall_forall.
      intros ????. by eapply has_type_weaken. }
    assert (Hys1 : fields_all (has_type Σ1) fs ys).
    { eapply fields_all_impl; [|exact Hys]. apply Forall_forall.
      intros ????. by eapply has_type_weaken. }
    destruct (IH _ _ _ _ _ _ _ Hok1 Hxs1 Hys1 E2) as (Hnd2 & Hin2).
    destruct (merge_frame _ Hme _ _ _ _ _ _ E1) as [[Hlen1 _] Hr1].
    assert (Hfr2 : ∀ l, l ∈ flat_map refs xs'' → l ∈ flat_map refs xs ∨ length h1 ≤ l).
    { eapply merge_fields_frame; [|exact E2].
      eapply Forall_impl; [exact Hfs|]. simpl. intros f' (_ & Hme' & _).
      by apply merge_frame. }
    assert (Hlen : length Σ = length h) by by destruct Hok.
    assert (Hlen' : length Σ1 = length h1) by by destruct Hok1.
    assert (Hvx : ∀ l, l ∈ refs x → l < length h).
    { intros l Hl. rewrite <- Hlen. by apply (refs_typed Σ (field_Type f) x). }
    assert (Hvx' : ∀ l, l ∈ refs x' → l < length h1).
    { intros l Hl. rewrite <- Hlen'. by apply (refs_typed Σ1 (field_Type f) x'). }
    assert (Hvxs : ∀ l, l ∈ flat_map refs xs → l < length h).
    { intros l Hl. rewrite <- Hlen.
      apply (refs_typed Σ (StructOf fs) (VStruct xs)); done. }
    split.
    + intros Hnd. apply NoDup_app in Hnd as (Hndx & Hdisj & Hndxs).
      apply NoDup_app. split_and!; [auto| |auto].
      intros l Hl1 Hl2.
      destruct (Hr1 l Hl1) as [Hl1'|Hl1'], (Hfr2 l Hl2) as [Hl2'|Hl2'].
      * by apply (Hdisj l).
      * apply Hvx in Hl1'. lia.
      * apply Hvxs in Hl2'. lia.
      * apply Hvx' in Hl1. lia.
    + intros l Hl. destruct (Hin2 l Hl) as [Hl1|[Hge Hnot]].
      * destruct (Hin1 l Hl1) as [?|[Hge Hnot]]; [by left|]. right.
        split; [done|]. intros Hin. apply elem_of_app in Hin as [?|Hin]; [done|].
        destruct (Hfr2 l Hin) as [Hold|Hnew].
        -- apply Hvxs in Hold. lia.
        -- pose proof (inner_valid _ _ _ Hok1 Hl1). lia.
      * right. split; [lia|]. intros Hin. apply elem_of_app in Hin as [Hin|?]; [|done].
        apply Hvx' in Hin. lia.
Qed.

Lemma merge_keys_created et la lb :
  mergeable et = true →
  (∀ Σ h a b c a' h',
     heap_ok Σ h → has_type Σ et a → has_type Σ et b →
     merge et a b h = Ok (c, a', h') →
     (NoDup (refs a) → NoDup (refs a'))
     ∧ ∀ l, inner h' l → inner h l ∨ (length h ≤ l ∧ l ∉ refs a')) →
  ∀ keys changed Σ h c h',
    heap_ok Σ h → Σ !! la = Some et → Σ !! lb = Some et →
    merge_keys merge et la lb keys changed h = Ok (c, h') →
    ∀ l, inner h' l → inner h l ∨ length h ≤ l.
Proof.
  intros Hme Het. induction keys as [|key keys IH]; intros changed Σ h c h' Hok Hla Hlb Hm.
  - injection Hm as <- <-. auto.
  - simpl in Hm.
    destruct (h !! la) as [ma|] eqn:Hma; [|done].
    destruct (h !! lb) as [mb|] eqn:Hmb; [|done].
    destruct (mb !! key) as [bValue|] eqn:HbValue; [|done].
    assert (Hb : has_type Σ et bValue) by (destruct Hok as [_ Hok]; eauto).
    destruct (ma !! key) as [aValue|] eqn:HaValue.
    + assert (Ha : has_type Σ et aValue) by (destruct Hok as [_ Hok]; eauto).
      destruct (merge et (zero et) aValue h) as [[[c1 n1] h1]|] eqn:E1; [|done].
      simpl in Hm.
      destruct (merge et n1 bValue h1) as [[[c2 n2] h2]|] eqn:E2; [|done].
      simpl in Hm.
      destruct (merge_typed MapKeys_ok _ _ _ _ _ _ _ _ Hme Hok (zero_typed _ _) Ha E1)
        as (Σ1 & HΣ1 & Hok1 & Hn1).
      assert (Hb1 : has_type Σ1 et bValue) by by eapply has_type_weaken.
      destruct (merge_typed MapKeys_ok _ _ _ _ _ _ _ _ Hme Hok1 Hn1 Hb1 E2)
        as (Σ2 & HΣ2 & Hok2 & Hn2).
      destruct (Het _ _ _ _ _ _ _ Hok (zero_typed _ _) Ha E1) as (_ & Hin1).
      destruct (Het _ _ _ _ _ _ _ Hok1 Hn1 Hb1 E2) as (_ & Hin2).
      destruct (scratch_frame _ _ _ _ _ _ _ _ _ _ Hme E1 E2) as ([Hlen2 _] & Hlen1 & _ & Hr2).
      assert (HΣ : ∀ l' , Σ !! l' = Some et → Σ2 !! l' = Some et).
      { intros l' Hl'. eapply prefix_lookup_Some; [|done]. by eapply prefix_lookup_Some. }
      assert (Hin : ∀ l, inner h2 l → inner h l ∨ length h ≤ l).
      { intros l Hl. destruct (Hin2 l Hl) as [Hl1|[? _]]; [|right; lia].
        destruct (Hin1 l Hl1) as [?|[? _]]; auto. }
      intros l Hl. destruct c2.
      * eapply IH in Hm; [| |by apply HΣ|by apply HΣ|exact Hl].
        2:{ eapply heap_ok_SetMapIndex; eauto. }
        destruct Hm as [Hl3|Hge].
        -- apply inner_SetMapIndex in Hl3 as [?|?]; auto.
        -- right. unfold SetMapIndex in Hge. destruct (h2 !! la); [|lia].
           rewrite length_insert in Hge. lia.
      * eapply IH in Hm; [|done|by apply HΣ|by apply HΣ|exact Hl].
        destruct Hm as [?|?]; [auto|right; lia].
    + intros l Hl.
      eapply IH in Hm; [| |done|done|exact Hl].
      2:{ eapply heap_ok_SetMapIndex; eauto. }
      destruct Hm as [Hl3|Hge].
      * apply inner_SetMapIndex in Hl3 as [?|?]; [auto|].
        left. by exists lb, mb, key, bValue.
      * right. unfold SetMapIndex in Hge. rewrite Hma, length_insert in Hge. lia.
Qed.

(** The references a target gains are distinct, and refer to objects that
    no map has as an element. *)
Lemma merge_created t :
  mergeable t = true →
  ∀ Σ h a b c a' h',
    heap_ok Σ h → has_type Σ t a → has_type Σ t b →
    merge t a b h = Ok (c, a', h') →
    (NoDup (refs a) → NoDup (refs a'))
    ∧ ∀ l, inner h' l → inner h l ∨ (length h ≤ l ∧ l ∉ refs a').
Proof.
  revert t. apply (mergeable_ind (λ t, ∀ Σ h a b c a' h',
    heap_ok Σ h → has_type Σ t a → has_type Σ t b →
    merge t a b h = Ok (c, a', h') →
    (NoDup (refs a) → NoDup (refs a'))
    ∧ ∀ l, inner h' l → inner h l ∨ (length h ≤ l ∧ l ∉ refs a'))).
  - intros T Ho Σ h a b c a' h' _ _ _. rewrite merge_Basic, Ho.
    destruct (greater _ _) as [g|] eqn:Eg; [|done]. simpl.
    apply greater_Ok_refs in Eg as [Ha Hb].
    destruct g; intros [= <- <- <-]; rewrite ?Ha, ?Hb; (split; [intros; apply NoDup_nil_2|auto]).
  - intros fs Hfs Σ h a b c a' h' Hok Ha Hb Hm.
    destruct a as [| | | | |xs| | |]; try done. destruct b as [| | | | |ys| | |]; try done.
    rewrite merge_StructOf in Hm.
    destruct (merge_fields merge fs xs ys h) as [[[c1 xs'] h1]|] eqn:E; [|done].
    simpl in Hm. injection Hm as <- <- <-. simpl.
    by eapply merge_fields_created.
  - intros kt et Hme Het Σ h a b c a' h' Hok Ha Hb Hm.
    destruct a as [| | | | | |ra| |]; try done. destruct b as [| | | | | |rb| |]; try done.
    rewrite merge_MapOf in Hm.
    destruct rb as [lb|]; cycle 1.
    { assert (a' = VMap ra ∧ h' = h) as [-> ->].
      { unfold merge_map in Hm. destruct ra; by injection Hm as _ <- <-. }
      auto. }
    simpl in Hb. destruct (heap_ok_lookup _ _ _ _ Hok Hb) as [mb Hmb].
    destruct ra as [la|].
    + unfold merge_map in Hm. rewrite Hmb in Hm.
      destruct (merge_keys merge et la lb (MapKeys mb) false h) as [[c1 h1]|] eqn:E; [|done].
      simpl in Hm. injection Hm as <- <- <-. split; [done|].
      intros l Hl. simpl in Ha.
      destruct (merge_keys_created et la lb Hme Het _ _ _ _ _ _ Hok Ha Hb E l Hl) as [?|Hge];
        [by left|]. right. split; [done|]. simpl.
      intros Hin. apply list_elem_of_singleton in Hin as ->.
      apply lookup_lt_Some in Ha. destruct Hok as [Hlen _]. lia.
    + rewrite (merge_map_copy MapKeys_ok _ _ _ _ _ Hmb) in Hm.
      injection Hm as <- <- <-. split; [intros; apply NoDup_singleton|].
      intros l Hl. left. by eapply inner_alloc.
  - intros t Ht IH Σ h a b c a' h'. rewrite merge_underlying by done.
    rewrite !(has_type_underlying _ t). apply IH.
Qed.
End created.

(** ** A merge that reports a change *)

Section changed.
Context {P : program} (MapKeys_ok : MapKeys_spec P).

Local Abbreviation change_is_visible t :=
  (∀ Σ h a b a' h',
     heap_ok Σ h → has_type Σ t a → has_type Σ t b → unshared h a →
     merge t a b h = Ok (true, a', h') → ¬ deep_rel false h h' t a a').

Lemma merge_fields_changed fs :
  Forall (λ f : field, field_PkgPath f = "" ∧ mergeable (field_Type f) = true ∧
                       change_is_visible (field_Type f)) fs →
  ∀ Σ h xs ys xs' h',
    heap_ok Σ h → fields_all (has_type Σ) fs xs → fields_all (has_type Σ) fs ys →
    NoDup (flat_map refs xs) →
    (∀ l, l ∈ flat_map refs xs → ¬ inner h l) →
    merge_fields merge fs xs ys h = Ok (true, xs', h') →
    ¬ fields_all2 (deep_rel false h h') fs xs xs'.
Proof.
  induction 1 as [|f fs (_ & Hme & Hf) Hfs IH];
    intros Σ h xs ys xs' h' Hok Hxs Hys Hnd Hun Hm.
  - destruct xs, ys; try done.
  - destruct xs as [|x xs], ys as [|y ys]; try done. simpl in *.
    destruct Hxs as [Hx Hxs], Hys as [Hy Hys].
    destruct (negb _); [done|].
    destruct (merge (field_Type f) x y h) as [[[c1 x'] h1]|] eqn:E1; [|done].
    simpl in Hm.
    destruct (merge_fields merge fs xs ys h1) as [[[cs xs''] h2]|] eqn:E2; [|done].
    simpl in Hm. injection Hm as Hc <- <-.
    apply NoDup_app in Hnd as (Hndx & Hdisj & Hndxs).
    destruct (merge_typed MapKeys_ok _ _ _ _ _ _ _ _ Hme Hok Hx Hy E1)
      as (Σ1 & HΣ1 & Hok1 & Hx').
    destruct (merge_created MapKeys_ok _ Hme _ _ _ _ _ _ _ Hok Hx Hy E1) as (_ & Hin1).
    destruct (merge_frame _ Hme _ _ _ _ _ _ E1) as [Hw1 Hr1].
    assert (Hlen : length Σ = length h) by by destruct Hok.
    assert (Hvxs : ∀ l, l ∈ flat_map refs xs → l < length h).
    { intros l Hl. rewrite <- Hlen.
      apply (refs_typed Σ (StructOf fs) (VStruct xs)); done. }
    assert (Hin : ∀ l, l ∈ flat_map refs xs → ¬ inner h1 l).
    { intros l Hl Hinl. destruct (Hin1 l Hinl) as [?|[? _]].
      - apply (Hun l); [|done]. apply elem_of_app. by right.
      - apply Hvxs in Hl. lia. }
    intros [Hrx Hrxs]. destruct c1.
    + eapply Hf; [exact Hok|exact Hx|exact Hy| |exact E1|].
      { split; [done|]. intros l Hl. apply Hun, elem_of_app. by left. }
      eapply (deep_rel_earlier_r _ Σ1 h1 (flat_map refs xs) h2); try done.
      * eapply merge_fields_frame; [|exact E2].
        eapply Forall_impl; [exact Hfs|]. simpl. intros f' (_ & Hme' & _).
        by apply merge_frame.
      * intros l Hl Hlx'. destruct (Hr1 l Hlx') as [?|?].
        -- by apply (Hdisj l).
        -- apply Hvxs in Hl. lia.
    + simpl in Hc. subst cs.
      destruct (merge_unchanged MapKeys_ok _ Hme Σ h Σ h x y x' h1) as (Hp1 & _); try done.
      eapply (IH Σ1 h1 xs ys xs'' h2); try done.
      * eapply fields_all_impl; [|exact Hxs]. apply Forall_forall.
        intros ????. by eapply has_type_weaken.
      * eapply fields_all_impl; [|exact Hys]. apply Forall_forall.
        intros ????. by eapply has_type_weaken.
      * eapply fields_all2_impl; [|exact Hrxs]. apply Forall_forall.
        intros ????. by apply deep_rel_prefix.
Qed.

(** The map loop: where it sets the flag it stores, under a key of the
    source, an element that differs from the one the target had there, and
    no later step touches that key. *)
Lemma merge_keys_changed et la lb :
  mergeable et = true → change_is_visible et → la ≠ lb →
  ∀ keys changed Σ h c h',
    heap_ok Σ h → Σ !! la = Some et → Σ !! lb = Some et →
    ¬ inner h la → NoDup keys →
    merge_keys merge et la lb keys changed h = Ok (c, h') →
    ∃ ma ma', h !! la = Some ma ∧ h' !! la = Some ma'
      ∧ (∀ k, k ∉ keys → ma' !! k = ma !! k)
      ∧ (c = true → changed = true ∨
           ∃ k, k ∈ keys ∧ ¬ entry_rel (deep_rel false h h' et) (ma !! k) (ma' !! k)).
Proof.
  intros Hme Het Hne.
  induction keys as [|key keys IH]; intros changed Σ h c h' Hok Hla Hlb Hnin Hnd Hm.
  - injection Hm as <- <-.
    destruct (heap_ok_lookup _ _ _ _ Hok Hla) as [ma Hma].
    exists ma, ma. split_and!; auto.
  - apply NoDup_cons in Hnd as [Hkey Hnd].
    pose proof Hm as Hwhole. apply merge_keys_frame in Hwhole; [|by apply merge_frame].
    simpl in Hm.
    destruct (h !! la) as [ma|] eqn:Hma; [|done].
    destruct (h !! lb) as [mb|] eqn:Hmb; [|done].
    destruct (mb !! key) as [bValue|] eqn:HbValue; [|done].
    assert (Hb : has_type Σ et bValue) by (destruct Hok as [_ Hok']; eauto).
    assert (Hlen : length Σ = length h) by by destruct Hok.
    assert (Hlt : la < length h) by by eapply lookup_lt_Some.
    destruct (ma !! key) as [aValue|] eqn:HaValue.
    + assert (Ha : has_type Σ et aValue) by (destruct Hok as [_ Hok']; eauto).
      destruct (merge et (zero et) aValue h) as [[[c1 n1] h1]|] eqn:E1; [|done].
      simpl in Hm.
      destruct (merge et n1 bValue h1) as [[[c2 n2] h2]|] eqn:E2; [|done].
      simpl in Hm.
      destruct (merge_typed MapKeys_ok _ _ _ _ _ _ _ _ Hme Hok (zero_typed _ _) Ha E1)
        as (Σ1 & HΣ1 & Hok1 & Hn1).
      assert (Hb1 : has_type Σ1 et bValue) by by eapply has_type_weaken.
      destruct (merge_typed MapKeys_ok _ _ _ _ _ _ _ _ Hme Hok1 Hn1 Hb1 E2)
        as (Σ2 & HΣ2 & Hok2 & Hn2).
      destruct (merge_created MapKeys_ok _ Hme _ _ _ _ _ _ _ Hok (zero_typed _ _) Ha E1)
        as (Hnd1 & Hin1).
      destruct (merge_created MapKeys_ok _ Hme _ _ _ _ _ _ _ Hok1 Hn1 Hb1 E2) as (_ & Hin2).
      destruct (scratch_frame _ _ _ _ _ _ _ _ _ _ Hme E1 E2) as (Hw & Hlen1 & Hr1 & Hr2).
      assert (HΣ : ∀ l' , Σ !! l' = Some et → Σ2 !! l' = Some et).
      { intros l' Hl'. eapply prefix_lookup_Some; [|done]. by eapply prefix_lookup_Some. }
      assert (Hma2 : h2 !! la = Some ma).
      { eapply writes_within_lookup; [done..|]. apply not_elem_of_nil. }
      assert (Hnin2 : ¬ inner h2 la).
      { intros Hl. destruct (Hin2 la Hl) as [Hl1|[? _]]; [|lia].
        destruct (Hin1 la Hl1) as [?|[? _]]; [done|lia]. }
      destruct c2.
      * assert (Hma3 : SetMapIndex la key n2 h2 !! la = Some (<[key := n2]> ma)).
        { unfold SetMapIndex. rewrite Hma2.
          apply list_lookup_insert_eq. by eapply lookup_lt_Some. }
        pose proof Hm as Hrest. apply merge_keys_frame in Hrest; [|by apply merge_frame].
        eapply IH in Hm; [| |by apply HΣ|by apply HΣ| |done].
        2:{ eapply heap_ok_SetMapIndex; eauto. }
        2:{ intros Hl. apply inner_SetMapIndex in Hl as [?|Hl]; [done|].
            apply Hr2 in Hl. lia. }
        destruct Hm as (ma3 & ma' & Hma3' & Hma' & Hsame & _).
        rewrite Hma3 in Hma3'. injection Hma3' as <-.
        exists ma, ma'. split_and!; try done.
        { intros k Hk. rewrite Hsame.
          - apply lookup_insert_ne. intros ->. apply Hk, list_elem_of_here.
          - intros Hin. apply Hk. by apply list_elem_of_further. }
        intros _. right. exists key. split; [apply list_elem_of_here|].
        rewrite HaValue, (Hsame key Hkey), lookup_insert_eq. simpl. intros Hrel.
        assert (Hrel2 : deep_rel false h h2 et aValue n2).
        { eapply (deep_rel_earlier_r _ Σ2 h2 [la] h'); try done.
          - eapply writes_within_trans; [apply writes_within_SetMapIndex|exact Hrest|auto].
          - intros l Hl. by apply list_elem_of_singleton in Hl as ->.
          - intros l Hl Hl2. apply list_elem_of_singleton in Hl as ->.
            apply Hr2 in Hl2. lia. }
        destruct (merge_zero_above MapKeys_ok _ Hme Σ h h aValue c1 n1 h1)
          as (_ & Hz1 & Hrel1); try done.
        assert (Hz2 : at_least_zero et n2) by by eapply merge_above.
        assert (Hza : at_least_zero et aValue) by by eapply at_least_zero_deep_rel.
        eapply (Het Σ1 h1 n1 bValue n2 h2); try done.
        -- split; [apply Hnd1; rewrite refs_zero; apply NoDup_nil_2|].
           intros l Hl Hinl. destruct (Hin1 l Hinl) as [Hold|[_ ?]]; [|done].
           pose proof (inner_valid _ _ _ Hok Hold). apply Hr1 in Hl. lia.
        -- eapply deep_rel_trans; [|exact Hrel2]. apply deep_rel_sym. auto.
      * eapply IH in Hm; [|done|by apply HΣ|by apply HΣ|done|done].
        destruct Hm as (ma2 & ma' & Hma2' & Hma' & Hsame & Hch).
        rewrite Hma2 in Hma2'. injection Hma2' as <-.
        exists ma, ma'. split_and!; try done.
        { intros k Hk. apply Hsame. intros Hin. apply Hk. by apply list_elem_of_further. }
        intros Hc. destruct (Hch Hc) as [?|(k & Hk & Hrel)]; [by left|]. right.
        exists k. split; [by apply list_elem_of_further|].
        intros Hrel'. apply Hrel. eapply entry_rel_impl; [|exact Hrel'].
        intros ??. apply deep_rel_prefix; [|done]. by apply writes_within_prefix.
    + assert (Hma3 : SetMapIndex la key bValue h !! la = Some (<[key := bValue]> ma)).
      { unfold SetMapIndex. rewrite Hma. by apply list_lookup_insert_eq. }
      eapply IH in Hm; [| |done|done| |done].
      2:{ eapply heap_ok_SetMapIndex; eauto. }
      2:{ intros Hl. apply inner_SetMapIndex in Hl as [?|Hl]; [done|].
          apply Hnin. by exists lb, mb, key, bValue. }
      destruct Hm as (ma3 & ma' & Hma3' & Hma' & Hsame & _).
      rewrite Hma3 in Hma3'. injection Hma3' as <-.
      exists ma, ma'. split_and!; try done.
      { intros k Hk. rewrite Hsame.
        - apply lookup_insert_ne. intros ->. apply Hk, list_elem_of_here.
        - intros Hin. apply Hk. by apply list_elem_of_further. }
      intros _. right. exists key. split; [apply list_elem_of_here|].
      rewrite HaValue, (Hsame key Hkey), lookup_insert_eq. simpl. tauto.
Qed.

(** When [merge] returns true the target has another value than before,
    even with nil maps taken for empty ones. *)
Lemma merge_changed t : mergeable t = true → change_is_visible t.
Proof.
  revert t. apply (mergeable_ind (λ t, change_is_visible t)).
  - intros T Ho Σ h a b a' h' _ _ _ _. rewrite merge_Basic, Ho.
    destruct (greater _ _) as [[]|] eqn:Eg; try done. simpl.
    intros [= <- <-] <-. by apply greater_irrefl in Eg.
  - intros fs Hfs Σ h a b a' h' Hok Ha Hb [Hnd Hun] Hm.
    destruct a as [| | | | |xs| | |]; try done. destruct b as [| | | | |ys| | |]; try done.
    rewrite merge_StructOf in Hm.
    destruct (merge_fields merge fs xs ys h) as [[[c1 xs'] h1]|] eqn:E; [|done].
    simpl in Hm. injection Hm as -> <- <-. simpl.
    by eapply merge_fields_changed.
  - intros kt et Hme Het Σ h a b a' h' Hok Ha Hb [Hnd Hun] Hm.
    destruct a as [| | | | | |ra| |]; try done. destruct b as [| | | | | |rb| |]; try done.
    rewrite merge_MapOf in Hm.
    destruct rb as [lb|]; cycle 1.
    { unfold merge_map in Hm. by destruct ra. }
    simpl in Hb. destruct (heap_ok_lookup _ _ _ _ Hok Hb) as [mb Hmb].
    destruct ra as [la|].
    + simpl in Ha. pose proof (Hun la (list_elem_of_here _ _)) as Hnin.
      destruct (decide (la = lb)) as [->|Hne].
      { assert (Hmm : mergeable (MapOf kt et) = true) by done.
        destruct (idempotence_by_type MapKeys_ok _ Hmm) as (HI & _).
        rewrite <- (merge_MapOf kt) in Hm.
        by destruct (HI h (VMap (Some lb)) (VMap (Some lb)) true a' h'
                       (deep_rel_refl true Σ h h h (MapOf kt et) (VMap (Some lb)) Hok
                          (reflexivity _) (reflexivity _) Ha) Hm). }
      unfold merge_map in Hm. rewrite Hmb in Hm.
      destruct (merge_keys merge et la lb (MapKeys mb) false h) as [[c1 h1]|] eqn:E; [|done].
      simpl in Hm. injection Hm as -> <- <-.
      destruct (merge_keys_changed et la lb Hme Het Hne _ _ _ _ _ _ Hok Ha Hb Hnin
                  (proj1 (MapKeys_ok mb)) E) as (ma & ma' & Hma & Hma' & _ & Hch).
      destruct (Hch eq_refl) as [?|(k & _ & Hrel)]; [done|].
      intros (_ & m1 & m2 & Hm1 & Hm2 & Hk). simpl in Hm1, Hm2.
      rewrite Hma in Hm1. rewrite Hma' in Hm2.
      injection Hm1 as <-. injection Hm2 as <-. apply Hrel, Hk.
    + rewrite (merge_map_copy MapKeys_ok _ _ _ _ _ Hmb) in Hm.
      injection Hm as Hc <- <-.
      apply negb_true_iff, bool_decide_eq_false in Hc.
      intros (_ & m1 & m2 & Hm1 & Hm2 & Hk). simpl in Hm1, Hm2.
      injection Hm1 as <-.
      rewrite lookup_app_r, Nat.sub_diag in Hm2 by done. injection Hm2 as <-.
      apply Hc, map_eq. intros k. specialize (Hk k).
      rewrite lookup_empty in *. by destruct (mb !! k).
  - intros t Ht IH Σ h a b a' h'. rewrite merge_underlying by done.
    rewrite !(has_type_underlying _ t), deep_rel_underlying. apply IH.
Qed.

End changed.


(** * Further properties of the engine *)

(** ** Well-typed merges *)

Lemma heap_ok_nil : heap_ok [] [].
Proof. split; [reflexivity|]. intros l et m k v H. by destruct l. Qed.

(** The heap [count_heap] holds two maps of integers. *)
Lemma count_heap_ok : heap_ok [Basic Tint; Basic Tint] count_heap.
Proof.
  split; [reflexivity|].
  intros [|[|l]] et m k v HΣ Hh Hm; try done;
    injection HΣ as <-; injection Hh as <-;
    apply lookup_singleton_Some in Hm as [_ <-]; simpl; lia.
Qed.

(** The heap [low_heap] holds two maps of [decreasingInt]s. *)
Lemma low_heap_ok : heap_ok [decreasingInt; decreasingInt] low_heap.
Proof.
  split; [reflexivity|].
  intros [|[|l]] et m k v HΣ Hh Hm; try done;
    injection HΣ as <-; injection Hh as <-;
    apply lookup_singleton_Some in Hm as [_ <-]; simpl; lia.
Qed.

Section well_typed.
Context {P : program} (MapKeys_ok : MapKeys_spec P).

(** X1.  On a mergeable type, [Merge] of a well-typed source into a
    well-typed target does not panic, and it leaves a well-typed target in
    a well-typed heap: the heap typing only grows by the objects made. *)
Theorem Merge_of_well_typed_values_returns t Σ h a b :
  mergeable t = true → heap_ok Σ h → has_type Σ t a → has_type Σ t b →
  ∃ changed a' h' Σ',
    Merge (addr t a) (Some (t, b)) h = Ok (changed, a', h')
    ∧ Σ `prefix_of` Σ' ∧ heap_ok Σ' h' ∧ has_type Σ' t a'.
Proof.
  intros Ht Hh Ha Hb. rewrite Merge_addr.
  destruct (merge_total MapKeys_ok t Ht Σ h a b Hh Ha Hb)
    as (c & a' & h' & Σ' & Hm & Hpre & Hok & Hty & _).
  by exists c, a', h', Σ'.
Qed.

(** X2.  [Merge] never deletes: every map object of the heap is still
    there after it, and holds a value under every key it had one under. *)
Theorem Merge_never_removes_a_key t Σ h a b :
  mergeable t = true → heap_ok Σ h → has_type Σ t a → has_type Σ t b →
  ∃ changed a' h',
    Merge (addr t a) (Some (t, b)) h = Ok (changed, a', h')
    ∧ ∀ l m k, h !! l = Some m → is_Some (m !! k) →
        ∃ m', h' !! l = Some m' ∧ is_Some (m' !! k).
Proof.
  intros Ht Hh Ha Hb. rewrite Merge_addr.
  destruct (merge_total MapKeys_ok t Ht Σ h a b Hh Ha Hb)
    as (c & a' & h' & Σ' & Hm & _ & _ & _ & Hgrow).
  by exists c, a', h'.
Qed.

(** X3.  [Merge] writes to the map objects the target holds directly, in
    its struct fields, and to no other object of the heap: not to the
    source's, not to a map that is an element of a map.  The maps the
    target holds afterwards are maps it held or objects made by the call. *)
Theorem Merge_writes_only_to_the_target t Σ h a b :
  mergeable t = true → heap_ok Σ h → has_type Σ t a → has_type Σ t b →
  ∃ changed a' h',
    Merge (addr t a) (Some (t, b)) h = Ok (changed, a', h')
    ∧ length h ≤ length h'
    ∧ (∀ l, l < length h → l ∉ refs a → h' !! l = h !! l)
    ∧ (∀ l, l ∈ refs a' → l ∈ refs a ∨ length h ≤ l).
Proof.
  intros Ht Hh Ha Hb. rewrite Merge_addr.
  destruct (merge_total MapKeys_ok t Ht Σ h a b Hh Ha Hb)
    as (c & a' & h' & Σ' & Hm & _).
  destruct (merge_frame t Ht h a b c a' h' Hm) as [[Hlen Hw] Hrefs].
  by exists c, a', h'.
Qed.

(** X4.  When [Merge] returns false it has written to no map object of the
    heap, whatever the aliasing between the target and the source: the old
    heap is a prefix of the new one, and the target has the value it had,
    a nil map that was made an empty map apart. *)
Theorem unchanged_Merge_writes_nothing t Σ h a b a' h' :
  mergeable t = true → heap_ok Σ h → has_type Σ t a → has_type Σ t b →
  Merge (addr t a) (Some (t, b)) h = Ok (false, a', h') →
  h `prefix_of` h' ∧ same_value h h' t a a'.
Proof.
  intros Ht Hh Ha Hb. rewrite Merge_addr. intros Hm.
  by apply (merge_unchanged MapKeys_ok t Ht Σ h Σ h a b a' h').
Qed.
End well_typed.

(** X1 on [Merge(&{1: 2}, {2: 3})]. *)
Lemma Merge_of_well_typed_values_returns_witness :
  ∃ changed a' h' Σ',
    @Merge plain_program (addr int_map (VMap (Some 0))) (Some (int_map, VMap (Some 1)))
      count_heap = Ok (changed, a', h')
    ∧ [Basic Tint; Basic Tint] `prefix_of` Σ' ∧ heap_ok Σ' h'
    ∧ has_type Σ' int_map a'.
Proof.
  apply (Merge_of_well_typed_values_returns (P := plain_program)
           (sorted_keys_spec plain_program eq_refl) int_map _ _ _ _ eq_refl count_heap_ok);
    reflexivity.
Defined.

(** X2 on [Merge(&{1: 2}, {2: 3})]. *)
Lemma Merge_never_removes_a_key_witness :
  ∃ changed a' h',
    @Merge plain_program (addr int_map (VMap (Some 0))) (Some (int_map, VMap (Some 1)))
      count_heap = Ok (changed, a', h')
    ∧ ∀ l m k, count_heap !! l = Some m → is_Some (m !! k) →
        ∃ m', h' !! l = Some m' ∧ is_Some (m' !! k).
Proof.
  apply (Merge_never_removes_a_key (P := plain_program)
           (sorted_keys_spec plain_program eq_refl) int_map _ _ _ _ eq_refl count_heap_ok);
    reflexivity.
Defined.

(** X3 on [Merge(&{1: 2}, {2: 3})]. *)
Lemma Merge_writes_only_to_the_target_witness :
  ∃ changed a' h',
    @Merge plain_program (addr int_map (VMap (Some 0))) (Some (int_map, VMap (Some 1)))
      count_heap = Ok (changed, a', h')
    ∧ length count_heap ≤ length h'
    ∧ (∀ l, l < length count_heap → l ∉ refs (VMap (Some 0)) → h' !! l = count_heap !! l)
    ∧ (∀ l, l ∈ refs a' → l ∈ refs (VMap (Some 0)) ∨ length count_heap ≤ l).
Proof.
  apply (Merge_writes_only_to_the_target (P := plain_program)
           (sorted_keys_spec plain_program eq_refl) int_map _ _ _ _ eq_refl count_heap_ok);
    reflexivity.
Defined.

(** X4 on [Merge(&{1: -5}, {1: -3})], which returns false. *)
Lemma unchanged_Merge_writes_nothing_witness :
  neg_heap `prefix_of` neg_heap
  ∧ same_value neg_heap neg_heap int_map (VMap (Some 0)) (VMap (Some 0)).
Proof.
  apply (unchanged_Merge_writes_nothing (P := plain_program)
           (sorted_keys_spec plain_program eq_refl) int_map _ _ _ (VMap (Some 1)) _ _
           eq_refl neg_heap_ok).
  - reflexivity.
  - reflexivity.
  - vm_compute. reflexivity.
Defined.

(** ** Types without a strategy, and defined types *)

Section kinds.
Context {P : program}.

(** X5.  A defined struct or map type that is mergeable, so without a
    Merge method, is merged exactly as the type it is defined from. *)
Theorem defined_type_merges_as_its_underlying_type t a b h :
  mergeable t = true →
  Merge (addr t a) (Some (t, b)) h
  = Merge (addr (underlying t) a) (Some (underlying t, b)) h.
Proof. intros Ht. rewrite !Merge_addr. by apply merge_underlying. Qed.

(** X6.  A type without a Merge method whose kind is neither struct nor
    map nor one of the ordered kinds (a pointer, a slice, [uintptr], a
    complex type, or a type defined from one of these) makes [Merge] panic,
    whatever the values. *)
Theorem unsupported_kinds_panic t a b h :
  as_Merger t = None →
  (∃ e, underlying t = PtrTo e) ∨ (∃ e, underlying t = SliceOf e)
  ∨ (∃ T, underlying t = Basic T ∧ isOrdered (basic_Kind T) = false) →
  Merge (addr t a) (Some (t, b)) h
  = Panic ("don't know how to merge type " ++ type_String t).
Proof.
  intros Hm Hu. rewrite Merge_addr. unfold merge, with_Merger. rewrite Hm.
  rewrite dispatch_underlying.
  destruct Hu as [[e ->]|[[e ->]|(T & -> & Ho)]]; simpl; try done.
  by rewrite Ho.
Qed.

(** X7.  A defined type over an ordered scalar, such as [type Celsius
    float64], passes [isOrdered] but has no case in the type switch of
    [greater]: without a Merge method of its own, [Merge] panics in
    [greater] for every pair of values. *)
Theorem defined_scalar_type_panics n u T a b h :
  methods n = None → underlying u = Basic T → isOrdered (basic_Kind T) = true →
  Merge (addr (Named n u) a) (Some (Named n u, b)) h
  = Panic ("don't know how to handle type: " ++ n).
Proof.
  intros Hm Hu Ho. rewrite Merge_addr. unfold merge, with_Merger. simpl.
  rewrite Hm, dispatch_underlying, Hu. simpl. by rewrite Ho.
Qed.

(** X8.  A nil pointer as the target, a nil interface as the source of
    [Merge] or as either argument of [Join], panic in [reflect] before any
    merge is tried. *)
Theorem nil_arguments_panic A T a b x h :
  Kind A = reflect.Ptr →
  Merge (Some (A, VPtr None)) b h
  = Panic "reflect: call of reflect.Value.Type on zero Value"
  ∧ Merge (Some (A, VPtr (Some a))) None h
    = Panic "reflect: call of reflect.Value.Type on zero Value"
  ∧ Join None x h = Panic "reflect: call of reflect.Value.Type on zero Value"
  ∧ Join (Some (T, a)) None h
    = Panic "reflect: call of reflect.Value.Type on zero Value".
Proof.
  intros Hk. unfold Merge, Join. rewrite Hk. simpl.
  split_and!; try done; by destruct (Elem A).
Qed.
End kinds.

(** X5 on the map type [A] of the tests. *)
Lemma defined_type_merges_as_its_underlying_type_witness :
  @Merge test_program (addr A_map (VMap (Some 0))) (Some (A_map, VMap (Some 1))) count_heap
  = @Merge test_program (addr (underlying A_map) (VMap (Some 0)))
      (Some (underlying A_map, VMap (Some 1))) count_heap.
Proof.
  apply (defined_type_merges_as_its_underlying_type (P := test_program)). reflexivity.
Defined.

(** X6 on [Merge(&s, s)] for a slice [s] of type [[]int]. *)
Lemma unsupported_kinds_panic_witness :
  @Merge plain_program (addr (SliceOf (Basic Tint)) (VSlice []))
    (Some (SliceOf (Basic Tint), VSlice [])) []
  = Panic ("don't know how to merge type " ++ type_String (SliceOf (Basic Tint))).
Proof.
  apply (unsupported_kinds_panic (P := plain_program)).
  - reflexivity.
  - right. left. exists (Basic Tint). reflexivity.
Defined.

(** X7 on [type Celsius float64]. *)
Lemma defined_scalar_type_panics_witness :
  @Merge plain_program (addr (Named "Celsius" (Basic Tfloat64)) (VFloat (S754_zero false)))
    (Some (Named "Celsius" (Basic Tfloat64), VFloat (S754_finite false 1 0))) []
  = Panic ("don't know how to handle type: " ++ "Celsius").
Proof.
  apply (defined_scalar_type_panics (P := plain_program) "Celsius" (Basic Tfloat64) Tfloat64);
    reflexivity.
Defined.

(** X8 on a nil [*int] and on nil interfaces. *)
Lemma nil_arguments_panic_witness :
  @Merge plain_program (Some (PtrTo (Basic Tint), VPtr None)) (Some (Basic Tint, VInt 1)) []
  = Panic "reflect: call of reflect.Value.Type on zero Value"
  ∧ @Merge plain_program (Some (PtrTo (Basic Tint), VPtr (Some (VInt 1)))) None []
    = Panic "reflect: call of reflect.Value.Type on zero Value"
  ∧ @Join plain_program None (Some (Basic Tint, VInt 1)) []
    = Panic "reflect: call of reflect.Value.Type on zero Value"
  ∧ @Join plain_program (Some (Basic Tint, VInt 1)) None []
    = Panic "reflect: call of reflect.Value.Type on zero Value".
Proof.
  apply (nil_arguments_panic (P := plain_program) (PtrTo (Basic Tint))). reflexivity.
Defined.

(** ** [greater] is a strict order *)

Lemma ascii_compare_Lt_trans a b c :
  Ascii.compare a b = Lt → Ascii.compare b c = Lt → Ascii.compare a c = Lt.
Proof.
  unfold Ascii.compare. rewrite !N.compare_lt_iff. lia.
Qed.

Lemma string_compare_Lt_trans x : ∀ y w,
  String.compare x y = Lt → String.compare y w = Lt → String.compare x w = Lt.
Proof.
  induction x as [|a x IH]; intros [|b y] [|c w]; simpl; try done.
  destruct (Ascii.compare a b) eqn:Eab; try done.
  - apply Ascii.compare_eq_iff in Eab as ->.
    destruct (Ascii.compare b c); try done. apply IH.
  - intros _. destruct (Ascii.compare b c) eqn:Ebc; try done.
    + apply Ascii.compare_eq_iff in Ebc as <-. by rewrite Eab.
    + by rewrite (ascii_compare_Lt_trans a b c).
Qed.

Lemma compare_cont_Lt_trans m1 m2 m3 :
  PosDef.Pos.compare_cont Eq m1 m2 = Lt → PosDef.Pos.compare_cont Eq m2 m3 = Lt →
  PosDef.Pos.compare_cont Eq m1 m3 = Lt.
Proof.
  change (PosDef.Pos.compare_cont Eq) with Pos.compare.
  rewrite !Pos.compare_lt_iff. lia.
Qed.

Lemma compare_cont_Eq_eq m1 m2 : PosDef.Pos.compare_cont Eq m1 m2 = Eq → m1 = m2.
Proof. apply Pos.compare_eq. Qed.

Lemma SFcompare_Lt_trans x y w :
  SFcompare x y = Some Lt → SFcompare y w = Some Lt → SFcompare x w = Some Lt.
Proof.
  destruct x as [[]|[]| |[] m1 e1], y as [[]|[]| |[] m2 e2], w as [[]|[]| |[] m3 e3];
    simpl; try congruence.
  - rewrite (compare_cont_swap m2 m1), (compare_cont_swap m3 m2), (compare_cont_swap m3 m1).
    destruct (Z.compare_spec e1 e2) as [H12|H12|H12]; try congruence;
      destruct (Z.compare_spec e2 e3) as [H23|H23|H23]; try congruence;
      destruct (Z.compare_spec e1 e3) as [H13|H13|H13]; try lia; try congruence.
    destruct (PosDef.Pos.compare_cont Eq m2 m1) eqn:E21; try done.
    destruct (PosDef.Pos.compare_cont Eq m3 m2) eqn:E32; try done.
    by rewrite (compare_cont_Lt_trans m3 m2 m1).
  - destruct (Z.compare_spec e1 e2) as [H12|H12|H12]; try congruence;
      destruct (Z.compare_spec e2 e3) as [H23|H23|H23]; try congruence;
      destruct (Z.compare_spec e1 e3) as [H13|H13|H13]; try lia; try congruence.
    destruct (PosDef.Pos.compare_cont Eq m1 m2) eqn:E12; try congruence.
    destruct (PosDef.Pos.compare_cont Eq m2 m3) eqn:E23; try congruence.
    by rewrite (compare_cont_Lt_trans m1 m2 m3).
Qed.

(** Two floats above zero that compare equal are the same datum. *)
Lemma SFcompare_Eq_above_zero x y :
  SFcompare (S754_zero false) x = Some Lt → SFcompare x y = Some Eq → x = y.
Proof.
  destruct x as [[]|[]| |[] m1 e1], y as [[]|[]| |[] m2 e2]; simpl; try congruence.
  intros _. destruct (Z.compare_spec e1 e2) as [->|H12|H12]; try congruence.
  intros [= H]. by apply compare_cont_Eq_eq in H as ->.
Qed.

Lemma natural_lt_trans T a b c :
  natural_lt T a b → natural_lt T b c → natural_lt T a c.
Proof.
  destruct T; simpl; destruct a; try done; destruct b; try done; destruct c;
    try done; try lia; try apply SFcompare_Lt_trans; try apply string_compare_Lt_trans.
  intros [-> _] [_ ->]. done.
Qed.

Lemma natural_lt_asym T a b : natural_lt T a b → ¬ natural_lt T b a.
Proof.
  intros H1 H2. by apply (natural_lt_irrefl T a), (natural_lt_trans T a b a).
Qed.

Lemma natural_lt_total T a b :
  isOrdered (basic_Kind T) = true →
  T ≠ Tfloat32 → T ≠ Tfloat64 → basic_typed T a → basic_typed T b →
  ¬ natural_lt T a b → ¬ natural_lt T b a → a = b.
Proof.
  intros Ho H32 H64.
  destruct T; try done; simpl; destruct a; try done; destruct b; try done; simpl;
    intros _ _; try (intros; f_equal; lia).
  - destruct b0, b; intuition.
  - intros Hab Hba. destruct (String.compare s s0) eqn:E.
    + f_equal. by apply String.compare_eq_iff.
    + done.
    + rewrite String.compare_antisym, E in Hba. done.
Qed.

Lemma natural_lt_above_zero_eq T x y :
  basic_typed T x → basic_typed T y →
  natural_lt T (zero (Basic T)) x → natural_lt T (zero (Basic T)) y →
  ¬ natural_lt T x y → ¬ natural_lt T y x → x = y.
Proof.
  destruct T; simpl; destruct x; try done; destruct y; try done; simpl;
    intros _ _; try (intros; f_equal; lia).
  - intros [_ ->] [_ ->]. done.
  - intros Hx Hy Hxy Hyx. destruct (SFcompare f f0) as [[]|] eqn:E.
    + f_equal. by apply SFcompare_Eq_above_zero.
    + done.
    + by apply SFcompare_Gt_Lt in E.
    + destruct f as [| | |]; try done; destruct f0 as [| | |]; done.
  - intros Hx Hy Hxy Hyx. destruct (SFcompare f f0) as [[]|] eqn:E.
    + f_equal. by apply SFcompare_Eq_above_zero.
    + done.
    + by apply SFcompare_Gt_Lt in E.
    + destruct f as [| | |]; try done; destruct f0 as [| | |]; done.
  - intros _ _ Hxy Hyx. destruct (String.compare s s0) eqn:E.
    + f_equal. by apply String.compare_eq_iff.
    + done.
    + rewrite String.compare_antisym in Hyx. rewrite E in Hyx. done.
Qed.

Lemma greater_asym T a b g :
  greater (Basic T, a) (Basic T, b) = Ok true →
  greater (Basic T, b) (Basic T, a) = Ok g → g = false.
Proof.
  destruct T; try done; destruct a; try done; destruct b; try done; simpl;
    intros [= H] [= <-]; try lia.
  - by destruct b0, b.
  - apply SFgtb_true in H. apply not_true_is_false. intros H'.
    apply SFgtb_true in H'. by apply (SFcompare_irrefl f), (SFcompare_Lt_trans f f0 f).
  - apply SFgtb_true in H. apply not_true_is_false. intros H'.
    apply SFgtb_true in H'. by apply (SFcompare_irrefl f), (SFcompare_Lt_trans f f0 f).
  - apply string_gtb_true in H. apply not_true_is_false. intros H'.
    apply string_gtb_true in H'.
    by apply (string_compare_irrefl s), (string_compare_Lt_trans s s0 s).
Qed.

(** X9.  On the values of an ordered predeclared type [greater] does not
    panic and is a strict order: nothing is greater than itself, of two
    values at most one is greater than the other, and greater than is
    transitive.  Except on the floats, where a NaN and the two zeros are
    in the way, the order is total: of two different values one is
    greater. *)
Theorem greater_is_a_strict_order T a b c :
  isOrdered (basic_Kind T) = true →
  basic_typed T a → basic_typed T b → basic_typed T c →
  ∃ gab gba gbc gac,
    greater (Basic T, a) (Basic T, b) = Ok gab
    ∧ greater (Basic T, b) (Basic T, a) = Ok gba
    ∧ greater (Basic T, b) (Basic T, c) = Ok gbc
    ∧ greater (Basic T, a) (Basic T, c) = Ok gac
    ∧ greater (Basic T, a) (Basic T, a) = Ok false
    ∧ (gab = true → gba = false)
    ∧ (gab = true → gbc = true → gac = true)
    ∧ (T ≠ Tfloat32 → T ≠ Tfloat64 → gab = false → gba = false → a = b).
Proof.
  intros Ho Ha Hb Hc.
  destruct (greater_natural T b a Ho Hb Ha) as (gab & Eab & Hab).
  destruct (greater_natural T a b Ho Ha Hb) as (gba & Eba & Hba).
  destruct (greater_natural T c b Ho Hc Hb) as (gbc & Ebc & Hbc).
  destruct (greater_natural T c a Ho Hc Ha) as (gac & Eac & Hac).
  destruct (greater_natural T a a Ho Ha Ha) as (gaa & Eaa & Haa).
  exists gab, gba, gbc, gac. split_and!; try done.
  - rewrite Eaa. f_equal. by apply (greater_irrefl T a).
  - intros H1. apply Hab in H1. apply not_true_is_false. intros H2. apply Hba in H2.
    by apply (natural_lt_asym T a b).
  - intros H1 H2. apply Hab in H1. apply Hbc in H2. apply Hac.
    by apply (natural_lt_trans T c b a).
  - intros H32 H64 -> ->. apply (natural_lt_total T a b); try done.
    + intros H. by apply Hba in H.
    + intros H. by apply Hab in H.
Qed.

(** X10.  On the predeclared types [isOrdered] and the type switch of
    [greater] agree: [greater] has a case for the type of its arguments
    exactly when [isOrdered] holds of its kind.  So from [merge], which
    asks [isOrdered] first, the default of [greater] is reached for
    defined types only. *)
Theorem isOrdered_is_the_domain_of_greater T a b :
  basic_typed T a → basic_typed T b →
  (isOrdered (basic_Kind T) = true → ∃ g, greater (Basic T, a) (Basic T, b) = Ok g)
  ∧ (isOrdered (basic_Kind T) = false →
     greater (Basic T, a) (Basic T, b)
     = Panic ("don't know how to handle type: " ++ basic_String T)).
Proof.
  intros Ha Hb. split.
  - intros Ho. destruct (greater_natural T b a Ho Hb Ha) as (g & Hg & _). eauto.
  - by destruct T.
Qed.

(** X9 on the strings ["c"], ["b"] and ["a"]. *)
Lemma greater_is_a_strict_order_witness :
  ∃ gab gba gbc gac,
    greater (Basic Tstring, VString "c") (Basic Tstring, VString "b") = Ok gab
    ∧ greater (Basic Tstring, VString "b") (Basic Tstring, VString "c") = Ok gba
    ∧ greater (Basic Tstring, VString "b") (Basic Tstring, VString "a") = Ok gbc
    ∧ greater (Basic Tstring, VString "c") (Basic Tstring, VString "a") = Ok gac
    ∧ greater (Basic Tstring, VString "c") (Basic Tstring, VString "c") = Ok false
    ∧ (gab = true → gba = false)
    ∧ (gab = true → gbc = true → gac = true)
    ∧ (Tstring ≠ Tfloat32 → Tstring ≠ Tfloat64 → gab = false → gba = false →
       VString "c" = VString "b").
Proof.
  apply (greater_is_a_strict_order Tstring); reflexivity.
Defined.

(** X10 on [uintptr], which is not ordered. *)
Lemma isOrdered_is_the_domain_of_greater_witness :
  (isOrdered (basic_Kind Tuintptr) = true →
   ∃ g, greater (Basic Tuintptr, VInt 1) (Basic Tuintptr, VInt 2) = Ok g)
  ∧ (isOrdered (basic_Kind Tuintptr) = false →
     greater (Basic Tuintptr, VInt 1) (Basic Tuintptr, VInt 2)
     = Panic ("don't know how to handle type: " ++ basic_String Tuintptr)).
Proof.
  apply (isOrdered_is_the_domain_of_greater Tuintptr); simpl; lia.
Defined.

(** ** The least upper bound over a strict order with a least element *)

Section upper_bound.
Variables (D : data → Prop) (gt : data → data → bool) (z : data).
Hypothesis asym : ∀ x y, D x → D y → gt x y = true → gt y x = false.
Hypothesis trans : ∀ x y w, D x → D y → D w →
  gt x y = true → gt y w = true → gt x w = true.
Hypothesis above_eq : ∀ x y, D x → D y →
  gt x z = true → gt y z = true → gt x y = false → gt y x = false → x = y.
Hypothesis Dz : D z.

(** The assignment of the scalar strategy: [b] when [b > a], else [a]. *)
Local Abbreviation up a b := (if gt b a then b else a).

Local Ltac saturate :=
  repeat match goal with
  | H : gt ?x ?y = true |- _ =>
      lazymatch goal with
      | _ : gt y x = false |- _ => fail
      | _ => assert (gt y x = false) by (apply asym; assumption)
      end
  | H : gt ?x ?y = true, H' : gt ?y ?w = true |- _ =>
      lazymatch goal with
      | _ : gt x w = true |- _ => fail
      | _ => assert (gt x w = true) by (apply (trans x y w); assumption)
      end
  | H1 : gt ?x z = true, H2 : gt ?y z = true,
    H3 : gt ?x ?y = false, H4 : gt ?y ?x = false |- _ =>
      tryif constr_eq x y then fail
      else (assert (x = y) by (apply above_eq; assumption); subst y)
  end.

Local Ltac cases :=
  repeat match goal with
  | |- context [if gt ?x ?y then _ else _] =>
      is_var x; is_var y; destruct (gt x y) eqn:?; saturate; try congruence
  end.

Lemma up_comm a b : D a → D b → up (up z a) b = up (up z b) a.
Proof. intros Ha Hb. cases. Qed.

Lemma up_assoc a b c :
  D a → D b → D c →
  up (up z (up (up z a) b)) c = up (up z a) (up (up z b) c).
Proof.
  intros Ha Hb Hc. cases;
    try (destruct (gt a b) eqn:?; saturate; try congruence);
    try (destruct (gt b c) eqn:?; saturate; try congruence);
    try (destruct (gt a c) eqn:?; saturate; try congruence).
Qed.
End upper_bound.

(** ** Join on the scalars *)

Lemma zero_basic_typed T : isOrdered (basic_Kind T) = true → basic_typed T (zero (Basic T)).
Proof. destruct T; simpl; try done; lia. Qed.

Lemma string_gtb_empty x : string_gtb x "" = false → x = "".
Proof. by destruct x. Qed.

Section scalar_join.
Context {P : program}.
Variable T : basic.
Hypothesis ordered : isOrdered (basic_Kind T) = true.

(** [greater] as a test that is false where [greater] panics. *)
Local Abbreviation gt x y :=
  (match greater (Basic T, x) (Basic T, y) with Ok true => true | _ => false end).
Local Abbreviation up a b := (if gt b a then b else a).

Lemma gtb_natural x y :
  basic_typed T x → basic_typed T y →
  greater (Basic T, x) (Basic T, y) = Ok (gt x y) ∧ (gt x y = true ↔ natural_lt T y x).
Proof.
  intros Hx Hy. destruct (greater_natural T y x ordered Hy Hx) as (g & -> & Hg).
  by destruct g.
Qed.

Lemma upper_typed a b : basic_typed T a → basic_typed T b → basic_typed T (up a b).
Proof. intros Ha Hb. by destruct (gt b a). Qed.

Lemma join_Basic a b h :
  basic_typed T a → basic_typed T b →
  join (Basic T) a b h = Ok (up (up (zero (Basic T)) a) b, h).
Proof.
  intros Ha Hb. pose proof (zero_basic_typed T ordered) as Hz.
  unfold join. set (z := zero (Basic T)) in *. clearbody z.
  rewrite merge_Basic, ordered.
  destruct (greater_natural T z a ordered Hz Ha) as (g1 & Hg1 & _). rewrite !Hg1.
  destruct g1; cbn -[merge greater]; rewrite merge_Basic, ordered.
  - destruct (greater_natural T a b ordered Ha Hb) as (g2 & Hg2 & _). rewrite !Hg2.
    by destruct g2.
  - destruct (greater_natural T z b ordered Hz Hb) as (g2 & Hg2 & _). rewrite !Hg2.
    by destruct g2.
Qed.

Lemma gtb_asym x y : basic_typed T x → basic_typed T y → gt x y = true → gt y x = false.
Proof.
  intros Hx Hy Hxy. apply (gtb_natural x y Hx Hy) in Hxy.
  apply not_true_is_false. intros Hyx. apply (gtb_natural y x Hy Hx) in Hyx.
  by apply (natural_lt_asym T x y).
Qed.

Lemma gtb_trans x y w :
  basic_typed T x → basic_typed T y → basic_typed T w →
  gt x y = true → gt y w = true → gt x w = true.
Proof.
  intros Hx Hy Hw Hxy Hyw. apply (gtb_natural x y Hx Hy) in Hxy.
  apply (gtb_natural y w Hy Hw) in Hyw. apply (gtb_natural x w Hx Hw).
  by apply (natural_lt_trans T w y x).
Qed.

Lemma gtb_eq x y :
  basic_typed T x → basic_typed T y →
  gt x (zero (Basic T)) = true → gt y (zero (Basic T)) = true →
  gt x y = false → gt y x = false → x = y.
Proof.
  intros Hx Hy Hxz Hyz Hxy Hyx. pose proof (zero_basic_typed T ordered) as Hz.
  apply (gtb_natural x _ Hx Hz) in Hxz. apply (gtb_natural y _ Hy Hz) in Hyz.
  apply (natural_lt_above_zero_eq T x y); try done.
  - intros H. apply (gtb_natural y x Hy Hx) in H. congruence.
  - intros H. apply (gtb_natural x y Hx Hy) in H. congruence.
Qed.

(** X11.  On every ordered predeclared type [Join] is commutative: both
    orders return, touch no map, and give the same value. *)
Theorem Join_of_scalars_is_commutative a b h :
  basic_typed T a → basic_typed T b →
  ∃ v, Join (Some (Basic T, a)) (Some (Basic T, b)) h = Ok (v, h)
       ∧ Join (Some (Basic T, b)) (Some (Basic T, a)) h = Ok (v, h).
Proof.
  intros Ha Hb. rewrite !Join_same, !join_Basic by done.
  eexists. split; [reflexivity|]. do 2 f_equal.
  symmetry. by apply (up_comm (basic_typed T) (λ x y, gt x y) (zero (Basic T))
                        gtb_asym gtb_trans gtb_eq (zero_basic_typed T ordered)).
Qed.

(** X12.  On every ordered predeclared type [Join] is associative:
    [Join(Join(a, b), c)] and [Join(a, Join(b, c))] return the same
    value. *)
Theorem Join_of_scalars_is_associative a b c h :
  basic_typed T a → basic_typed T b → basic_typed T c →
  ∃ ab bc v,
    Join (Some (Basic T, a)) (Some (Basic T, b)) h = Ok (ab, h)
    ∧ Join (Some (Basic T, b)) (Some (Basic T, c)) h = Ok (bc, h)
    ∧ Join (Some (Basic T, ab)) (Some (Basic T, c)) h = Ok (v, h)
    ∧ Join (Some (Basic T, a)) (Some (Basic T, bc)) h = Ok (v, h).
Proof.
  intros Ha Hb Hc. pose proof (zero_basic_typed T ordered) as Hz.
  exists (up (up (zero (Basic T)) a) b), (up (up (zero (Basic T)) b) c).
  assert (Hab : basic_typed T (up (up (zero (Basic T)) a) b)).
  { repeat apply upper_typed; done. }
  assert (Hbc : basic_typed T (up (up (zero (Basic T)) b) c)).
  { repeat apply upper_typed; done. }
  rewrite !Join_same, !join_Basic by done.
  eexists. split; [reflexivity|]. split; [reflexivity|].
  split; [reflexivity|]. do 2 f_equal. symmetry.
  by apply (up_assoc (basic_typed T) (λ x y, gt x y) (zero (Basic T))
              gtb_asym gtb_trans gtb_eq Hz).
Qed.
End scalar_join.

Section scalar_closed_forms.
Context {P : program}.

(** X13.  [Join] in closed form: on the booleans it is the disjunction,
    on every integer type the greatest of the two numbers and zero, on the
    strings the greater of the two. *)
Theorem Join_of_scalars_in_closed_form h :
  (∀ x y, Join (Some (Basic Tbool, VBool x)) (Some (Basic Tbool, VBool y)) h
          = Ok (VBool (x || y), h))
  ∧ (∀ T x y, isOrdered (basic_Kind T) = true → int_bounds T ≠ None →
       Join (Some (Basic T, VInt x)) (Some (Basic T, VInt y)) h
       = Ok (VInt (Z.max 0 (Z.max x y)), h))
  ∧ (∀ x y, Join (Some (Basic Tstring, VString x)) (Some (Basic Tstring, VString y)) h
            = Ok (VString (if string_gtb y x then y else x), h)).
Proof.
  split_and!.
  - by intros [] [].
  - intros T x y Ho Hb. rewrite Join_same. unfold join.
    assert (Hm : ∀ u v, merge (Basic T) (VInt u) (VInt v) h
                        = Ok ((v >? u)%Z, VInt (if (v >? u)%Z then v else u), h)).
    { intros u v. rewrite merge_Basic, Ho.
      assert (greater (Basic T, VInt v) (Basic T, VInt u) = Ok (v >? u)%Z) as ->
        by by destruct T.
      by destruct (v >? u)%Z. }
    assert (zero (Basic T) = VInt 0) as -> by by destruct T.
    rewrite Hm. cbn [mbind result_bind]. rewrite Hm. cbn [mbind result_bind].
    do 2 f_equal.
    destruct (Z.gtb_spec x 0);
      match goal with
      | |- context [(?u >? ?v)%Z] => destruct (Z.gtb_spec u v)
      end; f_equal; lia.
  - intros x y. rewrite Join_same. unfold join. rewrite merge_Basic.
    cbn -[string_gtb]. destruct (string_gtb x "") eqn:E; cbn -[string_gtb].
    + by destruct (string_gtb y x).
    + apply string_gtb_empty in E as ->. by destruct (string_gtb y "").
Qed.
End scalar_closed_forms.

(** X13 on the [int8]s -3 and -5, whose join is 0. *)
Lemma Join_of_scalars_in_closed_form_witness :
  @Join plain_program (Some (Basic Tint8, VInt (-3))) (Some (Basic Tint8, VInt (-5))) []
  = Ok (VInt (Z.max 0 (Z.max (-3) (-5))), []).
Proof.
  destruct (Join_of_scalars_in_closed_form (P := plain_program) []) as (_ & H & _).
  apply H; [reflexivity|discriminate].
Defined.

(** X11 on a float and a NaN. *)
Lemma Join_of_scalars_is_commutative_witness :
  ∃ v, @Join plain_program (Some (Basic Tfloat64, VFloat (S754_finite false 1 0)))
         (Some (Basic Tfloat64, VFloat S754_nan)) [] = Ok (v, [])
       ∧ @Join plain_program (Some (Basic Tfloat64, VFloat S754_nan))
           (Some (Basic Tfloat64, VFloat (S754_finite false 1 0))) [] = Ok (v, []).
Proof.
  apply (Join_of_scalars_is_commutative (P := plain_program) Tfloat64); reflexivity.
Defined.

(** X12 on the [int8]s -1, 2 and 1. *)
Lemma Join_of_scalars_is_associative_witness :
  ∃ ab bc v,
    @Join plain_program (Some (Basic Tint8, VInt (-1))) (Some (Basic Tint8, VInt 2)) []
    = Ok (ab, [])
    ∧ @Join plain_program (Some (Basic Tint8, VInt 2)) (Some (Basic Tint8, VInt 1)) []
      = Ok (bc, [])
    ∧ @Join plain_program (Some (Basic Tint8, ab)) (Some (Basic Tint8, VInt 1)) []
      = Ok (v, [])
    ∧ @Join plain_program (Some (Basic Tint8, VInt (-1))) (Some (Basic Tint8, bc)) []
      = Ok (v, []).
Proof.
  apply (Join_of_scalars_is_associative (P := plain_program) Tint8);
    [reflexivity|simpl; lia..].
Defined.

(** ** Join and the zero value *)

Lemma at_least_zero_underlying t d :
  at_least_zero t d = at_least_zero (underlying t) d.
Proof. induction t; simpl; auto. Qed.

(** What merging [w] into the zero value leaves is [w] itself when [w] is
    at least zero. *)
Lemma zero_image_above h t n w :
  zero_image h t n w → at_least_zero t w → deep_rel true h h t n w.
Proof.
  revert n w. induction t as [T|fs IH|kt et _ _|et _|et _|name u IH] using type_ind';
    intros n w; simpl; try done.
  - intros (g & Hg & ->) (g' & Hg' & Hz).
    rewrite Hg in Hg'. injection Hg' as <-. by destruct Hz as [->| ->]; [|destruct g].
  - destruct n as [| | | | |ns| | |]; try done. destruct w as [| | | | |ws| | |]; try done.
    revert ns ws. induction IH as [|f fs Hf _ IHfs]; intros [|n ns] [|w ws]; simpl;
      try done.
    intros [Hn Hns] [Hw Hws]. split; [by apply Hf|by apply IHfs].
  - auto.
Qed.

Section Join_and_zero.
Context {P : program} (MapKeys_ok : MapKeys_spec P).

Lemma merge_fields_zero_source fs :
  Forall (λ f : field, field_PkgPath f = "" ∧ mergeable (field_Type f) = true ∧
    ∀ h n c n' h', at_least_zero (field_Type f) n →
      merge (field_Type f) n (zero (field_Type f)) h = Ok (c, n', h') →
      c = false ∧ n' = n ∧ h' = h) fs →
  ∀ h ns c ns' h', fields_all at_least_zero fs ns →
    merge_fields merge fs ns (map (λ f : field, zero f.2) fs) h = Ok (c, ns', h') →
    c = false ∧ ns' = ns ∧ h' = h.
Proof.
  induction 1 as [|f fs (Hpkg & _ & Hf) _ IH]; intros h [|n ns] c ns' h'; simpl; try done.
  - by intros _ [= <- <- <-].
  - intros [Hn Hns]. rewrite Hpkg. simpl.
    destruct (merge (field_Type f) n _ h) as [[[c1 n1] h1]|] eqn:E1; [|done].
    destruct (Hf _ _ _ _ _ Hn E1) as (-> & -> & ->). simpl.
    destruct (merge_fields merge fs ns _ h) as [[[c2 ns2] h2]|] eqn:E2; [|done].
    destruct (IH _ _ _ _ _ Hns E2) as (-> & -> & ->). simpl.
    by intros [= <- <- <-].
Qed.

(** Merging the zero value into a value at least zero changes nothing. *)
Lemma merge_zero_source t :
  mergeable t = true →
  ∀ h n c n' h', at_least_zero t n → merge t n (zero t) h = Ok (c, n', h') →
    c = false ∧ n' = n ∧ h' = h.
Proof.
  revert t. apply (mergeable_ind (λ t, ∀ h n c n' h',
    at_least_zero t n → merge t n (zero t) h = Ok (c, n', h') →
    c = false ∧ n' = n ∧ h' = h)).
  - intros T Ho h n c n' h' (g & Hg & Hz). rewrite merge_Basic, Ho.
    destruct (greater (Basic T, zero (Basic T)) (Basic T, n)) as [g'|] eqn:Eg; [|done].
    assert (g' = false) as ->.
    { destruct Hz as [->| ->].
      - by apply (greater_asym T n (zero (Basic T))).
      - by apply (greater_irrefl T (zero (Basic T))). }
    simpl. by intros [= <- <- <-].
  - intros fs Hfs h n c n' h' Hn Hm.
    destruct n as [| | | | |ns| | |]; try done.
    simpl zero in Hm. rewrite merge_StructOf in Hm.
    destruct (merge_fields merge fs ns _ h) as [[[c1 ns1] h1]|] eqn:E; [|done].
    simpl in Hm. injection Hm as <- <- <-.
    by destruct (merge_fields_zero_source fs Hfs _ _ _ _ _ Hn E) as (-> & -> & ->).
  - intros kt et _ _ h n c n' h' _ Hm.
    destruct n as [| | | | | |ra| |]; try done.
    simpl zero in Hm. rewrite merge_MapOf in Hm. unfold merge_map in Hm.
    destruct ra; by injection Hm as <- <- <-.
  - intros t Ht IH h n c n' h'. rewrite merge_underlying by done.
    rewrite at_least_zero_underlying, zero_underlying. apply IH.
Qed.

Lemma zero_above_zero t : mergeable t = true → at_least_zero t (zero t).
Proof.
  revert t. apply (mergeable_ind (λ t, at_least_zero t (zero t))).
  - apply zero_at_least_zero.
  - intros fs Hfs. simpl. induction Hfs as [|f fs (_ & _ & Hf) _ IH]; simpl.
    + done.
    + by split.
  - done.
  - intros t _ IH. by rewrite at_least_zero_underlying, zero_underlying.
Qed.




(** X17.  The maps a value returned by [Join] holds directly are objects
    made by the call: none was in the heap before, the value holds each
    once, and none is an element of a map.  So a later [Merge] into the
    value writes to none of the objects the arguments of [Join] hold. *)
Theorem Join_returns_new_maps t Σ h a b :
  mergeable t = true → heap_ok Σ h → has_type Σ t a → has_type Σ t b →
  ∃ value h',
    Join (Some (t, a)) (Some (t, b)) h = Ok (value, h')
    ∧ (∀ l, l ∈ refs value → length h ≤ l)
    ∧ unshared h' value.
Proof.
  intros Ht Hok Ha Hb. rewrite Join_same. unfold join.
  destruct (merge_total MapKeys_ok t Ht Σ h (zero t) a Hok (zero_typed Σ t) Ha)
    as (c1 & n1 & h1 & Σ1 & E1 & HΣ1 & Hok1 & Hn1 & _).
  destruct (merge_total MapKeys_ok t Ht Σ1 h1 n1 b Hok1 Hn1 (has_type_weaken _ _ _ _ HΣ1 Hb))
    as (c2 & v & h2 & Σ2 & E2 & HΣ2 & Hok2 & Hv & _).
  rewrite E1. simpl. rewrite E2. simpl. exists v, h2. split; [done|].
  destruct (merge_frame t Ht _ _ _ _ _ _ E1) as [[Hlen1 _] Hr1].
  destruct (merge_frame t Ht _ _ _ _ _ _ E2) as [_ Hr2].
  destruct (merge_created MapKeys_ok t Ht Σ h _ _ _ _ _ Hok (zero_typed Σ t) Ha E1)
    as [Hnd1 Hin1].
  destruct (merge_created MapKeys_ok t Ht Σ1 h1 _ _ _ _ _ Hok1 Hn1
              (has_type_weaken _ _ _ _ HΣ1 Hb) E2) as [Hnd2 Hin2].
  rewrite refs_zero in Hr1, Hnd1.
  assert (Hnew1 : ∀ l, l ∈ refs n1 → length h ≤ l).
  { intros l Hl. destruct (Hr1 l Hl) as [Hnil|?]; [|done]. by apply elem_of_nil in Hnil. }
  assert (Hnew : ∀ l, l ∈ refs v → length h ≤ l).
  { intros l Hl. destruct (Hr2 l Hl) as [?|?]; [auto|lia]. }
  split; [done|]. split.
  - apply Hnd2, Hnd1, NoDup_nil_2.
  - intros l Hl Hinner. destruct (Hin2 l Hinner) as [Hi1|[_ Hnot]]; [|done].
    destruct (Hin1 l Hi1) as [Hi0|[_ Hnot1]].
    + apply (inner_valid Σ) in Hi0; [|done]. specialize (Hnew l Hl). lia.
    + destruct (Hr2 l Hl) as [?|Hge]; [done|].
      apply (inner_valid Σ1) in Hi1; [|done]. lia.
Qed.
End Join_and_zero.




(** X17 on [Join({1: 2}, {2: 3})]. *)
Lemma Join_returns_new_maps_witness :
  ∃ value h',
    @Join plain_program (Some (int_map, VMap (Some 0))) (Some (int_map, VMap (Some 1)))
      count_heap = Ok (value, h')
    ∧ (∀ l, l ∈ refs value → length count_heap ≤ l)
    ∧ unshared h' value.
Proof.
  apply (Join_returns_new_maps (P := plain_program)
           (sorted_keys_spec plain_program eq_refl) int_map _ _ _ _ eq_refl count_heap_ok);
    reflexivity.
Defined.

(** ** The map strategy *)

Lemma SetMapIndex_insert h l m k v :
  h !! l = Some m → SetMapIndex l k v h = <[l := <[k := v]> m]> h.
Proof. intros Hl. unfold SetMapIndex. by rewrite Hl. Qed.

Lemma SetMapIndex_lookup h l m k v :
  h !! l = Some m → SetMapIndex l k v h !! l = Some (<[k := v]> m).
Proof.
  intros Hl. rewrite (SetMapIndex_insert _ _ _ _ _ Hl).
  apply list_lookup_insert_eq. by eapply lookup_lt_Some.
Qed.

Lemma SetMapIndex_lookup_ne h l l' k v :
  l ≠ l' → SetMapIndex l k v h !! l' = h !! l'.
Proof.
  intros Hne. unfold SetMapIndex. destruct (h !! l); [|done].
  by apply list_lookup_insert_ne.
Qed.

(** The scalar strategy on values of the type, by the natural order. *)
Lemma merge_Basic_natural `{P : program} T a b h :
  isOrdered (basic_Kind T) = true → basic_typed T a → basic_typed T b →
  ∃ g : bool, merge (Basic T) a b h = Ok (g, if g then b else a, h)
              ∧ (g = true ↔ natural_lt T a b).
Proof.
  intros Ho Ha Hb. rewrite merge_Basic, Ho.
  destruct (greater_natural T a b Ho Ha Hb) as (g & -> & Hg).
  exists g. by destruct g.
Qed.

Section map_strategy.
Context {P : program} (MapKeys_ok : MapKeys_spec P).

Lemma Merge_MapOf t kt et a b h :
  as_Merger t = None → underlying t = MapOf kt et →
  Merge (addr t (VMap a)) (Some (t, VMap b)) h = merge_map merge et a b h.
Proof.
  intros Hm Hu. rewrite Merge_addr. unfold merge at 1, with_Merger. rewrite Hm.
  by rewrite dispatch_underlying, Hu.
Qed.


(** X19.  A nil source changes nothing, whether the target is nil or not,
    and an empty source changes nothing of a target that is not nil: no
    merge is tried, no object is made, and the flag is false. *)
Theorem empty_source_changes_nothing t kt et ra la lb h :
  as_Merger t = None → underlying t = MapOf kt et →
  Merge (addr t (VMap ra)) (Some (t, VMap None)) h = Ok (false, VMap ra, h)
  ∧ (h !! lb = Some ∅ →
     Merge (addr t (VMap (Some la))) (Some (t, VMap (Some lb))) h
     = Ok (false, VMap (Some la), h)).
Proof.
  intros Hm Hu. rewrite !(Merge_MapOf t kt et) by done. split.
  - unfold merge_map. by destruct ra.
  - intros Hlb. unfold merge_map. rewrite Hlb, (MapKeys_empty MapKeys_ok). done.
Qed.

(** The loop of the map strategy, target and source being two objects. *)
Lemma merge_keys_union et la lb mb :
  mergeable et = true → la ≠ lb →
  ∀ keys changed h ma c h',
    NoDup keys → h !! la = Some ma → h !! lb = Some mb →
    merge_keys merge et la lb keys changed h = Ok (c, h') →
    ∃ ma', h' !! la = Some ma' ∧ h' !! lb = Some mb
      ∧ (∀ k, k ∉ keys → ma' !! k = ma !! k)
      ∧ (∀ k, k ∈ keys → ma !! k = None → ma' !! k = mb !! k)
      ∧ (∀ k, is_Some (ma !! k) → is_Some (ma' !! k))
      ∧ (changed = true ∨ (∃ k, k ∈ keys ∧ ma !! k = None) → c = true).
Proof.
  intros Hme Hne. induction keys as [|key keys IH]; intros changed h ma c h' Hnd Hla Hlb Hm.
  - injection Hm as <- <-. exists ma. split_and!; try done.
    + intros k Hk. by apply elem_of_nil in Hk.
    + intros [?|(k & Hk & _)]; [done|]. by apply elem_of_nil in Hk.
  - apply NoDup_cons in Hnd as [Hnotin Hnd]. simpl in Hm. rewrite Hla, Hlb in Hm.
    destruct (mb !! key) as [bValue|] eqn:Hb; [|done].
    destruct (ma !! key) as [aValue|] eqn:Ha.
    + destruct (merge et (zero et) aValue h) as [[[c1 n1] h1]|] eqn:E1; [|done].
      simpl in Hm.
      destruct (merge et n1 bValue h1) as [[[c2 n2] h2]|] eqn:E2; [|done].
      simpl in Hm.
      destruct (scratch_frame _ _ _ _ _ _ _ _ _ _ Hme E1 E2) as (Hw & _).
      assert (Hla2 : h2 !! la = Some ma).
      { eapply writes_within_lookup; [exact Hw|done|apply not_elem_of_nil]. }
      assert (Hlb2 : h2 !! lb = Some mb).
      { eapply writes_within_lookup; [exact Hw|done|apply not_elem_of_nil]. }
      destruct c2.
      * destruct (IH true _ (<[key := n2]> ma) c h' Hnd
          (SetMapIndex_lookup _ _ _ _ _ Hla2)
          (eq_trans (SetMapIndex_lookup_ne _ _ _ _ _ Hne) Hlb2) Hm)
          as (ma' & Hla' & Hlb' & Hout & Hin & Hsome & Hc).
        exists ma'. split_and!; try done.
        -- intros k Hk. rewrite Hout by (intros ?; apply Hk; by apply list_elem_of_further).
           apply lookup_insert_ne. intros ->. apply Hk, list_elem_of_here.
        -- intros k Hk Hnone. apply elem_of_cons in Hk as [->|Hk]; [congruence|].
           apply Hin; [done|]. rewrite lookup_insert_ne; [done|]. by intros ->.
        -- intros k Hk. apply Hsome. destruct (decide (key = k)) as [->|?].
           ++ rewrite lookup_insert_eq. eauto.
           ++ by rewrite lookup_insert_ne.
        -- intros _. apply Hc. by left.
      * destruct (IH changed _ ma c h' Hnd Hla2 Hlb2 Hm)
          as (ma' & Hla' & Hlb' & Hout & Hin & Hsome & Hc).
        exists ma'. split_and!; try done.
        -- intros k Hk. apply Hout. intros ?. apply Hk. by apply list_elem_of_further.
        -- intros k Hk Hnone. apply elem_of_cons in Hk as [->|Hk]; [congruence|]. auto.
        -- intros [?|(k & Hk & Hnone)]; [auto|].
           apply elem_of_cons in Hk as [->|Hk]; [congruence|]. apply Hc. eauto.
    + destruct (IH true _ (<[key := bValue]> ma) c h' Hnd
        (SetMapIndex_lookup _ _ _ _ _ Hla)
        (eq_trans (SetMapIndex_lookup_ne _ _ _ _ _ Hne) Hlb) Hm)
        as (ma' & Hla' & Hlb' & Hout & Hin & Hsome & Hc).
      exists ma'. split_and!; try done.
      * intros k Hk. rewrite Hout by (intros ?; apply Hk; by apply list_elem_of_further).
        apply lookup_insert_ne. intros ->. apply Hk, list_elem_of_here.
      * intros k Hk Hnone. apply elem_of_cons in Hk as [->|Hk].
        -- rewrite Hout by done. by rewrite lookup_insert_eq.
        -- apply Hin; [done|]. rewrite lookup_insert_ne; [done|]. by intros ->.
      * intros k Hk. apply Hsome. destruct (decide (key = k)) as [->|?].
        -- rewrite lookup_insert_eq. eauto.
        -- by rewrite lookup_insert_ne.
      * intros _. apply Hc. by left.
Qed.

End map_strategy.

(** *** Elements that are merged without a map *)

Section pure_elements.
Context {P : program}.
Variables (et : type) (D : data → Prop) (f : data → data → bool * data).
Hypothesis merge_pure : ∀ a b h, D a → D b →
  merge et a b h = Ok ((f a b).1, (f a b).2, h).
Hypothesis D_zero : D (zero et).
Hypothesis D_f : ∀ a b, D a → D b → D (f a b).2.

(** The second merge of the loop, of the source's element [y] into the
    scratch value that the target's element [x] left. *)
Local Abbreviation scratch x y := (f (f (zero et) x).2 y).

(** The loop of the map strategy when the merge of two elements is a
    function [f] of the two that touches no map. *)
Lemma merge_keys_pure la lb (mb : gmap key data) :
  la ≠ lb → (∀ k v, mb !! k = Some v → D v) →
  ∀ keys changed h (ma : gmap key data),
    NoDup keys → h !! la = Some ma → h !! lb = Some mb →
    (∀ k, k ∈ keys → is_Some (mb !! k)) →
    (∀ k v, ma !! k = Some v → D v) →
    ∃ c ma', merge_keys merge et la lb keys changed h = Ok (c, <[la := ma']> h)
      ∧ (∀ k, k ∉ keys → ma' !! k = ma !! k)
      ∧ (∀ k, k ∈ keys →
           ma' !! k = match ma !! k, mb !! k with
                      | Some x, Some y =>
                          Some (if (scratch x y).1 then (scratch x y).2 else x)
                      | None, Some y => Some y
                      | o, None => o
                      end)
      ∧ (c = true ↔ changed = true ∨
           ∃ k, k ∈ keys ∧ match ma !! k with
                           | Some x => ∃ y, mb !! k = Some y ∧ (scratch x y).1 = true
                           | None => True
                           end).
Proof.
  intros Hne Hmb.
  induction keys as [|key keys IH]; intros changed h ma Hnd Hla Hlb Hkeys Hma.
  - exists changed, ma. simpl. rewrite list_insert_id by done.
    split_and!; try done.
    + intros k Hk. by apply elem_of_nil in Hk.
    + split; [by left|]. intros [?|(k & Hk & _)]; [done|]. by apply elem_of_nil in Hk.
  - apply NoDup_cons in Hnd as [Hnotin Hnd].
    destruct (Hkeys key) as [y Hy]; [apply list_elem_of_here|].
    assert (Hty : D y) by eauto.
    assert (Hkeys' : ∀ k, k ∈ keys → is_Some (mb !! k)).
    { intros k Hk. apply Hkeys. by apply list_elem_of_further. }
    assert (Hlen : la < length h) by by eapply lookup_lt_Some.
    assert (Hins : ∀ v, D v → ∀ k w, <[key := v]> ma !! k = Some w → D w).
    { intros v Hv k w. destruct (decide (key = k)) as [->|?].
      - rewrite lookup_insert_eq. by intros [= <-].
      - rewrite lookup_insert_ne by done. eauto. }
    cbn [merge_keys]. rewrite Hla, Hlb, Hy.
    destruct (ma !! key) as [x|] eqn:Hx.
    + assert (Htx : D x) by eauto.
      rewrite (merge_pure _ _ _ D_zero Htx). cbn -[merge zero].
      rewrite (merge_pure _ _ _ (D_f _ _ D_zero Htx) Hty). cbn -[merge zero].
      destruct (scratch x y) as [c2 n2] eqn:E2. cbn [fst snd].
      assert (Hn2 : D n2).
      { change n2 with (c2, n2).2. rewrite <- E2. apply D_f; [by apply D_f|done]. }
      destruct c2.
      * rewrite (SetMapIndex_insert _ _ _ _ _ Hla).
        destruct (IH true (<[la := <[key := n2]> ma]> h) (<[key := n2]> ma)) as
          (c & ma' & Hm & Hout & Hin & Hc); try done.
        { by apply list_lookup_insert_eq. }
        { by rewrite list_lookup_insert_ne. }
        { by apply Hins. }
        rewrite list_insert_insert_eq in Hm.
        exists c, ma'. split_and!; try done.
        -- intros k Hk. rewrite Hout by (intros ?; apply Hk; by apply list_elem_of_further).
           apply lookup_insert_ne. intros ->. apply Hk, list_elem_of_here.
        -- intros k Hk. apply elem_of_cons in Hk as [->|Hk].
           ++ rewrite Hx, Hy, E2, Hout by done. by rewrite lookup_insert_eq.
           ++ rewrite (Hin k Hk), lookup_insert_ne; [done|]. by intros ->.
        -- split; [|intros _; apply Hc; by left]. intros _. right. exists key.
           split; [apply list_elem_of_here|]. rewrite Hx. exists y. by rewrite E2.
      * destruct (IH changed h ma) as (c & ma' & Hm & Hout & Hin & Hc); try done.
        exists c, ma'. split_and!; try done.
        -- intros k Hk. apply Hout. intros ?. apply Hk. by apply list_elem_of_further.
        -- intros k Hk. apply elem_of_cons in Hk as [->|Hk]; [|by apply Hin].
           by rewrite Hx, Hy, E2, Hout.
        -- rewrite Hc. split.
           ++ intros [?|(k & Hk & Hr)]; [by left|]. right. exists k.
              split; [by apply list_elem_of_further|done].
           ++ intros [?|(k & Hk & Hr)]; [by left|].
              apply elem_of_cons in Hk as [->|Hk]; [|right; eauto].
              rewrite Hx in Hr. destruct Hr as (y' & Hy' & Hr).
              rewrite Hy in Hy'. injection Hy' as <-. by rewrite E2 in Hr.
    + rewrite (SetMapIndex_insert _ _ _ _ _ Hla).
      destruct (IH true (<[la := <[key := y]> ma]> h) (<[key := y]> ma)) as
        (c & ma' & Hm & Hout & Hin & Hc); try done.
      { by apply list_lookup_insert_eq. }
      { by rewrite list_lookup_insert_ne. }
      { by apply Hins. }
      rewrite list_insert_insert_eq in Hm.
      exists c, ma'. split_and!; try done.
      * intros k Hk. rewrite Hout by (intros ?; apply Hk; by apply list_elem_of_further).
        apply lookup_insert_ne. intros ->. apply Hk, list_elem_of_here.
      * intros k Hk. apply elem_of_cons in Hk as [->|Hk].
        -- rewrite Hx, Hy, Hout by done. by rewrite lookup_insert_eq.
        -- rewrite (Hin k Hk), lookup_insert_ne; [done|]. by intros ->.
      * split; [|intros _; apply Hc; by left]. intros _. right. exists key.
        split; [apply list_elem_of_here|]. by rewrite Hx.
Qed.
End pure_elements.

Section map_of_scalars.
Context {P : program} (MapKeys_ok : MapKeys_spec P).
Variable T : basic.
Hypothesis ordered : isOrdered (basic_Kind T) = true.

Local Abbreviation gt x y :=
  (match greater (Basic T, x) (Basic T, y) with Ok true => true | _ => false end).

(** What the loop of the map strategy leaves under a key: the element [x]
    of the target is first brought up to the zero value, and the element
    [y] of the source replaces [x] when it is above that. *)
Local Abbreviation merged_entry ox oy o' :=
  (match ox, oy with
   | Some x, Some y =>
       ∃ x', (natural_lt T (zero (Basic T)) x ∧ x' = x
              ∨ ¬ natural_lt T (zero (Basic T)) x ∧ x' = zero (Basic T))
             ∧ (natural_lt T x' y ∧ o' = Some y ∨ ¬ natural_lt T x' y ∧ o' = Some x)
   | None, Some y => o' = Some y
   | _, None => o' = ox
   end).

Lemma merge_Basic_pure a b h :
  basic_typed T a → basic_typed T b →
  merge (Basic T) a b h = Ok (gt b a, if gt b a then b else a, h).
Proof.
  intros Ha Hb. rewrite merge_Basic, ordered.
  destruct (greater_natural T a b ordered Ha Hb) as (g & -> & _). by destruct g.
Qed.

End map_of_scalars.


(** X19 on a nil and on an empty source for the target [{1: 2}]. *)
Lemma empty_source_changes_nothing_witness :
  @Merge plain_program (addr int_map (VMap (Some 0))) (Some (int_map, VMap None))
    (count_heap ++ [∅]) = Ok (false, VMap (Some 0), count_heap ++ [∅])
  ∧ @Merge plain_program (addr int_map (VMap (Some 0))) (Some (int_map, VMap (Some 2)))
      (count_heap ++ [∅]) = Ok (false, VMap (Some 0), count_heap ++ [∅]).
Proof.
  destruct (empty_source_changes_nothing (P := plain_program)
              (sorted_keys_spec plain_program eq_refl) int_map (Basic Tint) (Basic Tint)
              (Some 0) 0 2 (count_heap ++ [∅]) eq_refl eq_refl) as [H1 H2].
  split; [exact H1|]. apply H2. reflexivity.
Defined.



(** ** The struct strategy *)

Lemma Merge_StructOf `{P : program} t fs xs ys h :
  as_Merger t = None → underlying t = StructOf fs →
  Merge (addr t (VStruct xs)) (Some (t, VStruct ys)) h
  = '(changed, xs', h') ← merge_fields merge fs xs ys h; Ok (changed, VStruct xs', h').
Proof.
  intros Hm Hu. rewrite Merge_addr. unfold merge at 1, with_Merger. rewrite Hm.
  by rewrite dispatch_underlying, Hu.
Qed.

Section struct_strategy.
Context {P : program} (MapKeys_ok : MapKeys_spec P).

Lemma merge_fields_scalars Σ fs :
  Forall (λ f : field, field_PkgPath f = ""
    ∧ ∃ T, field_Type f = Basic T ∧ isOrdered (basic_Kind T) = true) fs →
  ∀ xs ys h, fields_all (has_type Σ) fs xs → fields_all (has_type Σ) fs ys →
    ∃ c xs', merge_fields merge fs xs ys h = Ok (c, xs', h)
      ∧ length xs' = length xs
      ∧ (∀ i f x y, fs !! i = Some f → xs !! i = Some x → ys !! i = Some y →
           ∃ T, field_Type f = Basic T
                ∧ (natural_lt T x y ∧ xs' !! i = Some y
                   ∨ ¬ natural_lt T x y ∧ xs' !! i = Some x))
      ∧ (c = false → xs' = xs) ∧ (c = true → xs' ≠ xs).
Proof.
  induction 1 as [|f fs (Hpkg & T & HT & Ho) _ IH]; intros [|x xs] [|y ys] h; simpl;
    try done.
  - intros _ _. exists false, []. split_and!; try done.
  - intros [Hx Hxs] [Hy Hys]. rewrite Hpkg. simpl. rewrite HT in Hx, Hy |- *.
    destruct (merge_Basic_natural T x y h Ho Hx Hy) as (g & -> & Hg).
    cbn -[merge].
    destruct (IH xs ys h Hxs Hys) as (cs & xs' & -> & Hlen & Hi & Hf & Htr).
    cbn -[merge]. exists (g || cs), ((if g then y else x) :: xs').
    split_and!; try done.
    + simpl. by rewrite Hlen.
    + intros [|i] f' x0 y0; simpl.
      * intros [= <-] [= <-] [= <-]. exists T. split; [done|].
        destruct g; [left|right]; (split; [|done]).
        -- by apply Hg.
        -- intros H. by apply Hg in H.
      * apply Hi.
    + intros Hc. apply orb_false_iff in Hc as [-> ->]. by rewrite Hf.
    + intros Hc Heq. injection Heq as Hx' Hxs'. destruct g.
      * subst y. by apply (natural_lt_irrefl T x), Hg.
      * simpl in Hc. by apply Htr.
Qed.

(** X22.  Merging structs whose fields are all of ordered predeclared
    types: no map is touched, every field is merged on its own, field [i]
    of the target becoming field [i] of the source exactly when it was
    below it, and [Merge] returns true exactly when some field was
    replaced; no field stops the later ones from being merged. *)
Theorem struct_of_scalars_Merge_by_field t fs Σ xs ys h :
  as_Merger t = None → underlying t = StructOf fs →
  Forall (λ f : field, field_PkgPath f = ""
    ∧ ∃ T, field_Type f = Basic T ∧ isOrdered (basic_Kind T) = true) fs →
  has_type Σ t (VStruct xs) → has_type Σ t (VStruct ys) →
  ∃ changed xs',
    Merge (addr t (VStruct xs)) (Some (t, VStruct ys)) h = Ok (changed, VStruct xs', h)
    ∧ length xs' = length xs
    ∧ (∀ i f x y, fs !! i = Some f → xs !! i = Some x → ys !! i = Some y →
         ∃ T, field_Type f = Basic T
              ∧ (natural_lt T x y ∧ xs' !! i = Some y
                 ∨ ¬ natural_lt T x y ∧ xs' !! i = Some x))
    ∧ (changed = true ↔ xs' ≠ xs).
Proof.
  intros Hm Hu Hfs Hxs Hys. rewrite (Merge_StructOf t fs) by done.
  rewrite has_type_underlying, Hu in Hxs, Hys. simpl in Hxs, Hys.
  destruct (merge_fields_scalars Σ fs Hfs xs ys h Hxs Hys)
    as (c & xs' & -> & Hlen & Hi & Hf & Htr).
  exists c, xs'. split_and!; try done. split; [done|].
  intros Hne. destruct c; [done|]. by destruct Hne; apply Hf.
Qed.

Lemma merge_fields_unexported fs1 f fs2 :
  Forall (λ g : field, field_PkgPath g = "" ∧ mergeable (field_Type g) = true) fs1 →
  field_PkgPath f ≠ "" →
  ∀ Σ h xs ys, heap_ok Σ h →
    fields_all (has_type Σ) (fs1 ++ f :: fs2) xs →
    fields_all (has_type Σ) (fs1 ++ f :: fs2) ys →
    merge_fields merge (fs1 ++ f :: fs2) xs ys h
    = Panic ("field " ++ field_Name f ++ " (" ++ field_PkgPath f ++ ") is unexported").
Proof.
  intros Hfs Hf. induction Hfs as [|g fs1 (Hpkg & Hg) _ IH];
    intros Σ h [|x xs] [|y ys] Hok; simpl; try done.
  - intros _ _. apply String.eqb_neq in Hf. by rewrite Hf.
  - intros [Hx Hxs] [Hy Hys]. rewrite Hpkg. simpl.
    destruct (merge_total MapKeys_ok _ Hg Σ h x y Hok Hx Hy)
      as (c & x' & h1 & Σ1 & -> & Hpre & Hok1 & _).
    cbn -[merge]. rewrite (IH Σ1 h1 xs ys Hok1); [done| |].
    + eapply fields_all_impl; [|exact Hxs]. apply Forall_forall.
      intros ????. by eapply has_type_weaken.
    + eapply fields_all_impl; [|exact Hys]. apply Forall_forall.
      intros ????. by eapply has_type_weaken.
Qed.

End struct_strategy.

(** X22 on [Merge(&A{1, "a"}, A{2, ""})] for the struct of the tests. *)
Lemma struct_of_scalars_Merge_by_field_witness :
  let fs : list field := [("I", "", Basic Tint); ("J", "", Basic Tstring)] in
  let xs := [VInt 1; VString "a"] in
  let ys := [VInt 2; VString ""] in
  ∃ changed xs',
    @Merge plain_program (addr A_struct (VStruct xs)) (Some (A_struct, VStruct ys)) []
    = Ok (changed, VStruct xs', [])
    ∧ length xs' = length xs
    ∧ (∀ i f x y, fs !! i = Some f → xs !! i = Some x → ys !! i = Some y →
         ∃ T, field_Type f = Basic T
              ∧ (natural_lt T x y ∧ xs' !! i = Some y
                 ∨ ¬ natural_lt T x y ∧ xs' !! i = Some x))
    ∧ (changed = true ↔ xs' ≠ xs).
Proof.
  apply (struct_of_scalars_Merge_by_field (P := plain_program) A_struct _ [] _ _ []
           eq_refl eq_refl).
  - repeat constructor; eexists; split; reflexivity.
  - simpl. lia.
  - simpl. lia.
Defined.


(** ** [decreasingInt], the Merger of the tests *)

Lemma merge_decreasingInt (x y : Z) h :
  @merge test_program decreasingInt (VInt x) (VInt y) h
  = Ok ((y <? x)%Z, VInt (if (y <? x)%Z then y else x), h).
Proof.
  unfold merge, with_Merger. cbn [as_Merger decreasingInt methods test_program].
  cbn [String.eqb Ascii.eqb Bool.eqb]. unfold decreasingInt_Merge. cbn [fst snd].
  rewrite type_eqb_refl. cbn [negb]. by destruct (y <? x)%Z.
Qed.

(** X24.  The Merge method of [decreasingInt] keeps the smaller number
    and reports a change exactly when the other one is smaller; through
    it, [Join] of two [decreasingInt]s is the least of them and zero. *)
Theorem decreasingInt_Merge_keeps_the_minimum (i other : Z) h :
  @Merge test_program (addr decreasingInt (VInt i)) (Some (decreasingInt, VInt other)) h
  = Ok (bool_decide (other < i)%Z, VInt (Z.min i other), h)
  ∧ @Join test_program (Some (decreasingInt, VInt i)) (Some (decreasingInt, VInt other)) h
    = Ok (VInt (Z.min 0 (Z.min i other)), h).
Proof.
  split.
  - rewrite Merge_addr, merge_decreasingInt. destruct (Z.ltb_spec other i).
    + rewrite bool_decide_eq_true_2 by done. by rewrite Z.min_r by lia.
    + rewrite bool_decide_eq_false_2 by lia. by rewrite Z.min_l by lia.
  - rewrite Join_same. unfold join. change (zero decreasingInt) with (VInt 0).
    rewrite merge_decreasingInt. cbn [mbind result_bind].
    rewrite merge_decreasingInt. cbn [mbind result_bind].
    do 2 f_equal.
    destruct (Z.ltb_spec i 0);
      match goal with
      | |- context [(?x <? ?y)%Z] => destruct (Z.ltb_spec x y)
      end; f_equal; lia.
Qed.


